(** * CCRIPTER chat view: playback queue, streamed replies, voice capture

    A shallow embedding of the interaction logic of the [Chat] component
    (the React component in [src/README.md], second document), and of the
    endpoint table of [frotend/src/lib/api.ts].

    The component is single-threaded: every handler runs to its first
    [await] (or to its end) without interruption, and asynchronous
    continuations (network replies, media events, recorder events) are
    resumed later on the same thread.  Each handler and each continuation
    is therefore one atomic transition of a state that holds the
    component's refs and React state, together with the platform objects
    the handlers created ([Audio] elements, fetch sessions, recorders).
    A handler sees the state as the handlers before it left it: React
    renders again between two user events, so the closures [onSendText]
    and [onToggleRecord] hold the current [input] and [recording].  The
    cleanup that runs when the component is unmounted is [cleanup]; it
    ends a run and is not one of its events. *)

From Stdlib Require Import NArith ZArith List Bool Lia.
From Stdlib Require Strings.Byte.
From stdpp Require Import base list.
Import ListNotations.
Local Open Scope list_scope.
Set Warnings "-register-all".

(** ** Strings

    A JavaScript string is a sequence of UTF-16 code units: [String c s] is
    the code unit [c] followed by [s].  A literal stands for the code units
    of its characters, all ASCII. *)
Inductive string := EmptyString | String (c : N) (s : string).

(** Literals: reading one from ASCII bytes, and printing one back. *)
Fixpoint of_bytes (l : list Byte.byte) : option string :=
  match l with
  | [] => Some EmptyString
  | b :: l' =>
      if (Byte.to_N b <? 128)%N
      then option_map (String (Byte.to_N b)) (of_bytes l')
      else None
  end.

Fixpoint to_bytes (s : string) : option (list Byte.byte) :=
  match s with
  | EmptyString => Some []
  | String c s' =>
      if (c <? 128)%N
      then match Byte.of_N c, to_bytes s' with
           | Some b, Some l => Some (b :: l)
           | _, _ => None
           end
      else None
  end.

Declare Scope js_scope.
Delimit Scope js_scope with js.
Bind Scope js_scope with string.
String Notation string of_bytes to_bytes : js_scope.
Local Open Scope js_scope.

#[global] Instance string_eq_dec : EqDecision string.
Proof. solve_decision. Defined.

(** [a + b] *)
Fixpoint append (a b : string) : string :=
  match a with
  | EmptyString => b
  | String c a' => String c (append a' b)
  end.

Arguments append : simpl never.

Infix "+:+" := append (at level 60, right associativity) : js_scope.

(** [a === b] *)
Fixpoint string_eqb (a b : string) : bool :=
  match a, b with
  | EmptyString, EmptyString => true
  | String c a', String d b' => N.eqb c d && string_eqb a' b'
  | _, _ => false
  end.

(** [s.length] *)
Fixpoint string_length (s : string) : nat :=
  match s with
  | EmptyString => O
  | String _ s' => S (string_length s')
  end.

(** [s.startsWith(p)] *)
Fixpoint startsWith (p s : string) : bool :=
  match p, s with
  | EmptyString, _ => true
  | String a p', String b s' => if N.eqb a b then startsWith p' s' else false
  | String _ _, EmptyString => false
  end.

Arguments startsWith : simpl never.

(** [s.slice(n)] for [n >= 0] *)
Fixpoint slice (n : nat) (s : string) : string :=
  match n, s with
  | O, _ => s
  | S n', String _ s' => slice n' s'
  | S _, EmptyString => EmptyString
  end.

(** JavaScript truthiness of an optional boolean ([revokeAfter?: boolean]). *)
Definition truthy (b : option bool) : bool :=
  match b with Some true => true | _ => false end.

(** ** The serialized playback queue *)

(** A queue entry [{ url, revokeAfter, msgId }].  [oid] is the identity of
    the object literal: [enqueueAndPlay] allocates a new object on every
    call, so two entries with equal fields are still different objects. *)
Record item := Item {
  oid : nat;
  url : string;
  revokeAfter : option bool;
  msgId : option string
}.

(** What the browser knows of an [HTMLAudioElement]. *)
Inductive playback := Playing | Paused | Over.

(** An element built by [new Audio(next.url)] in [tryPlayNext], with the
    closure [onEnded] that was registered on it. *)
Record element := Audio {
  src : string;            (* the element's source, [next.url] *)
  status : playback;       (* [Playing] from [play()] until paused or over *)
  listening : bool;        (* [onEnded] still registered for 'ended'/'error' *)
  playPending : bool;      (* the promise of [play()] has not settled *)
  captured : item          (* the [next] captured by [onEnded] *)
}.

Record audio_state := AudioState {
  audioRef : option nat;           (* index of the element in [audios] *)
  isPlayingRef : bool;
  currentItemRef : option item;
  audioQueueRef : list item;
  playingMsgId : option string;
  audios : list element;             (* every element constructed so far *)
  revoked : list string;           (* calls of [URL.revokeObjectURL], oldest first *)
  next_oid : nat                   (* object identities handed out so far *)
}.

Definition audio_init : audio_state :=
  AudioState None false None [] None [] [] 0.

(** [URL.revokeObjectURL(u)] *)
Definition revokeObjectURL (u : string) (s : audio_state) : audio_state :=
  AudioState (audioRef s) (isPlayingRef s) (currentItemRef s) (audioQueueRef s)
             (playingMsgId s) (audios s) (revoked s ++ [u]) (next_oid s).

Definition set_audios (l : list element) (s : audio_state) : audio_state :=
  AudioState (audioRef s) (isPlayingRef s) (currentItemRef s) (audioQueueRef s)
             (playingMsgId s) l (revoked s) (next_oid s).

(** [el.pause()]: only a playing element changes. *)
Definition pause (el : element) : element :=
  match status el with
  | Playing => Audio (src el) Paused (listening el) (playPending el) (captured el)
  | _ => el
  end.

(** [el.removeEventListener('ended', onEnded); el.removeEventListener('error', onEnded)] *)
Definition removeListeners (el : element) : element :=
  Audio (src el) (status el) false (playPending el) (captured el).

(** The element stops by itself: it ended, failed, or never started. *)
Definition halt (el : element) : element :=
  Audio (src el) Over (listening el) (playPending el) (captured el).

Definition settlePlay (el : element) : element :=
  Audio (src el) (status el) (listening el) false (captured el).

(** The loop of [stopAllAudio] over the queued entries. *)
Fixpoint revokeQueued (q : list item) (s : audio_state) : audio_state :=
  match q with
  | [] => s
  | it :: q' =>
      revokeQueued q'
        (if truthy (revokeAfter it) && startsWith "blob:" (url it)
         then revokeObjectURL (url it) s else s)
  end.

(** [stopAllAudio] (lines 177-198). *)
Definition stopAllAudio (s : audio_state) : audio_state :=
  let s1 :=
    match audioRef s with
    | Some a =>
        match audios s !! a with
        | Some el =>
            let s' := set_audios (alter pause a (audios s)) s in
            if match currentItemRef s with
               | Some cur => truthy (revokeAfter cur)
               | None => false
               end && startsWith "blob:" (src el)
            then revokeObjectURL (src el) s' else s'
        | None => s
        end
    | None => s
    end in
  let s2 := AudioState None false None (audioQueueRef s1) None
                       (audios s1) (revoked s1) (next_oid s1) in
  let s3 := revokeQueued (audioQueueRef s2) s2 in
  AudioState (audioRef s3) (isPlayingRef s3) (currentItemRef s3) []
             (playingMsgId s3) (audios s3) (revoked s3) (next_oid s3).

(** [tryPlayNext] (lines 205-230), up to the registration of [onEnded] and
    the call of [play()]. *)
Definition tryPlayNext (s : audio_state) : audio_state :=
  if isPlayingRef s then s
  else match audioQueueRef s with
       | [] => s
       | next :: rest =>
           AudioState (Some (length (audios s))) true (Some next) rest
                      (msgId next)
                      (audios s ++ [Audio (url next) Playing true true next])
                      (revoked s) (next_oid s)
       end.

(** [onEnded] (lines 215-226), the closure registered on element [a] with
    its captured entry [next]. *)
Definition onEnded (a : nat) (next : item) (s : audio_state) : audio_state :=
  let s1 := set_audios (alter removeListeners a (audios s)) s in
  let s2 := if truthy (revokeAfter next) then revokeObjectURL (url next) s1 else s1 in
  tryPlayNext
    (AudioState (audioRef s2) false None (audioQueueRef s2) None
                (audios s2) (revoked s2) (next_oid s2)).

(** [enqueueAndPlay] (lines 232-235). *)
Definition enqueueAndPlay (u : string) (r : option bool) (m : option string)
    (s : audio_state) : audio_state :=
  tryPlayNext
    (AudioState (audioRef s) (isPlayingRef s) (currentItemRef s)
                (audioQueueRef s ++ [Item (next_oid s) u r m])
                (playingMsgId s) (audios s) (revoked s) (S (next_oid s))).

(** [playAudioUrl] (lines 238-241). *)
Definition playAudioUrl (u : string) (m : option string) (s : audio_state)
    : audio_state :=
  enqueueAndPlay u (Some false) m (stopAllAudio s).

(** The loop of the unmount cleanup over the queued entries (lines 251-255):
    no test of the URL here. *)
Fixpoint revokeOneShots (q : list item) (s : audio_state) : audio_state :=
  match q with
  | [] => s
  | it :: q' =>
      revokeOneShots q'
        (if truthy (revokeAfter it) then revokeObjectURL (url it) s else s)
  end.

(** The cleanup the component registers for its unmount (lines 243-260). *)
Definition cleanup (s : audio_state) : audio_state :=
  let s1 :=
    match audioRef s with
    | Some a => set_audios (alter pause a (audios s)) s
    | None => s
    end in
  let s2 := AudioState None (isPlayingRef s1) (currentItemRef s1)
                       (audioQueueRef s1) (playingMsgId s1)
                       (audios s1) (revoked s1) (next_oid s1) in
  let s3 := revokeOneShots (audioQueueRef s2) s2 in
  AudioState (audioRef s3) false (currentItemRef s3) []
             (playingMsgId s3) (audios s3) (revoked s3) (next_oid s3).

(** What can happen to the queue: the three operations, and what the
    browser reports about an element.  ['ended'] and ['error'] are
    dispatched to [onEnded] while it is registered; a rejected [play()]
    runs [onEnded] through [.catch(() => onEnded())], once, whatever is
    registered. *)
Inductive audio_event :=
| EnqueueAndPlay (u : string) (r : option bool) (m : option string)
| StopAllAudio
| PlayAudioUrl (u : string) (m : option string)
| MediaEnded (a : nat)
| MediaError (a : nat)
| PlayRejected (a : nat)
| PlayStarted (a : nat).

Definition dispatch (a : nat) (s : audio_state) : audio_state :=
  match audios s !! a with
  | Some el =>
      let s' := set_audios (alter halt a (audios s)) s in
      if listening el then onEnded a (captured el) s' else s'
  | None => s
  end.

Definition audio_step (s : audio_state) (e : audio_event) : audio_state :=
  match e with
  | EnqueueAndPlay u r m => enqueueAndPlay u r m s
  | StopAllAudio => stopAllAudio s
  | PlayAudioUrl u m => playAudioUrl u m s
  | MediaEnded a => dispatch a s
  | MediaError a => dispatch a s
  | PlayRejected a =>
      match audios s !! a with
      | Some el =>
          if playPending el
          then onEnded a (captured el)
                 (set_audios (alter (fun el => settlePlay (halt el)) a (audios s)) s)
          else s
      | None => s
      end
  | PlayStarted a =>
      match audios s !! a with
      | Some el =>
          if playPending el
          then set_audios (alter settlePlay a (audios s)) s
          else s
      | None => s
      end
  end.

Definition audio_run (s : audio_state) (tr : list audio_event) : audio_state :=
  fold_left audio_step tr s.

(** The elements that are audibly playing. *)
Definition is_playing (el : element) : bool :=
  match status el with Playing => true | _ => false end.

Definition playing (s : audio_state) : list element :=
  filter (fun el => is_playing el = true) (audios s).

(** How often [u] was handed to [URL.revokeObjectURL]. *)
Definition releases (u : string) (s : audio_state) : nat :=
  length (filter (fun v => v = u) (revoked s)).

(** ** Text utilities of the chat handlers *)

(** The code units [String.prototype.trim] removes, the white space and
    the line terminators of ECMAScript: TAB, LF, VT, FF, CR, SPACE, NBSP,
    U+1680, U+2000 to U+200A, U+2028, U+2029, U+202F, U+205F, U+3000 and
    U+FEFF. *)
Definition is_space (c : N) : bool :=
  existsb (N.eqb c)
    [0x9; 0xA; 0xB; 0xC; 0xD; 0x20; 0xA0; 0x1680;
     0x2000; 0x2001; 0x2002; 0x2003; 0x2004; 0x2005; 0x2006; 0x2007;
     0x2008; 0x2009; 0x200A; 0x2028; 0x2029; 0x202F; 0x205F; 0x3000;
     0xFEFF]%N.

Fixpoint trimStart (s : string) : string :=
  match s with
  | EmptyString => EmptyString
  | String c s' => if is_space c then trimStart s' else s
  end.

Fixpoint trimEnd (s : string) : string :=
  match s with
  | EmptyString => EmptyString
  | String c s' =>
      match trimEnd s' with
      | EmptyString => if is_space c then EmptyString else String c EmptyString
      | t => String c t
      end
  end.

(** [s.trim()] *)
Definition trim (s : string) : string := trimEnd (trimStart s).

(** A string that is empty or holds only white space. *)
Fixpoint blank (s : string) : bool :=
  match s with
  | EmptyString => true
  | String c s' => is_space c && blank s'
  end.

Definition newline : N := 10.

(** [s.split('\n')] *)
Fixpoint split_lines (s : string) : list string :=
  match s with
  | EmptyString => [EmptyString]
  | String c s' =>
      if N.eqb c newline then EmptyString :: split_lines s'
      else match split_lines s' with
           | h :: t => String c h :: t
           | [] => [String c EmptyString]
           end
  end.

(** ** JSON values, as the stream loop looks at them *)

(** A number is given by what the loop can observe of it: whether it is
    truthy and how it prints.  An object lists its own properties, each key
    once ([JSON.parse] keeps the last of repeated keys). *)
Inductive jsval :=
| JNull
| JBool (b : bool)
| JNum (nonzero : bool) (shown : string)
| JStr (s : string)
| JArr (l : list jsval)
| JObj (fields : list (string * jsval)).

Fixpoint assoc (k : string) (l : list (string * jsval)) : option jsval :=
  match l with
  | [] => None
  | (k', v) :: l' => if string_eqb k k' then Some v else assoc k l'
  end.

(** [evt.k]: [None] when the access throws (on [null]), [Some None] when the
    property is [undefined]. *)
Definition prop (k : string) (evt : jsval) : option (option jsval) :=
  match evt with
  | JNull => None
  | JObj fields => Some (assoc k fields)
  | _ => Some None
  end.

(** Truthiness of a property value. *)
Definition truthy_val (v : option jsval) : bool :=
  match v with
  | None | Some JNull => false
  | Some (JBool b) => b
  | Some (JNum nz _) => nz
  | Some (JStr s) => negb (string_eqb s "")
  | Some (JArr _) | Some (JObj _) => true
  end.

Definition join (sep : string) (l : list string) : string :=
  match l with
  | [] => ""
  | x :: l' => fold_left (fun acc y => acc +:+ sep +:+ y) l' x
  end.

(** The string [assistantText += v] appends, or [None] where the
    conversion throws a [TypeError].  It throws for an object with an own
    property [toString]: a parsed value is never callable, and it hides
    [Object.prototype.toString].  An array is joined with commas, [null]
    counting as the empty string, and throws if one of its elements does. *)
Fixpoint toString (v : jsval) : option string :=
  match v with
  | JNull => Some "null"
  | JBool true => Some "true"
  | JBool false => Some "false"
  | JNum _ shown => Some shown
  | JStr s => Some s
  | JArr l =>
      option_map (join ",")
        (fold_right
           (fun x acc =>
              match (match x with JNull => Some "" | _ => toString x end), acc with
              | Some t, Some ts => Some (t :: ts)
              | _, _ => None
              end)
           (Some []) l)
  | JObj fields =>
      match assoc "toString" fields with
      | Some _ => None
      | None => Some "[object Object]"
      end
  end.

(** [v === 'k'] *)
Definition is_str (k : string) (v : option jsval) : bool :=
  match v with
  | Some (JStr s) => string_eqb s k
  | _ => false
  end.

(** ** A JSON reader, to run the model on concrete streams

    The stream loop is stated for any [JSON.parse]; the reader below covers
    the fragment the server's events are written in (objects, arrays,
    strings without escapes, integers, [true], [false], [null]) and rejects
    everything else, as [JSON.parse] rejects text that is not JSON.  The
    code units it looks for: 34 is the double quote, 44 the comma, 45 the
    minus sign, 48 the digit zero, 58 the colon, 91 and 93 the square
    brackets, 92 the backslash, 123 and 125 the braces. *)

Definition dquote : N := 34.
Definition backslash : N := 92.

Definition is_json_space (c : N) : bool :=
  existsb (N.eqb c) [9; 10; 13; 32]%N.

Fixpoint skip_ws (s : string) : string :=
  match s with
  | EmptyString => EmptyString
  | String c s' => if is_json_space c then skip_ws s' else s
  end.

(** The text up to the closing quote, and what follows it. *)
Fixpoint read_string (s : string) : option (string * string) :=
  match s with
  | EmptyString => None
  | String c s' =>
      if N.eqb c dquote then Some (EmptyString, s')
      else if N.eqb c backslash then None
      else if N.ltb c 32 then None
      else match read_string s' with
           | Some (t, r) => Some (String c t, r)
           | None => None
           end
  end.

Definition is_digit (c : N) : bool :=
  N.leb 48 c && N.leb c 57.

Fixpoint read_digits (s : string) : string * string :=
  match s with
  | EmptyString => (EmptyString, EmptyString)
  | String c s' =>
      if is_digit c
      then let (d, r) := read_digits s' in (String c d, r)
      else (EmptyString, s)
  end.

Fixpoint all_zero (s : string) : bool :=
  match s with
  | EmptyString => true
  | String c s' => N.eqb c 48 && all_zero s'
  end.

(** An integer literal without superfluous leading zeros. *)
Definition read_number (s : string) : option (jsval * string) :=
  let (neg, body) :=
    match s with
    | String 45 s' => (true, s')
    | _ => (false, s)
    end in
  let (d, r) := read_digits body in
  match d with
  | EmptyString => None
  | String 48 (String _ _) => None
  | _ =>
      if all_zero d then Some (JNum false "0", r)
      else Some (JNum true (if neg then String 45 d else d), r)
  end.

Definition set_field (k : string) (v : jsval) (l : list (string * jsval))
    : list (string * jsval) :=
  filter (fun kv => negb (string_eqb (fst kv) k)) l ++ [(k, v)].

Fixpoint read_value (n : nat) (s : string) {struct n} : option (jsval * string) :=
  match n with
  | O => None
  | S n' =>
      match skip_ws s with
      | EmptyString => None
      | String c s' =>
          if N.eqb c dquote then
            match read_string s' with
            | Some (t, r) => Some (JStr t, r)
            | None => None
            end
          else if N.eqb c 123 then
            match skip_ws s' with
            | String 125 r => Some (JObj [], r)
            | _ => match read_members n' s' [] with
                   | Some (l, r) => Some (JObj l, r)
                   | None => None
                   end
            end
          else if N.eqb c 91 then
            match skip_ws s' with
            | String 93 r => Some (JArr [], r)
            | _ => match read_elements n' s' [] with
                   | Some (l, r) => Some (JArr l, r)
                   | None => None
                   end
            end
          else if startsWith "true" (String c s') then Some (JBool true, slice 4 (String c s'))
          else if startsWith "false" (String c s') then Some (JBool false, slice 5 (String c s'))
          else if startsWith "null" (String c s') then Some (JNull, slice 4 (String c s'))
          else read_number (String c s')
      end
  end
with read_members (n : nat) (s : string) (acc : list (string * jsval)) {struct n}
    : option (list (string * jsval) * string) :=
  match n with
  | O => None
  | S n' =>
      match skip_ws s with
      | String c s1 =>
          if N.eqb c dquote then
            match read_string s1 with
            | Some (k, s2) =>
                match skip_ws s2 with
                | String 58 s3 =>
                    match read_value n' s3 with
                    | Some (v, s4) =>
                        match skip_ws s4 with
                        | String 44 s5 => read_members n' s5 (set_field k v acc)
                        | String 125 s5 => Some (set_field k v acc, s5)
                        | _ => None
                        end
                    | None => None
                    end
                | _ => None
                end
            | None => None
            end
          else None
      | EmptyString => None
      end
  end
with read_elements (n : nat) (s : string) (acc : list jsval) {struct n}
    : option (list jsval * string) :=
  match n with
  | O => None
  | S n' =>
      match read_value n' s with
      | Some (v, s1) =>
          match skip_ws s1 with
          | String 44 s2 => read_elements n' s2 (acc ++ [v])
          | String 93 s2 => Some (acc ++ [v], s2)
          | _ => None
          end
      | None => None
      end
  end.

Definition parse_json (s : string) : option jsval :=
  match read_value (S (string_length s)) s with
  | Some (v, r) => match skip_ws r with EmptyString => Some v | _ => None end
  | None => None
  end.

(** Writing the events the server sends. *)
Definition quoted (s : string) : string :=
  String dquote s +:+ String dquote EmptyString.

Definition delta_line (t : string) : string :=
  "data: {" +:+ quoted "type" +:+ ": " +:+ quoted "delta" +:+ ", "
  +:+ quoted "text" +:+ ": " +:+ quoted t +:+ "}".

Definition end_line : string :=
  "data: {" +:+ quoted "type" +:+ ": " +:+ quoted "end" +:+ "}".

(** ** The state of the chat view *)

Inductive role := User | Assistant.

(** [interface Message] (lines 103-109). *)
Record Message := Msg {
  m_id : string;
  m_role : role;
  m_text : string;
  m_audioUrl : option string;
  m_createdAt : Z
}.

(** What [fetch] was given for a streamed reply; [req_body] is the object
    handed to [JSON.stringify]. *)
Record request := Request {
  req_url : string;
  req_method : string;
  req_headers : list (string * string);
  req_body : jsval
}.

(** Where a call of [onSendText] stands: suspended on [fetch], suspended on
    [reader.read()], or returned ([Closed true] through [break], [Closed
    false] through [catch]). *)
Inductive phase := AwaitingFetch | Reading | Closed (normally : bool).

(** One call of [onSendText] that went past its guard: its request, the
    locals [assistantMsg.id] and [assistantText], and its controller. *)
Record stream_session := Session {
  ss_request : request;
  ss_msg : string;
  ss_text : string;
  ss_aborted : bool;
  ss_phase : phase
}.

Record blob := Blob {
  blob_data : list Byte.byte;
  blob_type : string
}.

Inductive action := ActSend | ActCancel.

(** A [MediaRecorder] with the device stream it records. *)
Record recorder := Recorder {
  r_inactive : bool;        (* [mr.state === 'inactive'] *)
  r_stopPending : bool;     (* [stop()] was called, 'stop' not yet dispatched *)
  r_tracksLive : bool;      (* the tracks of [stream] are not stopped *)
  r_mimeType : string
}.

Inductive progress := OnFetch | OnBlob | Finished.

(** One call of [onSendVoice]: the blob it uploads, the ids of the two
    messages it appended, and the recorder whose [onstop] awaits it. *)
Record voice_task := Voice {
  v_blob : blob;
  v_user : string;
  v_asst : string;
  v_progress : progress;
  v_recorder : nat
}.

(** One call of [speakText]. *)
Record speak_task := Speak {
  sp_text : string;
  sp_msg : option string;
  sp_progress : progress
}.

Record state := State {
  messages : list Message;
  input : string;
  loading : bool;
  recording : bool;
  audio : audio_state;
  streamAbortRef : option nat;          (* index into [sessions] *)
  sessions : list stream_session;
  mediaRecorderRef : option nat;        (* index into [recorders] *)
  chunksRef : list blob;
  recordActionRef : action;
  recorders : list recorder;
  micPending : nat;                     (* calls of [getUserMedia] not yet settled *)
  voices : list voice_task;
  speaks : list speak_task;
  toasts : list string                  (* titles of the toasts shown *)
}.

Definition with_messages (v : list Message) (s : state) : state :=
  State v (input s) (loading s) (recording s) (audio s) (streamAbortRef s)
    (sessions s) (mediaRecorderRef s) (chunksRef s) (recordActionRef s)
    (recorders s) (micPending s) (voices s) (speaks s) (toasts s).

Definition with_input (v : string) (s : state) : state :=
  State (messages s) v (loading s) (recording s) (audio s) (streamAbortRef s)
    (sessions s) (mediaRecorderRef s) (chunksRef s) (recordActionRef s)
    (recorders s) (micPending s) (voices s) (speaks s) (toasts s).

Definition with_loading (v : bool) (s : state) : state :=
  State (messages s) (input s) v (recording s) (audio s) (streamAbortRef s)
    (sessions s) (mediaRecorderRef s) (chunksRef s) (recordActionRef s)
    (recorders s) (micPending s) (voices s) (speaks s) (toasts s).

Definition with_recording (v : bool) (s : state) : state :=
  State (messages s) (input s) (loading s) v (audio s) (streamAbortRef s)
    (sessions s) (mediaRecorderRef s) (chunksRef s) (recordActionRef s)
    (recorders s) (micPending s) (voices s) (speaks s) (toasts s).

Definition with_audio (v : audio_state) (s : state) : state :=
  State (messages s) (input s) (loading s) (recording s) v (streamAbortRef s)
    (sessions s) (mediaRecorderRef s) (chunksRef s) (recordActionRef s)
    (recorders s) (micPending s) (voices s) (speaks s) (toasts s).

Definition with_streamAbortRef (v : option nat) (s : state) : state :=
  State (messages s) (input s) (loading s) (recording s) (audio s) v
    (sessions s) (mediaRecorderRef s) (chunksRef s) (recordActionRef s)
    (recorders s) (micPending s) (voices s) (speaks s) (toasts s).

Definition with_sessions (v : list stream_session) (s : state) : state :=
  State (messages s) (input s) (loading s) (recording s) (audio s)
    (streamAbortRef s) v (mediaRecorderRef s) (chunksRef s) (recordActionRef s)
    (recorders s) (micPending s) (voices s) (speaks s) (toasts s).

Definition with_mediaRecorderRef (v : option nat) (s : state) : state :=
  State (messages s) (input s) (loading s) (recording s) (audio s)
    (streamAbortRef s) (sessions s) v (chunksRef s) (recordActionRef s)
    (recorders s) (micPending s) (voices s) (speaks s) (toasts s).

Definition with_chunksRef (v : list blob) (s : state) : state :=
  State (messages s) (input s) (loading s) (recording s) (audio s)
    (streamAbortRef s) (sessions s) (mediaRecorderRef s) v (recordActionRef s)
    (recorders s) (micPending s) (voices s) (speaks s) (toasts s).

Definition with_recordActionRef (v : action) (s : state) : state :=
  State (messages s) (input s) (loading s) (recording s) (audio s)
    (streamAbortRef s) (sessions s) (mediaRecorderRef s) (chunksRef s) v
    (recorders s) (micPending s) (voices s) (speaks s) (toasts s).

Definition with_recorders (v : list recorder) (s : state) : state :=
  State (messages s) (input s) (loading s) (recording s) (audio s)
    (streamAbortRef s) (sessions s) (mediaRecorderRef s) (chunksRef s)
    (recordActionRef s) v (micPending s) (voices s) (speaks s) (toasts s).

Definition with_micPending (v : nat) (s : state) : state :=
  State (messages s) (input s) (loading s) (recording s) (audio s)
    (streamAbortRef s) (sessions s) (mediaRecorderRef s) (chunksRef s)
    (recordActionRef s) (recorders s) v (voices s) (speaks s) (toasts s).

Definition with_voices (v : list voice_task) (s : state) : state :=
  State (messages s) (input s) (loading s) (recording s) (audio s)
    (streamAbortRef s) (sessions s) (mediaRecorderRef s) (chunksRef s)
    (recordActionRef s) (recorders s) (micPending s) v (speaks s) (toasts s).

Definition with_speaks (v : list speak_task) (s : state) : state :=
  State (messages s) (input s) (loading s) (recording s) (audio s)
    (streamAbortRef s) (sessions s) (mediaRecorderRef s) (chunksRef s)
    (recordActionRef s) (recorders s) (micPending s) (voices s) v (toasts s).

(** [toast({ status: 'error', title, ... })] *)
Definition toast (title : string) (s : state) : state :=
  State (messages s) (input s) (loading s) (recording s) (audio s)
    (streamAbortRef s) (sessions s) (mediaRecorderRef s) (chunksRef s)
    (recordActionRef s) (recorders s) (micPending s) (voices s) (speaks s)
    (toasts s ++ [title]).

(** The component as mounted at time [t0] (lines 112-135). *)
Definition welcome (t0 : Z) : Message :=
  Msg "welcome" Assistant
    "Hello! I'm your CCRIPTER assistant. I can help you with questions, conversations, and voice interactions. Ask me anything!"
    None t0.

Definition init (t0 : Z) : state :=
  State [welcome t0] "" false false audio_init None [] None [] ActSend [] 0 [] [] [].

(** [m.map(msg => msg.id === i ? { ...msg, text: t } : msg)] *)
Definition set_text (i t : string) (ms : list Message) : list Message :=
  map (fun msg =>
         if string_eqb (m_id msg) i
         then Msg (m_id msg) (m_role msg) t (m_audioUrl msg) (m_createdAt msg)
         else msg) ms.

(** [m.map(msg => msg.id === i ? { ...msg, audioUrl: u } : msg)] *)
Definition set_audioUrl (i u : string) (ms : list Message) : list Message :=
  map (fun msg =>
         if string_eqb (m_id msg) i
         then Msg (m_id msg) (m_role msg) (m_text msg) (Some u) (m_createdAt msg)
         else msg) ms.

(** The texts shown for the messages with id [i]. *)
Definition texts_of (i : string) (ms : list Message) : list string :=
  map m_text (filter (fun msg => m_id msg = i) ms).

(** ** The handlers of the chat view *)

(** What the handlers take from their environment: [JSON.parse] ([None]
    when it throws), and [API_BASE] of [lib/api.ts], which is
    [process.env.REACT_APP_API_BASE] when set and the built-in default
    otherwise. *)
Class Platform := {
  JSON_parse : string -> option jsval;
  API_BASE : string
}.

Definition webm_opus : string := "audio/webm;codecs=opus".

Section Model.

Context {platform : Platform}.

(** [endpoints] (lib/api.ts, lines 3-7). *)
Definition chatStream : string := API_BASE +:+ "/chat/stream".
Definition voiceChat (format : string) : string :=
  API_BASE +:+ "/voice-chat?format=" +:+ format.
Definition speak : string := API_BASE +:+ "/speak".

(** What one line of a chunk means to the read loop (lines 319-330). *)
Inductive sse := Delta (t : string) | EndOfStream | Ignored.

Definition classify (line : string) : sse :=
  if startsWith "data: " line then
    match JSON_parse (slice 6 line) with
    | Some evt =>
        match prop "type" evt, prop "text" evt with
        | Some ty, Some tx =>
            if is_str "delta" ty && truthy_val tx
            then match tx with
                 | Some v =>
                     match toString v with
                     | Some t => Delta t
                     | None => Ignored   (* [+=] throws, the inner catch swallows *)
                     end
                 | None => Ignored       (* [undefined] is not truthy *)
                 end
            else if is_str "end" ty then EndOfStream else Ignored
        | _, _ => Ignored
        end
    | None => Ignored
    end
  else Ignored.

(** [assistantText += evt.text; setMessages(...)] in the call [sid]. *)
Definition apply_delta (sid : nat) (t : string) (s : state) : state :=
  match sessions s !! sid with
  | Some ss =>
      let txt := ss_text ss +:+ t in
      with_messages (set_text (ss_msg ss) txt (messages s))
        (with_sessions
           (<[sid := Session (ss_request ss) (ss_msg ss) txt (ss_aborted ss) (ss_phase ss)]>
              (sessions s)) s)
  | None => s
  end.

Definition on_line (sid : nat) (s : state) (line : string) : state :=
  match classify line with
  | Delta t => apply_delta sid t s
  | EndOfStream => s
  | Ignored => s
  end.

(** The body of the [while] loop for one chunk (lines 316-331). *)
Definition on_chunk (sid : nat) (chunk : string) (s : state) : state :=
  fold_left (on_line sid) (split_lines chunk) s.

Definition set_phase (p : phase) (ss : stream_session) : stream_session :=
  Session (ss_request ss) (ss_msg ss) (ss_text ss) (ss_aborted ss) p.

(** The [finally] block of [onSendText] (lines 335-338), as the call [sid]
    returns. *)
Definition close (sid : nat) (normally : bool) (s : state) : state :=
  with_streamAbortRef None
    (with_loading false
       (with_sessions (alter (set_phase (Closed normally)) sid (sessions s)) s)).

(** The [catch] block, then [finally]. *)
Definition stream_fail (sid : nat) (s : state) : state :=
  close sid false (toast "Chat failed" s).

(** [break] out of the loop, then [finally]. *)
Definition stream_done (sid : nat) (s : state) : state :=
  close sid true s.

Definition abort (ss : stream_session) : stream_session :=
  Session (ss_request ss) (ss_msg ss) (ss_text ss) true (ss_phase ss).

(** [stopStreaming] (lines 200-203). *)
Definition stopStreaming (s : state) : state :=
  with_streamAbortRef None
    match streamAbortRef s with
    | Some sid => with_sessions (alter abort sid (sessions s)) s
    | None => s
    end.

Definition is_closed (p : phase) : bool :=
  match p with Closed _ => true | _ => false end.

(** Aborting a controller rejects the promise its call is suspended on
    ([fetch] or [reader.read()]) at once; the call resumes in its [catch]
    block as soon as the running handler returns. *)
Definition after_abort (victim : option nat) (s : state) : state :=
  match victim with
  | Some sid =>
      match sessions s !! sid with
      | Some ss =>
          if ss_aborted ss && negb (is_closed (ss_phase ss))
          then stream_fail sid s else s
      | None => s
      end
  | None => s
  end.

(** [onInputChange] (lines 341-346). *)
Definition onInputChange (v : string) (s : state) : state :=
  after_abort (streamAbortRef s)
    (stopStreaming (with_audio (stopAllAudio (audio s)) (with_input v s))).

(** [onSendText] (lines 284-308), up to [await fetch(...)].  [uid], [aid]
    are the results of the two calls of [crypto.randomUUID()], [now] the one
    of [Date.now()]. *)
Definition onSendText (uid aid : string) (now : Z) (s : state) : state :=
  let query := trim (input s) in
  if string_eqb query "" then s
  else
    let s1 := with_input "" s in
    let s2 := with_messages
                (messages s1 ++ [Msg uid User query None now;
                                 Msg aid Assistant "" None now]) s1 in
    let s3 := with_loading true s2 in
    let s4 := with_audio (stopAllAudio (audio s3)) s3 in
    let s5 := stopStreaming s4 in
    let s6 := with_streamAbortRef (Some (length (sessions s5))) s5 in
    after_abort (streamAbortRef s)
      (with_sessions
         (sessions s6 ++
          [Session (Request chatStream "POST"
                      [("Content-Type", "application/json")]
                      (JObj [("user_id", JStr "demo"); ("query", JStr query)]))
                   aid "" false AwaitingFetch]) s6).

(** [onToggleRecord] (lines 348-358), up to [await getUserMedia(...)]. *)
Definition onToggleRecord (s : state) : state :=
  if recording s then s
  else
    after_abort (streamAbortRef s)
      (with_micPending (S (micPending s))
         (stopStreaming (with_audio (stopAllAudio (audio s)) s))).

(** [onToggleRecord] (lines 359-380), from the answer of [getUserMedia]. *)
Definition onMicSettled (granted : bool) (s : state) : state :=
  match micPending s with
  | O => s
  | S n =>
      let s1 := with_micPending n s in
      if granted then
        with_recording true
          (with_recordActionRef ActSend
             (with_chunksRef []
                (with_mediaRecorderRef (Some (length (recorders s1)))
                   (with_recorders
                      (recorders s1 ++ [Recorder false false true webm_opus])
                      s1))))
      else toast "Mic error" s1
  end.

(** [mr.ondataavailable] (line 365); the browser delivers data until it has
    dispatched 'stop'. *)
Definition onDataAvailable (r : nat) (data : blob) (s : state) : state :=
  match recorders s !! r with
  | Some rc =>
      if negb (r_inactive rc) || r_stopPending rc then
        if (0 <? length (blob_data data))%nat
        then with_chunksRef (chunksRef s ++ [data]) s else s
      else s
  | None => s
  end.

(** [if (mediaRecorderRef.current && mediaRecorderRef.current.state !==
    'inactive') mediaRecorderRef.current.stop()] *)
Definition stop_current (s : state) : state :=
  match mediaRecorderRef s with
  | Some r =>
      match recorders s !! r with
      | Some rc =>
          if r_inactive rc then s
          else with_recorders
                 (<[r := Recorder true true (r_tracksLive rc) (r_mimeType rc)]> (recorders s)) s
      | None => s
      end
  | None => s
  end.

(** [cancelRecording] (lines 383-389) and [confirmRecording] (lines 391-397). *)
Definition cancelRecording (s : state) : state :=
  with_recording false (stop_current (with_recordActionRef ActCancel s)).

Definition confirmRecording (s : state) : state :=
  with_recording false (stop_current (with_recordActionRef ActSend s)).

(** [stream.getTracks().forEach(t => t.stop())] for the stream of recorder [r]. *)
Definition stop_tracks (r : nat) (s : state) : state :=
  with_recorders
    (alter (fun rc => Recorder (r_inactive rc) (r_stopPending rc) false (r_mimeType rc))
           r (recorders s)) s.

(** [onSendVoice] (lines 399-412), up to [await fetch(...)], called from the
    [onstop] of recorder [r]. *)
Definition onSendVoice (r : nat) (b : blob) (uid aid : string) (now : Z)
    (s : state) : state :=
  with_voices (voices s ++ [Voice b uid aid OnFetch r])
    (with_loading true
       (with_messages
          (messages s ++ [Msg uid User "(speaking...)" None now;
                          Msg aid Assistant "" None now]) s)).

(** [new Blob(parts, { type })] *)
Definition newBlob (parts : list blob) (type : string) : blob :=
  Blob (concat (map blob_data parts)) type.

(** [mr.onstop] (lines 366-374), up to [await onSendVoice(blob)]. *)
Definition onstop (r : nat) (uid aid : string) (now : Z) (s : state) : state :=
  match recorders s !! r with
  | Some rc =>
      if r_stopPending rc then
        let s0 := with_recorders
                    (<[r := Recorder (r_inactive rc) false (r_tracksLive rc) (r_mimeType rc)]>
                       (recorders s)) s in
        let b := newBlob (chunksRef s0)
                         (if string_eqb (r_mimeType rc) "" then "audio/webm"
                          else r_mimeType rc) in
        let act := recordActionRef s0 in
        let s1 := with_chunksRef [] s0 in
        match act with
        | ActSend => onSendVoice r b uid aid now s1
        | ActCancel => stop_tracks r s1
        end
      else s
  | None => s
  end.

Definition set_voice_progress (p : progress) (t : voice_task) : voice_task :=
  Voice (v_blob t) (v_user t) (v_asst t) p (v_recorder t).

(** [finally { setLoading(false) }] of [onSendVoice]; its caller [onstop]
    then resumes and stops the tracks (line 373). *)
Definition voice_return (v : nat) (t : voice_task) (s : state) : state :=
  stop_tracks (v_recorder t)
    (with_loading false
       (with_voices (alter (set_voice_progress Finished) v (voices s)) s)).

(** [res.headers.get('X-Transcript') || '(no transcript)'] *)
Definition transcript (hdr : option string) : string :=
  match hdr with
  | Some h => if string_eqb h "" then "(no transcript)" else h
  | None => "(no transcript)"
  end.

(** [onSendVoice] (lines 412-421), from the answer of [fetch]: [None] when
    it rejected, else [res.ok] and the header. *)
Definition onVoiceFetched (v : nat) (r : option (bool * option string))
    (s : state) : state :=
  match voices s !! v with
  | Some t =>
      match v_progress t with
      | OnFetch =>
          match r with
          | Some (true, hdr) =>
              with_messages (set_text (v_user t) (transcript hdr) (messages s))
                (with_voices (alter (set_voice_progress OnBlob) v (voices s)) s)
          | _ => voice_return v t (toast "Voice chat failed" s)
          end
      | _ => s
      end
  | None => s
  end.

(** [onSendVoice] (lines 421-430), from the answer of [res.blob()]: the
    object URL made of it, or [None] when it rejected. *)
Definition onVoiceBlob (v : nat) (r : option string) (s : state) : state :=
  match voices s !! v with
  | Some t =>
      match v_progress t with
      | OnBlob =>
          match r with
          | Some u =>
              voice_return v t
                (with_audio (enqueueAndPlay u (Some false) None (audio s))
                   (with_messages (set_audioUrl (v_asst t) u (messages s)) s))
          | None => voice_return v t (toast "Voice chat failed" s)
          end
      | _ => s
      end
  | None => s
  end.

Definition set_speak_progress (p : progress) (t : speak_task) : speak_task :=
  Speak (sp_text t) (sp_msg t) p.

(** [speakText] (lines 266-282), in its three stretches. *)
Definition speakText (text : string) (m : option string) (s : state) : state :=
  with_speaks (speaks s ++ [Speak text m OnFetch])
    (with_audio (stopAllAudio (audio s)) s).

Definition onSpeakFetched (k : nat) (r : option bool) (s : state) : state :=
  match speaks s !! k with
  | Some t =>
      match sp_progress t with
      | OnFetch =>
          match r with
          | Some true => with_speaks (alter (set_speak_progress OnBlob) k (speaks s)) s
          | _ => toast "Speak failed"
                   (with_speaks (alter (set_speak_progress Finished) k (speaks s)) s)
          end
      | _ => s
      end
  | None => s
  end.

Definition onSpeakBlob (k : nat) (r : option string) (s : state) : state :=
  match speaks s !! k with
  | Some t =>
      match sp_progress t with
      | OnBlob =>
          let s1 := with_speaks (alter (set_speak_progress Finished) k (speaks s)) s in
          match r with
          | Some u => with_audio (enqueueAndPlay u (Some true) (sp_msg t) (audio s1)) s1
          | None => toast "Speak failed" s1
          end
      | _ => s
      end
  | None => s
  end.

(** [onSendText] (lines 307-309), from the answer of [fetch]: [None] when
    it rejected, else [res.ok] and whether [res.body] is there. *)
Definition onFetchSettled (sid : nat) (r : option (bool * bool)) (s : state)
    : state :=
  match sessions s !! sid with
  | Some ss =>
      match ss_phase ss with
      | AwaitingFetch =>
          match r with
          | Some (true, true) =>
              with_sessions (alter (set_phase Reading) sid (sessions s)) s
          | _ => stream_fail sid s
          end
      | _ => s
      end
  | None => s
  end.

(** What [await reader.read()] resumes with; a chunk is given as the text
    [decoder.decode(value, { stream: true })] makes of it. *)
Inductive read_result := Chunk (text : string) | Done | Failed.

(** One turn of the read loop (lines 313-332). *)
Definition onRead (sid : nat) (r : read_result) (s : state) : state :=
  match sessions s !! sid with
  | Some ss =>
      match ss_phase ss with
      | Reading =>
          match r with
          | Chunk c => on_chunk sid c s
          | Done => stream_done sid s
          | Failed => stream_fail sid s
          end
      | _ => s
      end
  | None => s
  end.

(** Everything that can happen to the mounted component: the user's
    actions, and the answers of the network, the recorder and the audio
    elements. *)
Inductive event :=
| InputChange (v : string)
| SendText (uid aid : string) (now : Z)
| FetchSettled (sid : nat) (r : option (bool * bool))
| ReadSettled (sid : nat) (r : read_result)
| ToggleRecord
| MicSettled (granted : bool)
| DataAvailable (r : nat) (data : blob)
| CancelRecording
| ConfirmRecording
| RecorderStopped (r : nat) (uid aid : string) (now : Z)
| VoiceFetched (v : nat) (r : option (bool * option string))
| VoiceBlob (v : nat) (r : option string)
| SpeakText (text : string) (m : option string)
| SpeakFetched (k : nat) (r : option bool)
| SpeakBlob (k : nat) (r : option string)
| AudioEvent (e : audio_event).

Definition step (s : state) (e : event) : state :=
  match e with
  | InputChange v => onInputChange v s
  | SendText uid aid now => onSendText uid aid now s
  | FetchSettled sid r => onFetchSettled sid r s
  | ReadSettled sid r => onRead sid r s
  | ToggleRecord => onToggleRecord s
  | MicSettled granted => onMicSettled granted s
  | DataAvailable r data => onDataAvailable r data s
  | CancelRecording => cancelRecording s
  | ConfirmRecording => confirmRecording s
  | RecorderStopped r uid aid now => onstop r uid aid now s
  | VoiceFetched v r => onVoiceFetched v r s
  | VoiceBlob v r => onVoiceBlob v r s
  | SpeakText text m => speakText text m s
  | SpeakFetched k r => onSpeakFetched k r s
  | SpeakBlob k r => onSpeakBlob k r s
  | AudioEvent e => with_audio (audio_step (audio s) e) s
  end.

Definition run (s : state) (tr : list event) : state := fold_left step tr s.

(** ** Vocabulary of the properties *)

(** The URLs the loop of [stopAllAudio] releases. *)
Definition queued_releases (q : list item) : list string :=
  map url (filter (fun it => truthy (revokeAfter it) && startsWith "blob:" (url it) = true) q).

(** The URL [stopAllAudio] releases for the element it pauses. *)
Definition current_release (s : audio_state) : list string :=
  match audioRef s with
  | Some a =>
      match audios s !! a, currentItemRef s with
      | Some el, Some cur =>
          if truthy (revokeAfter cur) && startsWith "blob:" (src el)
          then [src el] else []
      | _, _ => []
      end
  | None => []
  end.

(** The entries the queue still owns: the current one, then the queued. *)
Definition pending (s : audio_state) : list item :=
  match currentItemRef s with Some it => [it] | None => [] end ++ audioQueueRef s.

(** [isPlayingRef] is set exactly when there is a current entry, and the
    entries owned are different objects. *)
Definition queue_inv (s : audio_state) : Prop :=
  (isPlayingRef s = true <-> is_Some (currentItemRef s)) /\
  NoDup (map oid (pending s)) /\
  Forall (fun it => oid it < next_oid s) (pending s).

(** A callback is timely when its element is the one [audioRef] holds and
    [isPlayingRef] is set; a run is timely when all its callbacks are. *)
Definition timely (s : audio_state) (e : audio_event) : Prop :=
  match e with
  | MediaEnded a | MediaError a | PlayRejected a =>
      audioRef s = Some a /\ isPlayingRef s = true
  | _ => True
  end.

Fixpoint timely_run (s : audio_state) (tr : list audio_event) : Prop :=
  match tr with
  | [] => True
  | e :: tr' => timely s e /\ timely_run (audio_step s e) tr'
  end.

(** Only the element [audioRef] points to can be playing, and only while
    [isPlayingRef] is set. *)
Definition solo (s : audio_state) : Prop :=
  forall a el, audios s !! a = Some el -> status el = Playing ->
               audioRef s = Some a /\ isPlayingRef s = true.

(** No element is playing. *)
Definition silent (s : audio_state) : Prop :=
  forall a el, audios s !! a = Some el -> status el <> Playing.

(** The URLs a trace hands to the queue, oldest first, each with whether
    its entry is one-shot ([revokeAfter] truthy). *)
Definition handed (e : audio_event) : list (string * bool) :=
  match e with
  | EnqueueAndPlay u r _ => [(u, truthy r)]
  | PlayAudioUrl u _ => [(u, false)]
  | _ => []
  end.

Definition enqueued (tr : list audio_event) : list (string * bool) :=
  flat_map handed tr.

(** How the callers use one-shot entries: the URL is an object URL made
    for this entry ([URL.createObjectURL] never returns the same URL
    twice), so no other entry carries it. *)
Definition one_shot_ok (E : list (string * bool)) : Prop :=
  (forall u, (u, true) ∈ E -> startsWith "blob:" u = true) /\
  (forall i j u b, E !! i = Some (u, true) -> E !! j = Some (u, b) -> i = j).

(** How many entries for [u] are current or queued. *)
Definition waiting (u : string) (s : audio_state) : nat :=
  length (filter (fun it => url it = u) (pending s)).

(** While [isPlayingRef] is set, [audioRef] is the element built for the
    current entry, with [onEnded] registered. *)
Definition linked (s : audio_state) : Prop :=
  isPlayingRef s = true ->
  exists a el cur,
    audioRef s = Some a /\ audios s !! a = Some el /\
    currentItemRef s = Some cur /\
    src el = url cur /\ captured el = cur /\ listening el = true.

(** The account of the releases against the entries handed in, [E]. *)
Definition ledger (E : list (string * bool)) (s : audio_state) : Prop :=
  linked s /\
  (forall it, it ∈ pending s -> (url it, truthy (revokeAfter it)) ∈ E) /\
  (forall u, u ∈ revoked s -> (u, true) ∈ E) /\
  (forall u, (u, true) ∈ E -> releases u s + waiting u s = 1).

(** The request [onSendText] hands to [fetch] for the query [q]. *)
Definition stream_request (q : string) : request :=
  Request (API_BASE +:+ "/chat/stream") "POST"
          [("Content-Type", "application/json")]
          (JObj [("user_id", JStr "demo"); ("query", JStr q)]).

(** The text fragments of the delta events among [lines], in order. *)
Definition delta_texts (lines : list string) : list string :=
  flat_map (fun line => match classify line with Delta t => [t] | _ => [] end) lines.

Definition concat_text (l : list string) : string :=
  fold_right append "" l.

(** A sequence of chunks read by the call [sid]. *)
Definition chunks (sid : nat) (cs : list string) : list event :=
  map (fun c => ReadSettled sid (Chunk c)) cs.

(** Two records of the same call that differ at most in the abort flag. *)
Definition same_reply (ss ss' : stream_session) : Prop :=
  ss_request ss' = ss_request ss /\ ss_msg ss' = ss_msg ss /\
  ss_text ss' = ss_text ss /\ ss_phase ss' = ss_phase ss.

(** The events that belong to the recorder, to voice and speech requests
    and to the audio elements leave the calls of [onSendText] alone. *)
Definition stream_neutral (e : event) : bool :=
  match e with
  | InputChange _ | SendText _ _ _ | FetchSettled _ _ | ReadSettled _ _
  | ToggleRecord => false
  | _ => true
  end.

(** The ids in the message list. *)
Definition ids (s : state) : list string := m_id <$> messages s.

Definition voice_ids (v : voice_task) : list string := [v_user v; v_asst v].

(** The ids of the messages some call of [onSendText] or [onSendVoice]
    writes to. *)
Definition targets (s : state) : list string :=
  (ss_msg <$> sessions s) ++ concat (voice_ids <$> voices s).

(** Every call writes to a message of its own, which is in the list. *)
Definition wf (s : state) : Prop :=
  NoDup (targets s) /\ forall i, i ∈ targets s -> i ∈ ids s.

(** The two ids [crypto.randomUUID()] returns to a handler are different
    from each other and from the ids in the list; a run is fresh when this
    holds at each of its events. *)
Definition fresh (s : state) (e : event) : Prop :=
  match e with
  | SendText u a _ | RecorderStopped _ u a _ =>
      u <> a /\ (u ∉ ids s) /\ (a ∉ ids s)
  | _ => True
  end.

Fixpoint fresh_run (s : state) (tr : list event) : Prop :=
  match tr with
  | [] => True
  | e :: tr' => fresh s e /\ fresh_run (step s e) tr'
  end.

(** The messages an event appends, and the targets it adds. *)
Definition sends (s : state) (e : event) : list string :=
  match e with
  | SendText u a _ => if string_eqb (trim (input s)) "" then [] else [u; a]
  | RecorderStopped r u a _ =>
      match recorders s !! r with
      | Some rc =>
          if r_stopPending rc
          then match recordActionRef s with ActSend => [u; a] | ActCancel => [] end
          else []
      | None => []
      end
  | _ => []
  end.

Definition new_reply (s : state) (e : event) : list string :=
  match e with
  | SendText _ a _ => if string_eqb (trim (input s)) "" then [] else [a]
  | _ => []
  end.

Definition new_voice (s : state) (e : event) : list string :=
  match e with
  | RecorderStopped _ _ _ _ => sends s e
  | _ => []
  end.

(** The user actions that call [stopAllAudio] and [stopStreaming]: an edit
    of the input, a send that passes its guard, and a click on the
    microphone while no recording is shown. *)
Definition interrupts (s : state) (e : event) : bool :=
  match e with
  | InputChange _ => true
  | SendText _ _ _ => negb (string_eqb (trim (input s)) "")
  | ToggleRecord => negb (recording s)
  | _ => false
  end.

(** A call that has not returned is the one [streamAbortRef] holds, and
    while the input holds text to send no call is running: typing aborted
    whatever was. *)
Definition stream_inv (s : state) : Prop :=
  (forall k ss, sessions s !! k = Some ss -> is_closed (ss_phase ss) = false ->
                streamAbortRef s = Some k) /\
  (trim (input s) <> "" ->
   forall k ss, sessions s !! k = Some ss -> is_closed (ss_phase ss) = true).

(** The refs and React state of the recorder. *)
Definition rec_part (s : state)
    : option nat * list blob * action * list recorder * list voice_task * bool :=
  (mediaRecorderRef s, chunksRef s, recordActionRef s, recorders s, voices s,
   recording s).

(** What may happen during the session of recorder [r] without disturbing
    it: anything but another recorder starting, data of another recorder,
    a second cancel or confirm, and a stop callback. *)
Definition quiet (r : nat) (e : event) : bool :=
  match e with
  | DataAvailable r' _ => Nat.eqb r' r
  | MicSettled granted => negb granted
  | CancelRecording | ConfirmRecording | RecorderStopped _ _ _ _ => false
  | _ => true
  end.

(** The data recorder [r] delivered during [tr], in order. *)
Definition captured_by (r : nat) (tr : list event) : list blob :=
  flat_map (fun e => match e with
                     | DataAvailable r' d => if Nat.eqb r' r then [d] else []
                     | _ => []
                     end) tr.

Definition nonempty (b : blob) : Prop := 0 < length (blob_data b).

(** No call of [onSendVoice] is waiting on behalf of recorder [r]. *)
Definition unowned (r : nat) (s : state) : Prop :=
  forall v t, voices s !! v = Some t -> v_recorder t <> r.

(** The calls of [onSendVoice] were made on behalf of recorders that exist. *)
Definition owned_recorders (s : state) : Prop :=
  forall v t, voices s !! v = Some t -> v_recorder t < length (recorders s).

(** ** More vocabulary *)

(** [playingMsgId] is the message of the current entry, and [audioRef] the
    element built for it. *)
Definition attached (s : audio_state) : Prop :=
  match currentItemRef s with
  | Some cur =>
      playingMsgId s = msgId cur /\
      exists a el, audioRef s = Some a /\ audios s !! a = Some el /\
                   src el = url cur /\ captured el = cur
  | None => playingMsgId s = None
  end.

(** The entries for which an element was built, oldest first. *)
Definition started (s : audio_state) : list item := map captured (audios s).

Definition stops (e : audio_event) : bool :=
  match e with
  | StopAllAudio | PlayAudioUrl _ _ => true
  | _ => false
  end.

(** Where every URL released comes from an entry handed in as one-shot. *)
Definition accounted (E : list (string * bool)) (s : audio_state) : Prop :=
  attached s /\
  (forall it, it ∈ pending s -> (url it, truthy (revokeAfter it)) ∈ E) /\
  (forall el, el ∈ audios s ->
     src el = url (captured el) /\
     (url (captured el), truthy (revokeAfter (captured el))) ∈ E) /\
  (forall u, u ∈ revoked s -> (u, true) ∈ E).

(** What an entry shows of itself: its URL, and whether it is one-shot. *)
Definition entry_of (it : item) : string * bool := (url it, truthy (revokeAfter it)).

(** The entries for which an element was built, then those still queued. *)
Definition lineup (s : audio_state) : list (string * bool) :=
  map entry_of (started s ++ audioQueueRef s).

(** ** What is rendered, and more vocabulary of the component *)

(** [m.text && m.text.trim().length > 0] (lines 495, 511) *)
Definition has_text (m : Message) : bool :=
  negb (string_eqb (m_text m) "") &&
  (0 <? string_length (trim (m_text m)))%nat.

(** Truthiness of [m.audioUrl]. *)
Definition truthy_str (o : option string) : bool :=
  match o with Some u => negb (string_eqb u "") | None => false end.

Inductive control := NoControl | PauseButton | PlayButton.

(** The button under a message (lines 510-537), given [playingMsgId]. *)
Definition control_of (playing : option string) (m : Message) : control :=
  match m_role m with
  | Assistant =>
      if truthy_str (m_audioUrl m) || has_text m then
        if match playing with
           | Some i => string_eqb i (m_id m)
           | None => false
           end
        then PauseButton else PlayButton
      else NoControl
  | User => NoControl
  end.

(** [onClick] of the play button (lines 527-533): the handler it calls. *)
Definition onPlayClick (m : Message) : option event :=
  match m_audioUrl m with
  | Some u =>
      if negb (string_eqb u "")
      then Some (AudioEvent (PlayAudioUrl u (Some (m_id m))))
      else if negb (string_eqb (m_text m) "")
      then Some (SpeakText (m_text m) (Some (m_id m))) else None
  | None =>
      if negb (string_eqb (m_text m) "")
      then Some (SpeakText (m_text m) (Some (m_id m))) else None
  end.

(** A click on the button under [m], if there is one. *)
Definition click (s : state) (m : Message) : option event :=
  match control_of (playingMsgId (audio s)) m with
  | PauseButton => Some (AudioEvent StopAllAudio)
  | PlayButton => onPlayClick m
  | NoControl => None
  end.

(** [isDisabled={!input.trim()}] of the send button (line 675). *)
Definition sendDisabled (s : state) : bool := string_eqb (trim (input s)) "".

#[global] Instance control_eq_dec : EqDecision control.
Proof. solve_decision. Defined.

(** What never changes of a message: its id, its role and its time. *)
Definition frame_of (m : Message) : string * role * Z :=
  (m_id m, m_role m, m_createdAt m).

(** The events of a conversation by text: no recording is sent. *)
Definition text_only (e : event) : bool :=
  match e with
  | RecorderStopped _ _ _ _ | VoiceFetched _ _ | VoiceBlob _ _ => false
  | _ => true
  end.

(** A call of [onSendText] has not returned. *)
Definition streaming (s : state) : Prop :=
  exists k ss, sessions s !! k = Some ss /\ is_closed (ss_phase ss) = false.


(** What a handler does to the playback queue, as calls of its
    operations. *)
Definition audio_ops (s : state) (e : event) : list audio_event :=
  match e with
  | InputChange _ | SpeakText _ _ => [StopAllAudio]
  | SendText _ _ _ =>
      if string_eqb (trim (input s)) "" then [] else [StopAllAudio]
  | ToggleRecord => if recording s then [] else [StopAllAudio]
  | VoiceBlob v (Some u) =>
      match voices s !! v with
      | Some t =>
          match v_progress t with
          | OnBlob => [EnqueueAndPlay u (Some false) None]
          | _ => []
          end
      | None => []
      end
  | SpeakBlob k (Some u) =>
      match speaks s !! k with
      | Some t =>
          match sp_progress t with
          | OnBlob => [EnqueueAndPlay u (Some true) (sp_msg t)]
          | _ => []
          end
      | None => []
      end
  | AudioEvent e => [e]
  | _ => []
  end.

Fixpoint audio_log (s : state) (tr : list event) : list audio_event :=
  match tr with
  | [] => []
  | e :: tr' => audio_ops s e ++ audio_log (step s e) tr'
  end.

(** [enqueueAndPlay] is not called from the page: only handlers call it. *)
Definition from_page (e : event) : bool :=
  match e with
  | AudioEvent (EnqueueAndPlay _ _ _) => false
  | _ => true
  end.

(** The microphone is asked for, or a recording is shown. *)
Definition mic_busy (s : state) : bool := (0 <? micPending s)%nat || recording s.

(** A question is not sent while the microphone is asked for or a
    recording is shown. *)
Definition apart (s : state) (e : event) : bool :=
  match e with
  | SendText _ _ _ => string_eqb (trim (input s)) "" || negb (mic_busy s)
  | _ => true
  end.

Fixpoint apart_run (s : state) (tr : list event) : Prop :=
  match tr with
  | [] => True
  | e :: tr' => apart s e = true /\ apart_run (step s e) tr'
  end.

(** The request for the microphone and the recording bar. *)
Definition mic_part (s : state) : nat * bool := (micPending s, recording s).

End Model.

(** ** Proof automation *)

(** Reading a field of an updated state. *)
Ltac fields :=
  cbn [messages input loading recording audio streamAbortRef sessions
       mediaRecorderRef chunksRef recordActionRef recorders micPending voices
       speaks toasts with_messages with_input with_loading with_recording
       with_audio with_streamAbortRef with_sessions with_mediaRecorderRef
       with_chunksRef with_recordActionRef with_recorders with_micPending
       with_voices with_speaks toast] in *.

Ltac split_matches :=
  repeat match goal with
         | |- context [match ?x with _ => _ end] => destruct x eqn:?
         end.

(** ** Concrete runs *)

(** A platform to run the model on: the JSON reader above, and the
    development server as [API_BASE]. *)
Definition demo : Platform :=
  {| JSON_parse := parse_json; API_BASE := "http://127.0.0.1:8000" |}.

(** A one-shot item that fails to load, or is stopped before it starts. *)
Definition load_failure : list audio_event :=
  [EnqueueAndPlay "blob:a" (Some true) (Some "m1"); MediaError 0; PlayRejected 0].

Definition stopped_early : list audio_event :=
  [EnqueueAndPlay "blob:a" (Some true) (Some "m1"); StopAllAudio; PlayRejected 0].

(** Three replies in a row, the first of which fails to load. *)
Definition failing_head : list audio_event :=
  [EnqueueAndPlay "blob:a" None None;
   EnqueueAndPlay "blob:b" None None;
   EnqueueAndPlay "blob:c" None None;
   MediaError 0; PlayRejected 0].

(** An item is stopped before it started; two more are enqueued. *)
Definition before_late_callback : list audio_event :=
  [EnqueueAndPlay "blob:a" (Some true) (Some "m1");
   StopAllAudio;
   EnqueueAndPlay "blob:b" None (Some "m2");
   EnqueueAndPlay "blob:c" None (Some "m3")].

(** A one-shot item is replaced, before it started, by the replay of a
    message: [stopAllAudio] and [enqueueAndPlay] in one handler. *)
Definition replaced_early : list audio_event :=
  [EnqueueAndPlay "blob:a" (Some true) (Some "m1");
   PlayAudioUrl "blob:b" (Some "m2")].

(** A question is sent and the reply starts to stream. *)
Definition asking : list event :=
  [InputChange "hi"; SendText "u1" "a1" 1; FetchSettled 0 (Some (true, true))].

(** White space that is not ASCII: U+3000, U+00A0, U+FEFF and U+2028,
    followed by a tab and a space. *)
Definition wide_blank : string :=
  String 0x3000 (String 0xA0 (String 0xFEFF (String 0x2028 (String 0x9 " ")))).

(** A chunk with three complete events: two deltas and the end event. *)
Definition hello_chunk : string :=
  delta_line "Hel" +:+ String newline
    (delta_line "lo" +:+ String newline (end_line +:+ String newline "")).

(** A delta event whose [text] is the JSON text [v]. *)
Definition delta_of (v : string) : string :=
  "data: {" +:+ quoted "type" +:+ ": " +:+ quoted "delta" +:+ ", "
  +:+ quoted "text" +:+ ": " +:+ v +:+ "}".

(** A chunk as a bad proxy might deliver it: an event cut in two, a
    comment line, text that is not JSON, and one delta. *)
Definition noisy_chunk : string :=
  "data: {" +:+ String newline
    (": keep-alive" +:+ String newline
       ("data: not json" +:+ String newline (delta_line "!"))).

Definition byte1 : blob := Blob [Byte.x01] "".
Definition byte2 : blob := Blob [Byte.x02] "".
Definition byte3 : blob := Blob [Byte.x03] "".
Definition no_bytes : blob := Blob [] "".

(** The microphone is asked for; while the request is pending a question
    is typed and sent; then the microphone is granted. *)
Definition send_while_asking_for_mic : list event :=
  [ToggleRecord; InputChange "hi"; SendText "u1" "a1" 1;
   FetchSettled 0 (Some (true, true)); MicSettled true].

(** A recording of three chunks, confirmed. *)
Definition confirmed_recording : list event :=
  [ToggleRecord; MicSettled true; DataAvailable 0 byte1; DataAvailable 0 byte2;
   ConfirmRecording; DataAvailable 0 byte3; RecorderStopped 0 "u1" "a1" 1].

(** A spoken reply and a voice reply, each played to its end, then a
    second spoken reply that is still playing. *)
Definition replies_in_turn : list audio_event :=
  [EnqueueAndPlay "blob:a" (Some true) (Some "m1");
   EnqueueAndPlay "blob:v" (Some false) None;
   PlayStarted 0; MediaEnded 0; PlayStarted 1; MediaEnded 1;
   EnqueueAndPlay "blob:b" (Some true) (Some "m2"); PlayStarted 2].

(** The same, with a third spoken reply waiting in the queue. *)
Definition replies_waiting : list audio_event :=
  replies_in_turn ++ [EnqueueAndPlay "blob:c" (Some true) (Some "m3")].

(** A reply with stored audio, as a voice request leaves it. *)
Definition voice_reply : Message := Msg "a1" Assistant "" (Some "blob:v") 1.


(** A confirmed recording whose reply arrives. *)
Definition voice_round_trip : list event :=
  confirmed_recording ++
  [VoiceFetched 0 (Some (true, Some "hello")); VoiceBlob 0 (Some "blob:v")].

(** The welcome message is sent to be spoken, and the request is answered. *)
Definition speech_on_its_way : list event :=
  [SpeakText "hello" (Some "welcome"); SpeakFetched 0 (Some true)].

(** ** Strings *)

Lemma string_eqb_eq (a b : string) : string_eqb a b = true <-> a = b.
Proof.
  revert b. induction a as [|c a IH]; intros [|d b]; cbn; try (split; congruence).
  rewrite andb_true_iff, N.eqb_eq, IH. split; [intros [-> ->]|intros [= -> ->]]; done.
Qed.

Lemma string_eqb_refl (a : string) : string_eqb a a = true.
Proof. by apply string_eqb_eq. Qed.

Lemma string_eqb_neq (a b : string) : string_eqb a b = false <-> a <> b.
Proof.
  rewrite <- string_eqb_eq. destruct (string_eqb a b); split; congruence.
Qed.

(** [startsWith] and [slice] cut a prefix off. *)
Lemma startsWith_spec (p s : string) :
  startsWith p s = true <-> exists r, s = p +:+ r.
Proof.
  revert s. induction p as [|a p IH]; intros s.
  - split; [intros _; by exists s | done].
  - destruct s as [|b s].
    + split; [done | intros [r H]; discriminate H].
    + change (startsWith (String a p) (String b s))
        with (if N.eqb a b then startsWith p s else false).
      destruct (N.eqb_spec a b) as [->|Hne].
      * rewrite IH. split; intros [r H]; exists r.
        -- by rewrite H.
        -- by injection H.
      * split; [done | intros [r H]; injection H; congruence].
Qed.

Lemma slice_append (p r : string) : slice (string_length p) (p +:+ r) = r.
Proof. induction p as [|a p IH]; [by destruct r | exact IH]. Qed.

(** * Properties of the playback queue *)

(** ** What the operations do to the refs *)

Lemma alter_absent {A} (f : A -> A) (l : list A) (i : nat) :
  l !! i = None -> alter f i l = l.
Proof.
  intros H. apply list_eq. intros j. rewrite list_lookup_alter.
  case_decide; subst; [by rewrite H | done].
Qed.

Lemma revokeQueued_refs q s :
  audioRef (revokeQueued q s) = audioRef s /\
  isPlayingRef (revokeQueued q s) = isPlayingRef s /\
  currentItemRef (revokeQueued q s) = currentItemRef s /\
  audioQueueRef (revokeQueued q s) = audioQueueRef s /\
  playingMsgId (revokeQueued q s) = playingMsgId s /\
  audios (revokeQueued q s) = audios s /\
  next_oid (revokeQueued q s) = next_oid s.
Proof.
  revert s. induction q as [|it q IH]; intros s; simpl; [tauto|].
  match goal with |- context [revokeQueued q ?s'] =>
    destruct (IH s') as (-> & -> & -> & -> & -> & -> & ->) end.
  destruct (truthy (revokeAfter it) && startsWith "blob:" (url it)); simpl; tauto.
Qed.

Lemma revokeQueued_revoked q s :
  revoked (revokeQueued q s) = revoked s ++ queued_releases q.
Proof.
  revert s. induction q as [|it q IH]; intros s; simpl.
  - unfold queued_releases. simpl. by rewrite app_nil_r.
  - rewrite IH. unfold queued_releases.
    destruct (truthy (revokeAfter it) && startsWith "blob:" (url it)) eqn:E.
    + rewrite filter_cons_True by done. simpl. by rewrite <- app_assoc.
    + rewrite filter_cons_False by (rewrite E; done). done.
Qed.

Lemma stopAllAudio_spec s :
  stopAllAudio s =
  AudioState None false None [] None
    (match audioRef s with
     | Some a => alter pause a (audios s)
     | None => audios s
     end)
    (revoked s ++ current_release s ++ queued_releases (audioQueueRef s))
    (next_oid s).
Proof.
  unfold stopAllAudio, current_release.
  destruct s as [ar ip cur q pm els rv n]; simpl.
  destruct ar as [a|]; simpl.
  - destruct (els !! a) as [el|] eqn:Ha; simpl.
    + destruct cur as [c|]; simpl.
      * destruct (truthy (revokeAfter c) && startsWith "blob:" (src el)); simpl;
          match goal with |- context [revokeQueued ?q ?s] =>
            pose proof (revokeQueued_refs q s) as (?&?&?&?&?&?&?);
            pose proof (revokeQueued_revoked q s) end;
          simpl in *; f_equal; try congruence.
        -- rewrite H6. by rewrite <- app_assoc.
      * match goal with |- context [revokeQueued ?q ?s] =>
            pose proof (revokeQueued_refs q s) as (?&?&?&?&?&?&?);
            pose proof (revokeQueued_revoked q s) end;
          simpl in *; f_equal; congruence.
    + match goal with |- context [revokeQueued ?q ?s] =>
            pose proof (revokeQueued_refs q s) as (?&?&?&?&?&?&?);
            pose proof (revokeQueued_revoked q s) end;
          simpl in *; f_equal; try congruence.
      by rewrite alter_absent.
  - match goal with |- context [revokeQueued ?q ?s] =>
            pose proof (revokeQueued_refs q s) as (?&?&?&?&?&?&?);
            pose proof (revokeQueued_revoked q s) end;
          simpl in *; f_equal; congruence.
Qed.

(** ** Invariants of the refs: hold whatever the browser reports, and when *)

Lemma tryPlayNext_queue_inv s : queue_inv s -> queue_inv (tryPlayNext s).
Proof.
  unfold queue_inv, tryPlayNext, pending.
  destruct s as [ar ip cur q pm els rv n]; simpl.
  intros (Hiff & Hnd & Hlt).
  destruct ip; [done|].
  destruct cur as [c|].
  { exfalso. assert (false = true) by (apply Hiff; eauto). done. }
  destruct q as [|next rest]; simpl in *; [done|].
  split; [|done]. split; eauto.
Qed.

Lemma stopAllAudio_queue_inv s : queue_inv (stopAllAudio s).
Proof.
  rewrite stopAllAudio_spec. unfold queue_inv, pending. simpl.
  split; [|split; constructor].
  split; [done|]. intros [? ?]. done.
Qed.

Lemma onEnded_queue_inv a next s : queue_inv s -> queue_inv (onEnded a next s).
Proof.
  intros (Hiff & Hnd & Hlt). unfold onEnded.
  apply tryPlayNext_queue_inv.
  unfold queue_inv, pending in *.
  destruct s as [ar ip cur q pm els rv n]; simpl in *.
  destruct (truthy (revokeAfter next)); simpl;
    (split; [split; [done | by intros [? ?]]|]);
    destruct cur; simpl in *; split; try done;
    try (by inversion Hnd); by inversion Hlt.
Qed.

Lemma enqueueAndPlay_queue_inv u r m s :
  queue_inv s -> queue_inv (enqueueAndPlay u r m s).
Proof.
  intros (Hiff & Hnd & Hlt). unfold enqueueAndPlay.
  apply tryPlayNext_queue_inv.
  unfold queue_inv, pending in *.
  destruct s as [ar ip cur q pm els rv n]; simpl in *.
  split; [done|]. rewrite app_assoc. split.
  - rewrite map_app. simpl. apply NoDup_app. split; [done|]. split.
    + intros x Hx Hx'. apply list_elem_of_singleton in Hx'. subst x.
      apply list_elem_of_fmap in Hx as (it & Hoid & Hin).
      rewrite Forall_forall in Hlt. apply Hlt in Hin. lia.
    + apply NoDup_singleton.
  - apply Forall_app. split.
    + eapply Forall_impl; [exact Hlt|]. simpl. intros; lia.
    + constructor; [simpl; lia | constructor].
Qed.

Lemma set_audios_queue_inv l s : queue_inv s -> queue_inv (set_audios l s).
Proof. by destruct s. Qed.

Lemma audio_step_queue_inv s e : queue_inv s -> queue_inv (audio_step s e).
Proof.
  intros H. destruct e as [u r m| |u m|a|a|a|a]; simpl.
  - by apply enqueueAndPlay_queue_inv.
  - apply stopAllAudio_queue_inv.
  - apply enqueueAndPlay_queue_inv, stopAllAudio_queue_inv.
  - unfold dispatch. destruct (audios s !! a) as [el|]; [|done].
    destruct (listening el);
      [apply onEnded_queue_inv|]; by apply set_audios_queue_inv.
  - unfold dispatch. destruct (audios s !! a) as [el|]; [|done].
    destruct (listening el);
      [apply onEnded_queue_inv|]; by apply set_audios_queue_inv.
  - destruct (audios s !! a) as [el|]; [|done].
    destruct (playPending el); [|done].
    by apply onEnded_queue_inv, set_audios_queue_inv.
  - destruct (audios s !! a) as [el|]; [|done].
    destruct (playPending el); [|done].
    by apply set_audios_queue_inv.
Qed.

Lemma audio_run_queue_inv tr s : queue_inv s -> queue_inv (audio_run s tr).
Proof.
  revert s. induction tr as [|e tr IH]; intros s H; simpl; [done|].
  apply IH. by apply audio_step_queue_inv.
Qed.

Lemma queue_inv_init : queue_inv audio_init.
Proof.
  unfold queue_inv, pending. simpl. split; [|split; constructor].
  split; [done | by intros [? ?]].
Qed.

(** ** Callbacks that come while their element is the current one *)

Lemma filter_at_most_one {A} (P : A -> Prop) `{!forall x, Decision (P x)}
    (l : list A) (a : nat) :
  (forall i x, l !! i = Some x -> P x -> i = a) -> length (filter P l) <= 1.
Proof.
  revert a. induction l as [|x l IH]; intros a Hidx; simpl; [lia|].
  rewrite filter_cons. destruct (decide (P x)) as [Hx|Hx].
  - assert (0 = a) as <- by (by apply (Hidx 0 x)).
    assert (filter P l = []) as ->; [|simpl; lia].
    destruct (filter P l) as [|y k] eqn:E; [done|].
    assert (y ∈ filter P l) as Hy by (rewrite E; left).
    apply list_elem_of_filter in Hy as [Py Hy].
    apply list_elem_of_lookup in Hy as [i Hi].
    specialize (Hidx (S i) y Hi Py). lia.
  - apply (IH (pred a)). intros i y Hi Py.
    specialize (Hidx (S i) y Hi Py). lia.
Qed.

Lemma solo_at_most_one s : solo s -> length (playing s) <= 1.
Proof.
  intros H. unfold playing.
  destruct (audioRef s) as [a|] eqn:Ha.
  - apply (filter_at_most_one _ _ a). intros i el Hi Hp. unfold is_playing in Hp.
    destruct (status el) eqn:E; try done.
    destruct (H i el Hi E) as [Hr _]. congruence.
  - apply (filter_at_most_one _ _ 0). intros i el Hi Hp. unfold is_playing in Hp.
    destruct (status el) eqn:E; try done.
    destruct (H i el Hi E) as [Hr _]. congruence.
Qed.

Lemma silent_solo s : silent s -> solo s.
Proof. intros H a el Ha Hp. by destruct (H a el Ha). Qed.

Lemma solo_idle_silent s : solo s -> isPlayingRef s = false -> silent s.
Proof.
  intros H Hip a el Ha Hp. destruct (H a el Ha Hp) as [_ ?]. congruence.
Qed.

Lemma tryPlayNext_silent s : silent s -> solo (tryPlayNext s).
Proof.
  intros H. unfold tryPlayNext.
  destruct (isPlayingRef s); [by apply silent_solo|].
  destruct (audioQueueRef s) as [|next rest]; [by apply silent_solo|].
  intros a el Ha Hp. simpl in *.
  apply lookup_snoc_Some in Ha as [[Hlt Ha]|[-> _]]; [|done].
  by destruct (H a el Ha).
Qed.

Lemma tryPlayNext_solo s : solo s -> solo (tryPlayNext s).
Proof.
  intros H. destruct (isPlayingRef s) eqn:E.
  - unfold tryPlayNext. by rewrite E.
  - by apply tryPlayNext_silent, solo_idle_silent.
Qed.

(** Once the current element has stopped, nothing plays. *)
Lemma solo_alter_silent (f : element -> element) a s :
  solo s -> audioRef s = Some a ->
  (forall el, status (f el) <> Playing) ->
  forall i el, alter f a (audios s) !! i = Some el -> status el <> Playing.
Proof.
  intros H Ha Hf i el Hi Hp. rewrite list_lookup_alter in Hi.
  destruct (decide (a = i)) as [->|Hne].
  - destruct (audios s !! i) as [el0|]; simpl in Hi; [|done].
    injection Hi as <-. by apply (Hf el0).
  - destruct (H i el Hi Hp) as [Hr _]. congruence.
Qed.

Lemma stopAllAudio_silent s : solo s -> silent (stopAllAudio s).
Proof.
  intros H. rewrite stopAllAudio_spec. intros i el Hi. simpl in Hi.
  destruct (audioRef s) as [a|] eqn:Ha.
  - eapply (solo_alter_silent pause a s); eauto.
    intros el0. unfold pause. by destruct (status el0) eqn:E; simpl; rewrite ?E.
  - intros Hp. destruct (H i el Hi Hp) as [Hr _]. congruence.
Qed.

Lemma onEnded_silent a next s : silent s -> solo (onEnded a next s).
Proof.
  intros H. unfold onEnded. apply tryPlayNext_silent.
  intros i el Hi.
  assert (alter removeListeners a (audios s) !! i = Some el) as Hi'.
  { destruct s; simpl in *. by destruct (truthy (revokeAfter next)). }
  rewrite list_lookup_alter in Hi'.
  destruct (decide (a = i)) as [->|Hne]; [|by eapply H].
  destruct (audios s !! i) as [el0|] eqn:E; simpl in Hi'; [|done].
  injection Hi' as <-. simpl. by eapply H.
Qed.

Lemma audio_step_solo s e : solo s -> timely s e -> solo (audio_step s e).
Proof.
  intros H Ht. destruct e as [u r m| |u m|a|a|a|a]; simpl in *.
  - apply tryPlayNext_solo. intros i el Hi. by apply H.
  - by apply silent_solo, stopAllAudio_silent.
  - apply tryPlayNext_solo, silent_solo.
    pose proof (stopAllAudio_silent s H) as Hs. intros i el Hi. exact (Hs i el Hi).
  - destruct Ht as [Ha Hip]. unfold dispatch.
    destruct (audios s !! a) as [el0|]; [|done].
    assert (silent (set_audios (alter halt a (audios s)) s)) as Hs.
    { intros i el Hi. eapply (solo_alter_silent halt a s); eauto. }
    destruct (listening el0); [by apply onEnded_silent | by apply silent_solo].
  - destruct Ht as [Ha Hip]. unfold dispatch.
    destruct (audios s !! a) as [el0|]; [|done].
    assert (silent (set_audios (alter halt a (audios s)) s)) as Hs.
    { intros i el Hi. eapply (solo_alter_silent halt a s); eauto. }
    destruct (listening el0); [by apply onEnded_silent | by apply silent_solo].
  - destruct Ht as [Ha Hip].
    destruct (audios s !! a) as [el0|]; [|done].
    destruct (playPending el0); [|done].
    apply onEnded_silent. intros i el Hi.
    eapply (solo_alter_silent (fun el => settlePlay (halt el)) a s); eauto.
  - destruct (audios s !! a) as [el0|] eqn:E; [|done].
    destruct (playPending el0); [|done].
    intros i el Hi Hp. simpl in *. rewrite list_lookup_alter in Hi.
    destruct (decide (a = i)) as [->|Hne]; [|exact (H i el Hi Hp)].
    rewrite E in Hi. simpl in Hi. injection Hi as <-. exact (H i el0 E Hp).
Qed.

Lemma audio_run_solo tr s : solo s -> timely_run s tr -> solo (audio_run s tr).
Proof.
  revert s. induction tr as [|e tr IH]; intros s H Ht; simpl; [done|].
  destruct Ht as [Ht Htr]. apply IH; [|done]. by apply audio_step_solo.
Qed.

(** ** What holds of every run, and what holds of timely ones *)

(** X1: In every run of the queue, whatever the browser reports and when,
    [isPlayingRef] is set exactly when [currentItemRef] holds an item, and
    the object it holds is not in the queue. *)
Theorem refs_invariant (tr : list audio_event) :
  let s := audio_run audio_init tr in
  (isPlayingRef s = true <-> is_Some (currentItemRef s)) /\
  (forall it, currentItemRef s = Some it -> oid it ∉ map oid (audioQueueRef s)).
Proof.
  intros s.
  destruct (audio_run_queue_inv tr audio_init queue_inv_init) as (Hiff & Hnd & _).
  fold s in Hiff, Hnd. split; [done|].
  intros it Hit. unfold pending in Hnd. rewrite Hit in Hnd. cbn in Hnd.
  by apply NoDup_cons in Hnd as [Hnotin _].
Qed.

(** X2: As long as every callback arrives while its element is the current
    one, at most one element is playing. *)
Theorem timely_no_overlap (tr : list audio_event) :
  timely_run audio_init tr ->
  length (playing (audio_run audio_init tr)) <= 1.
Proof.
  intros Ht. apply solo_at_most_one, audio_run_solo; [|done].
  intros a el Ha. cbn in Ha. by rewrite lookup_nil in Ha.
Qed.

(** ** One-shot entries under timely callbacks *)

Lemma one_shot_ok_prefix E E' : one_shot_ok (E ++ E') -> one_shot_ok E.
Proof.
  intros [Hb Hu]. split.
  - intros u Hin. apply Hb, elem_of_app. by left.
  - intros i j u b Hi Hj. apply (Hu i j u b); by apply lookup_app_l_Some.
Qed.

Lemma one_shot_same_flag E u b :
  one_shot_ok E -> (u, true) ∈ E -> (u, b) ∈ E -> b = true.
Proof.
  intros [_ Hu] Hi Hj.
  apply list_elem_of_lookup in Hi as [i Hi].
  apply list_elem_of_lookup in Hj as [j Hj].
  assert (i = j) by eauto. subst. congruence.
Qed.

Lemma one_shot_snoc_fresh E u b c :
  one_shot_ok (E ++ [(u, b)]) -> (u, c) ∈ E -> b = true \/ c = true -> False.
Proof.
  intros [_ Hu] Hin Hor.
  apply list_elem_of_lookup in Hin as [i Hi].
  assert (Hlt : i < length E) by (eapply lookup_lt_Some; eauto).
  assert (Hi' : (E ++ [(u, b)]) !! i = Some (u, c)) by (by apply lookup_app_l_Some).
  assert (Hn : (E ++ [(u, b)]) !! length E = Some (u, b)).
  { rewrite lookup_app_r by lia. by rewrite Nat.sub_diag. }
  destruct Hor as [-> | ->].
  - assert (length E = i) by (eapply Hu; eauto). lia.
  - assert (i = length E) by (eapply Hu; eauto). lia.
Qed.

Lemma filter_none {A} (P : A -> Prop) `{!forall x, Decision (P x)} (l : list A) :
  (forall x, x ∈ l -> ~ P x) -> filter P l = [].
Proof.
  induction l as [|x l IH]; intros Hn; [done|].
  rewrite filter_cons_False by (apply Hn, list_elem_of_here).
  apply IH. intros y Hy. by apply Hn, list_elem_of_further.
Qed.

Lemma count_queued_releases v l :
  (forall it, it ∈ l -> url it = v ->
     truthy (revokeAfter it) && startsWith "blob:" (url it) = true) ->
  length (filter (fun w => w = v) (queued_releases l)) =
  length (filter (fun it => url it = v) l).
Proof.
  unfold queued_releases. induction l as [|it l IH]; intros Hl; [done|].
  assert (IH' := IH (fun x Hx => Hl x (list_elem_of_further _ _ _ Hx))).
  destruct (decide (url it = v)) as [Hv|Hv].
  - rewrite (filter_cons_True (fun it => url it = v)) by done.
    rewrite filter_cons_True by (apply Hl; [apply list_elem_of_here | done]).
    cbn [map]. rewrite filter_cons_True by done. cbn [length]. by rewrite IH'.
  - rewrite (filter_cons_False (fun it => url it = v)) by done.
    destruct (truthy (revokeAfter it) && startsWith "blob:" (url it)) eqn:Hb.
    + rewrite filter_cons_True by done. cbn [map].
      by rewrite filter_cons_False by done.
    + rewrite filter_cons_False by (rewrite Hb; done). done.
Qed.

Lemma tryPlayNext_pending s :
  (isPlayingRef s = false -> currentItemRef s = None) ->
  pending (tryPlayNext s) = pending s.
Proof.
  unfold tryPlayNext, pending. destruct s as [ar ip cur q pm els rv n]; simpl.
  intros H. destruct ip; [done|]. rewrite H by done. by destruct q.
Qed.

Lemma tryPlayNext_revoked s : revoked (tryPlayNext s) = revoked s.
Proof.
  unfold tryPlayNext. destruct (isPlayingRef s); [done|].
  by destruct (audioQueueRef s).
Qed.

Lemma tryPlayNext_linked s : linked s -> linked (tryPlayNext s).
Proof.
  unfold tryPlayNext, linked. destruct s as [ar ip cur q pm els rv n]; simpl.
  intros H. destruct ip; [exact H|].
  destruct q as [|next rest]; simpl; [done|].
  intros _. exists (length els), (Audio (url next) Playing true true next), next.
  repeat split. rewrite lookup_app_r by lia. by rewrite Nat.sub_diag.
Qed.

Lemma enqueueAndPlay_pending u r m s :
  queue_inv s ->
  pending (enqueueAndPlay u r m s) = pending s ++ [Item (next_oid s) u r m].
Proof.
  intros (Hiff & _). unfold enqueueAndPlay. rewrite tryPlayNext_pending.
  - unfold pending. simpl. by rewrite app_assoc.
  - simpl. intros Hf. destruct (currentItemRef s) eqn:E; [|done].
    assert (isPlayingRef s = true) by (apply Hiff; eauto). congruence.
Qed.

Lemma onEnded_pending a next s : pending (onEnded a next s) = audioQueueRef s.
Proof.
  unfold onEnded. rewrite tryPlayNext_pending by done.
  unfold pending. by destruct (truthy (revokeAfter next)).
Qed.

Lemma onEnded_revoked a next s :
  revoked (onEnded a next s) =
  revoked s ++ (if truthy (revokeAfter next) then [url next] else []).
Proof.
  unfold onEnded. rewrite tryPlayNext_revoked.
  destruct (truthy (revokeAfter next)); simpl; [done|]. by rewrite app_nil_r.
Qed.

Lemma onEnded_linked a next s : linked (onEnded a next s).
Proof. unfold onEnded. apply tryPlayNext_linked. intros H. done. Qed.

Lemma current_release_linked s :
  queue_inv s -> linked s ->
  current_release s ++ queued_releases (audioQueueRef s) =
  queued_releases (pending s).
Proof.
  intros (Hiff & _) Hl. unfold current_release, pending.
  destruct (currentItemRef s) as [cur|] eqn:Hcur.
  - destruct Hl as (a & el & cur' & Ha & Hel & Hc & Hsrc & _).
    { apply Hiff. eauto. }
    rewrite Ha, Hel. assert (cur' = cur) by congruence. subst cur'.
    rewrite Hsrc. unfold queued_releases. cbn [app].
    destruct (truthy (revokeAfter cur) && startsWith "blob:" (url cur)) eqn:Hb.
    + by rewrite filter_cons_True by done.
    + by rewrite filter_cons_False by (rewrite Hb; done).
  - destruct (audioRef s) as [a|]; [|done]. by destruct (audios s !! a).
Qed.

Lemma enqueueAndPlay_ledger E u r m s :
  queue_inv s -> ledger E s -> one_shot_ok (E ++ [(u, truthy r)]) ->
  ledger (E ++ [(u, truthy r)]) (enqueueAndPlay u r m s).
Proof.
  intros Hq (Hl & Hp & Hr & Hc) Hok.
  assert (Hpend := enqueueAndPlay_pending u r m s Hq).
  assert (Hrev : revoked (enqueueAndPlay u r m s) = revoked s).
  { unfold enqueueAndPlay. by rewrite tryPlayNext_revoked. }
  split; [|split; [|split]].
  - unfold enqueueAndPlay. apply tryPlayNext_linked. exact Hl.
  - intros it Hin. rewrite Hpend in Hin. apply elem_of_app in Hin as [Hin|Hin].
    + apply elem_of_app. left. by apply Hp.
    + apply list_elem_of_singleton in Hin. subst it.
      apply elem_of_app. right. by apply list_elem_of_singleton.
  - intros v Hv. rewrite Hrev in Hv. apply elem_of_app. left. by apply Hr.
  - intros v Hv. unfold releases, waiting. rewrite Hrev, Hpend.
    rewrite filter_app, length_app.
    apply elem_of_app in Hv as [Hv|Hv].
    + assert (v <> u).
      { intros ->. eapply one_shot_snoc_fresh; eauto. }
      rewrite (filter_cons_False _ _ []) by (simpl; congruence).
      specialize (Hc v Hv). unfold releases, waiting in Hc. simpl. lia.
    + apply list_elem_of_singleton in Hv. injection Hv as -> Ht.
      rewrite (filter_cons_True _ _ []) by done.
      rewrite (filter_none (fun w => w = u) (revoked s)).
      2:{ intros w Hw ->. eapply one_shot_snoc_fresh; eauto. }
      rewrite (filter_none (fun it => url it = u) (pending s)).
      2:{ intros it Hit Hu. apply Hp in Hit. rewrite Hu in Hit.
          eapply one_shot_snoc_fresh; eauto. }
      done.
Qed.

Lemma stopAllAudio_ledger E s :
  queue_inv s -> ledger E s -> one_shot_ok E -> ledger E (stopAllAudio s).
Proof.
  intros Hq (Hl & Hp & Hr & Hc) Hok.
  assert (Hrev : revoked (stopAllAudio s) = revoked s ++ queued_releases (pending s)).
  { rewrite stopAllAudio_spec. cbn [revoked]. by rewrite current_release_linked. }
  assert (Hpend : pending (stopAllAudio s) = []) by (by rewrite stopAllAudio_spec).
  split; [|split; [|split]].
  - rewrite stopAllAudio_spec. intros H. done.
  - intros it Hin. rewrite Hpend in Hin. by apply elem_of_nil in Hin.
  - intros v Hv. rewrite Hrev in Hv. apply elem_of_app in Hv as [Hv|Hv]; [by apply Hr|].
    unfold queued_releases in Hv.
    apply list_elem_of_fmap in Hv as (it & -> & Hin).
    apply list_elem_of_filter in Hin as [Hb Hin].
    apply andb_prop in Hb as [Hb _]. apply Hp in Hin. by rewrite Hb in Hin.
  - intros v Hv. unfold releases, waiting. rewrite Hrev, Hpend.
    rewrite filter_app, length_app, count_queued_releases.
    + specialize (Hc v Hv). unfold releases, waiting in Hc. simpl. lia.
    + intros it Hit Hu. apply Hp in Hit. rewrite Hu in Hit.
      rewrite (one_shot_same_flag E v _ Hok Hv Hit), Hu. simpl.
      by apply Hok.
Qed.

Lemma onEnded_ledger E a f s el :
  queue_inv s -> ledger E s -> one_shot_ok E ->
  audioRef s = Some a -> isPlayingRef s = true -> audios s !! a = Some el ->
  ledger E (onEnded a (captured el) (set_audios (alter f a (audios s)) s)).
Proof.
  intros Hq (Hl & Hp & Hr & Hc) Hok Ha Hplay Hel.
  destruct (Hl Hplay) as (a' & el' & cur & Ha' & Hel' & Hcur & _ & Hcap & _).
  assert (a' = a) by congruence. subst a'.
  assert (el' = el) by congruence. subst el'. rewrite Hcap.
  assert (Hpend : pending s = cur :: audioQueueRef s).
  { unfold pending. by rewrite Hcur. }
  split; [|split; [|split]].
  - apply onEnded_linked.
  - intros it Hin. rewrite onEnded_pending in Hin. apply Hp.
    rewrite Hpend. by apply list_elem_of_further.
  - intros v Hv. rewrite onEnded_revoked in Hv.
    apply elem_of_app in Hv as [Hv|Hv]; [by apply Hr|].
    destruct (truthy (revokeAfter cur)) eqn:Ht; [|by apply elem_of_nil in Hv].
    apply list_elem_of_singleton in Hv. subst v.
    rewrite <- Ht. apply Hp. rewrite Hpend. apply list_elem_of_here.
  - intros v Hv. specialize (Hc v Hv). unfold releases, waiting in *.
    rewrite onEnded_revoked, onEnded_pending. rewrite Hpend in Hc.
    rewrite filter_app, length_app. cbn [audioQueueRef set_audios revoked].
    destruct (decide (url cur = v)) as [Hu|Hu].
    + rewrite filter_cons_True in Hc by done.
      assert (Ht : truthy (revokeAfter cur) = true).
      { apply (one_shot_same_flag E v _ Hok Hv). rewrite <- Hu. apply Hp.
        rewrite Hpend. apply list_elem_of_here. }
      rewrite Ht. rewrite (filter_cons_True _ _ []) by done.
      simpl in *. lia.
    + rewrite filter_cons_False in Hc by done.
      destruct (truthy (revokeAfter cur)).
      * rewrite (filter_cons_False _ _ []) by done. simpl in *. lia.
      * simpl in *. lia.
Qed.

Lemma settlePlay_ledger E a s :
  ledger E s -> ledger E (set_audios (alter settlePlay a (audios s)) s).
Proof.
  intros (Hl & Hp & Hr & Hc). split; [|done].
  intros Hplay. destruct (Hl Hplay) as (a' & el & cur & Ha & Hel & Hcur & Hsrc & Hcap & Hlis).
  destruct (decide (a' = a)) as [->|Hne].
  - exists a, (settlePlay el), cur. repeat split; try done.
    cbn. rewrite list_lookup_alter. rewrite decide_True by done. by rewrite Hel.
  - exists a', el, cur. repeat split; try done.
    cbn. rewrite list_lookup_alter. by rewrite decide_False by done.
Qed.

Lemma audio_step_ledger E s e :
  queue_inv s -> ledger E s -> timely s e -> one_shot_ok (E ++ handed e) ->
  ledger (E ++ handed e) (audio_step s e).
Proof.
  intros Hq Hled Ht Hok.
  assert (HokE := one_shot_ok_prefix _ _ Hok).
  assert (Hcb : forall a, audioRef s = Some a /\ isPlayingRef s = true ->
            exists el, audios s !! a = Some el /\ listening el = true).
  { intros a [Ha Hplay]. destruct Hled as (Hl & _).
    destruct (Hl Hplay) as (a' & el & cur & Ha' & Hel & _ & _ & _ & Hlis).
    assert (a' = a) by congruence. subst. eauto. }
  destruct e as [u r m| |u m|a|a|a|a]; cbn [handed audio_step] in *;
    rewrite ?app_nil_r in *.
  - by apply enqueueAndPlay_ledger.
  - by apply stopAllAudio_ledger.
  - apply (enqueueAndPlay_ledger E u (Some false) m).
    + apply stopAllAudio_queue_inv.
    + by apply stopAllAudio_ledger.
    + exact Hok.
  - destruct (Hcb a Ht) as (el & Hel & Hlis). destruct Ht as [Ha Hplay].
    unfold dispatch. rewrite Hel, Hlis. by apply onEnded_ledger.
  - destruct (Hcb a Ht) as (el & Hel & Hlis). destruct Ht as [Ha Hplay].
    unfold dispatch. rewrite Hel, Hlis. by apply onEnded_ledger.
  - destruct (Hcb a Ht) as (el & Hel & Hlis). destruct Ht as [Ha Hplay].
    rewrite Hel. destruct (playPending el); [|done]. by apply onEnded_ledger.
  - destruct (audios s !! a) as [el|]; [|done].
    destruct (playPending el); [|done]. by apply settlePlay_ledger.
Qed.

Lemma timely_run_snoc s tr e :
  timely_run s (tr ++ [e]) <-> timely_run s tr /\ timely (audio_run s tr) e.
Proof.
  revert s. induction tr as [|e' tr IH]; intros s; simpl.
  - tauto.
  - rewrite IH. tauto.
Qed.

Lemma ledger_init : ledger [] audio_init.
Proof.
  split; [|split; [|split]].
  - intros H. done.
  - intros it Hin. by apply elem_of_nil in Hin.
  - intros u Hin. by apply elem_of_nil in Hin.
  - intros u Hin. by apply elem_of_nil in Hin.
Qed.

Lemma audio_run_ledger tr :
  timely_run audio_init tr -> one_shot_ok (enqueued tr) ->
  ledger (enqueued tr) (audio_run audio_init tr).
Proof.
  induction tr as [|e tr IH] using rev_ind; intros Ht Hok.
  - apply ledger_init.
  - apply timely_run_snoc in Ht as [Ht He].
    unfold enqueued in *. rewrite flat_map_app in *. cbn [flat_map] in *.
    rewrite app_nil_r in *.
    unfold audio_run. rewrite fold_left_app. cbn [fold_left].
    apply audio_step_ledger; try done.
    + apply audio_run_queue_inv, queue_inv_init.
    + apply IH; [done|]. by eapply one_shot_ok_prefix.
Qed.

(** X3: As long as every callback arrives while its element is the current
    one, and one-shot URLs are object URLs used for one entry each: a
    one-shot URL is released once, when its entry stops being current or
    queued, and not before. *)
Theorem one_shot_released_once (tr : list audio_event) (u : string) :
  timely_run audio_init tr -> one_shot_ok (enqueued tr) ->
  (u, true) ∈ enqueued tr ->
  releases u (audio_run audio_init tr) + waiting u (audio_run audio_init tr) = 1.
Proof.
  intros Ht Hok Hu. by apply (audio_run_ledger tr Ht Hok).
Qed.

(** X4: Under the same conditions, no URL that is still to be played, or is
    being played, has been released. *)
Theorem no_release_before_use (tr : list audio_event) (it : item) :
  timely_run audio_init tr -> one_shot_ok (enqueued tr) ->
  it ∈ pending (audio_run audio_init tr) ->
  releases (url it) (audio_run audio_init tr) = 0.
Proof.
  intros Ht Hok Hit.
  destruct (audio_run_ledger tr Ht Hok) as (_ & Hp & Hr & Hc).
  set (s := audio_run audio_init tr) in *.
  destruct (truthy (revokeAfter it)) eqn:Hb.
  - assert (Hin := Hp it Hit). rewrite Hb in Hin.
    specialize (Hc _ Hin). unfold waiting in Hc.
    assert (0 < length (filter (fun x => url x = url it) (pending s))).
    { destruct (filter (fun x => url x = url it) (pending s)) eqn:Hf; [|simpl; lia].
      assert (it ∈ filter (fun x => url x = url it) (pending s))
        by (by apply list_elem_of_filter).
      rewrite Hf in H. by apply elem_of_nil in H. }
    lia.
  - unfold releases. rewrite filter_none; [done|].
    intros w Hw ->. apply Hr in Hw.
    assert (Hin := Hp it Hit).
    rewrite (one_shot_same_flag _ _ _ Hok Hw Hin) in Hb. done.
Qed.

(** The conditions are those of ordinary use: for instance, of a spoken
    reply that is interrupted while it plays. *)
Example spoken_reply_interrupted :
  let tr := [EnqueueAndPlay "blob:a" (Some true) (Some "m1");
             PlayStarted 0; StopAllAudio] in
  timely_run audio_init tr /\ one_shot_ok (enqueued tr) /\
  releases "blob:a" (audio_run audio_init tr) = 1 /\
  waiting "blob:a" (audio_run audio_init tr) = 0.
Proof.
  split; [vm_compute; tauto|]. split; [|split; vm_compute; reflexivity].
  split.
  - intros u Hu. apply list_elem_of_singleton in Hu. by injection Hu as ->.
  - intros i j u b Hi Hj. apply lookup_lt_Some in Hi, Hj. simpl in *. lia.
Qed.

(** ** Late callbacks

    A media element whose source fails to load fires 'error' and rejects
    the promise of [play()]; an element paused before it started rejects
    that promise too.  [onEnded] runs for each of them, also when its
    element is no longer the current one. *)

(** C1 (at the failing inputs): the object URL of a one-shot item is handed
    to [URL.revokeObjectURL] twice, both when its playback fails to load and
    when [stopAllAudio] discards it before it started. *)
Theorem one_shot_released_twice :
  releases "blob:a" (audio_run audio_init load_failure) = 2 /\
  releases "blob:a" (audio_run audio_init stopped_early) = 2.
Proof. split; vm_compute; reflexivity. Qed.

(** C2 (at the failing input): after the first of three queued items
    failed to load, the second and the third play at the same time. *)
Theorem two_items_play_at_once :
  map src (playing (audio_run audio_init failing_head)) = ["blob:b"; "blob:c"].
Proof. vm_compute. reflexivity. Qed.

(** C3 (at the failing inputs): the callback of the stopped item, arriving
    after [stopAllAudio], releases the item's URL a second time, replaces
    the current item, and starts the item enqueued last while the one
    enqueued before it is still playing.  When nothing is queued, it
    clears the playing state although the replayed item is playing, so
    that the next item enqueued plays on top of it. *)
Theorem late_callback_takes_effect :
  (let s := audio_run audio_init before_late_callback in
   let s' := audio_step s (PlayRejected 0) in
   (releases "blob:a" s = 1 /\ releases "blob:a" s' = 2) /\
   (option_map url (currentItemRef s) = Some "blob:b" /\
    option_map url (currentItemRef s') = Some "blob:c") /\
   (playingMsgId s = Some "m2" /\ playingMsgId s' = Some "m3") /\
   (map src (playing s) = ["blob:b"] /\
    map src (playing s') = ["blob:b"; "blob:c"])) /\
  (let s := audio_run audio_init replaced_early in
   let s' := audio_step s (PlayRejected 0) in
   (releases "blob:a" s = 1 /\ releases "blob:a" s' = 2) /\
   (isPlayingRef s = true /\ isPlayingRef s' = false) /\
   (option_map url (currentItemRef s) = Some "blob:b" /\
    currentItemRef s' = None) /\
   (playingMsgId s = Some "m2" /\ playingMsgId s' = None) /\
   (map src (playing s) = ["blob:b"] /\ map src (playing s') = ["blob:b"]) /\
   map src (playing (audio_step s' (EnqueueAndPlay "blob:c" None (Some "m3")))) =
     ["blob:b"; "blob:c"]).
Proof. vm_compute. repeat split; reflexivity. Qed.

(** ** Replay on demand *)

(** C9: [playAudioUrl(url, msgId)] and [stopAllAudio()] followed by
    [enqueueAndPlay(url, false, msgId)] lead from every state to the same
    state, refs, elements and released URLs alike, and so agree on
    whatever happens next; in that state the replayed item is the
    current one, nothing is queued, and the URLs released are those
    [stopAllAudio] releases. *)
Theorem playAudioUrl_refines_stop_then_enqueue
    (u : string) (m : option string) (s : audio_state) (tr : list audio_event) :
  audio_run s (PlayAudioUrl u m :: tr) =
    audio_run s (StopAllAudio :: EnqueueAndPlay u (Some false) m :: tr) /\
  let s' := audio_step s (PlayAudioUrl u m) in
  currentItemRef s' = Some (Item (next_oid s) u (Some false) m) /\
  isPlayingRef s' = true /\
  audioQueueRef s' = [] /\
  playingMsgId s' = m /\
  audioRef s' = Some (length (audios s)) /\
  audios s' !! length (audios s) =
    Some (Audio u Playing true true (Item (next_oid s) u (Some false) m)) /\
  revoked s' =
    revoked s ++ current_release s ++ queued_releases (audioQueueRef s).
Proof.
  split; [reflexivity|].
  simpl. unfold playAudioUrl, enqueueAndPlay.
  rewrite stopAllAudio_spec. simpl.
  assert (length (match audioRef s with
                  | Some a => alter pause a (audios s)
                  | None => audios s
                  end) = length (audios s)) as Hlen.
  { destruct (audioRef s); [apply length_alter | done]. }
  rewrite Hlen. repeat split.
  rewrite lookup_app_r by lia. rewrite Hlen.
  by replace (length (audios s) - length (audios s)) with 0 by lia.
Qed.


(** * More properties of the playback queue *)

Lemma tryPlayNext_attached s :
  (isPlayingRef s = false -> currentItemRef s = None) ->
  attached s -> attached (tryPlayNext s).
Proof.
  unfold tryPlayNext, attached. destruct s as [ar ip cur q pm els rv n]; simpl.
  intros Hidle H. destruct ip; [exact H|].
  destruct q as [|next rest]; simpl; [exact H|].
  split; [done|]. exists (length els), (Audio (url next) Playing true true next).
  repeat split. rewrite lookup_app_r by lia. by rewrite Nat.sub_diag.
Qed.

Lemma attached_alter (f : element -> element) a s :
  (forall el, src (f el) = src el /\ captured (f el) = captured el) ->
  attached s -> attached (set_audios (alter f a (audios s)) s).
Proof.
  intros Hf. unfold attached. destruct s as [ar ip cur q pm els rv n]; simpl.
  destruct cur as [c|]; [|done].
  intros (Hpm & a' & el & Ha & Hel & Hsrc & Hcap). split; [done|].
  destruct (decide (a = a')) as [->|Hne].
  - exists a', (f el). repeat split; try done.
    + rewrite list_lookup_alter, decide_True by done. by rewrite Hel.
    + by rewrite (proj1 (Hf el)).
    + by rewrite (proj2 (Hf el)).
  - exists a', el. repeat split; try done.
    by rewrite list_lookup_alter, decide_False by done.
Qed.

Lemma onEnded_attached a next s : attached (onEnded a next s).
Proof.
  unfold onEnded. apply tryPlayNext_attached; [done|].
  unfold attached. by destruct (truthy (revokeAfter next)).
Qed.

Lemma stopAllAudio_attached s : attached (stopAllAudio s).
Proof. rewrite stopAllAudio_spec. done. Qed.

Lemma enqueueAndPlay_attached u r m s :
  queue_inv s -> attached s -> attached (enqueueAndPlay u r m s).
Proof.
  intros (Hiff & _) H. unfold enqueueAndPlay. apply tryPlayNext_attached; [|exact H].
  simpl. intros Hf. destruct (currentItemRef s) eqn:E; [|done].
  assert (isPlayingRef s = true) by (apply Hiff; eauto). congruence.
Qed.

Lemma halt_keeps el : src (halt el) = src el /\ captured (halt el) = captured el.
Proof. done. Qed.

Lemma pause_keeps el : src (pause el) = src el /\ captured (pause el) = captured el.
Proof. unfold pause. by destruct (status el). Qed.

Lemma settlePlay_keeps el :
  src (settlePlay el) = src el /\ captured (settlePlay el) = captured el.
Proof. done. Qed.

Lemma audio_step_attached s e :
  queue_inv s -> attached s -> attached (audio_step s e).
Proof.
  intros Hq H. destruct e as [u r m| |u m|a|a|a|a]; simpl.
  - by apply enqueueAndPlay_attached.
  - apply stopAllAudio_attached.
  - apply enqueueAndPlay_attached;
      [apply stopAllAudio_queue_inv | apply stopAllAudio_attached].
  - unfold dispatch. destruct (audios s !! a) as [el|]; [|done].
    destruct (listening el); [apply onEnded_attached|].
    apply attached_alter; [apply halt_keeps | done].
  - unfold dispatch. destruct (audios s !! a) as [el|]; [|done].
    destruct (listening el); [apply onEnded_attached|].
    apply attached_alter; [apply halt_keeps | done].
  - destruct (audios s !! a) as [el|]; [|done].
    destruct (playPending el); [apply onEnded_attached | done].
  - destruct (audios s !! a) as [el|]; [|done].
    destruct (playPending el); [|done].
    apply attached_alter; [apply settlePlay_keeps | done].
Qed.

Lemma audio_run_attached tr s :
  queue_inv s -> attached s -> attached (audio_run s tr).
Proof.
  revert s. induction tr as [|e tr IH]; intros s Hq H; [done|].
  apply IH; [by apply audio_step_queue_inv | by apply audio_step_attached].
Qed.

(** X5: In every run, the message marked as playing is the message of the
    current entry, and the element the refs hold was built for that entry. *)
Theorem playing_message_is_current (tr : list audio_event) :
  let s := audio_run audio_init tr in
  playingMsgId s = match currentItemRef s with
                   | Some cur => msgId cur
                   | None => None
                   end /\
  (forall cur, currentItemRef s = Some cur ->
     exists a el, audioRef s = Some a /\ audios s !! a = Some el /\
                  src el = url cur /\ captured el = cur).
Proof.
  intros s.
  assert (H : attached s) by (apply audio_run_attached; [apply queue_inv_init | done]).
  unfold attached in H. destruct (currentItemRef s) as [cur|].
  - destruct H as [Hpm Hel]. split; [done|]. by intros ? [= <-].
  - split; [done|]. by intros ? [=].
Qed.

(** [stopAllAudio] twice is [stopAllAudio] once. *)
Theorem stopAllAudio_idempotent (s : audio_state) :
  stopAllAudio (stopAllAudio s) = stopAllAudio s.
Proof.
  rewrite (stopAllAudio_spec (stopAllAudio s)). rewrite stopAllAudio_spec.
  unfold current_release, queued_releases. simpl. by rewrite app_nil_r.
Qed.

(** ** Replayable URLs are never released *)

Lemma accounted_init : accounted [] audio_init.
Proof.
  split; [done|]. split; [|split].
  - intros it Hin. by apply elem_of_nil in Hin.
  - intros el Hin. by apply elem_of_nil in Hin.
  - intros u Hin. by apply elem_of_nil in Hin.
Qed.

Lemma accounted_weaken E E' s : accounted E s -> accounted (E ++ E') s.
Proof.
  intros (Ha & Hp & He & Hr). split; [done|]. split; [|split].
  - intros it Hin. apply elem_of_app. left. by apply Hp.
  - intros el Hin. destruct (He el Hin). split; [done|]. apply elem_of_app. by left.
  - intros u Hin. apply elem_of_app. left. by apply Hr.
Qed.

Lemma tryPlayNext_audios s el :
  el ∈ audios (tryPlayNext s) ->
  el ∈ audios s \/
  exists next, next ∈ audioQueueRef s /\ el = Audio (url next) Playing true true next.
Proof.
  unfold tryPlayNext. destruct (isPlayingRef s); [by left|].
  destruct (audioQueueRef s) as [|next rest]; [by left|]. simpl.
  intros Hin. apply elem_of_app in Hin as [Hin|Hin]; [by left|].
  apply list_elem_of_singleton in Hin. right. exists next.
  split; [apply list_elem_of_here | done].
Qed.

Lemma elem_of_alter {A} (f : A -> A) (l : list A) (i : nat) (y : A) :
  y ∈ alter f i l -> exists x, x ∈ l /\ (y = x \/ y = f x).
Proof.
  intros Hin. apply list_elem_of_lookup in Hin as [j Hj].
  rewrite list_lookup_alter in Hj. case_decide.
  - subst. destruct (l !! j) as [x|] eqn:E; simpl in Hj; [|done].
    injection Hj as <-. exists x. split; [|by right].
    apply list_elem_of_lookup. eauto.
  - exists y. split; [|by left]. apply list_elem_of_lookup. eauto.
Qed.

Lemma onEnded_audios a next s x :
  x ∈ audios (onEnded a next s) ->
  (exists y, y ∈ audios s /\ src x = src y /\ captured x = captured y) \/
  (exists n, n ∈ audioQueueRef s /\ x = Audio (url n) Playing true true n).
Proof.
  unfold onEnded. intros Hx. apply tryPlayNext_audios in Hx as [Hx|Hx].
  - left.
    assert (Hx' : x ∈ alter removeListeners a (audios s))
      by (destruct (truthy (revokeAfter next)); exact Hx).
    apply elem_of_alter in Hx' as (y & Hy & [->| ->]); eauto.
  - right. destruct Hx as (n & Hn & ->). exists n. split; [|done].
    destruct (truthy (revokeAfter next)); exact Hn.
Qed.

Lemma onEnded_accounted E a f s el :
  (forall x, src (f x) = src x /\ captured (f x) = captured x) ->
  accounted E s -> el ∈ audios s ->
  accounted E (onEnded a (captured el) (set_audios (alter f a (audios s)) s)).
Proof.
  intros Hf (Ha & Hp & He & Hr) Hel.
  split; [apply onEnded_attached|]. split; [|split].
  - intros it Hin. rewrite onEnded_pending in Hin. apply Hp.
    unfold pending. apply elem_of_app. by right.
  - intros x Hx. apply onEnded_audios in Hx as [(y & Hy & Hs & Hc)|(n & Hn & ->)].
    + rewrite Hs, Hc. cbn in Hy.
      apply elem_of_alter in Hy as (z & Hz & [->| ->]); [by apply He|].
      destruct (Hf z) as [-> ->]. by apply He.
    + split; [done|]. simpl. apply Hp.
      unfold pending. apply elem_of_app. by right.
  - intros u Hu. rewrite onEnded_revoked in Hu.
    apply elem_of_app in Hu as [Hu|Hu]; [by apply Hr|].
    destruct (truthy (revokeAfter (captured el))) eqn:Ht; [|by apply elem_of_nil in Hu].
    apply list_elem_of_singleton in Hu. subst u. rewrite <- Ht. by apply He.
Qed.

Lemma alter_accounted E a f s :
  (forall x, src (f x) = src x /\ captured (f x) = captured x) ->
  accounted E s -> accounted E (set_audios (alter f a (audios s)) s).
Proof.
  intros Hf (Ha & Hp & He & Hr). split; [by apply attached_alter|].
  split; [done|]. split; [|done].
  intros x Hx. apply elem_of_alter in Hx as (y & Hy & [->| ->]); [by apply He|].
  destruct (Hf y) as [-> ->]. by apply He.
Qed.

Lemma stopAllAudio_accounted E s :
  queue_inv s -> accounted E s -> accounted E (stopAllAudio s).
Proof.
  intros Hq (Ha & Hp & He & Hr). split; [apply stopAllAudio_attached|].
  rewrite stopAllAudio_spec. split; [|split].
  - intros it Hin. by apply elem_of_nil in Hin.
  - simpl. intros x Hx. destruct (audioRef s) as [a|]; [|by apply He].
    apply elem_of_alter in Hx as (y & Hy & [->| ->]); [by apply He|].
    destruct (pause_keeps y) as [-> ->]. by apply He.
  - simpl. intros u Hu. apply elem_of_app in Hu as [Hu|Hu]; [by apply Hr|].
    apply elem_of_app in Hu as [Hu|Hu].
    + unfold current_release in Hu. unfold attached in Ha.
      destruct (audioRef s) as [a|]; [|by apply elem_of_nil in Hu].
      destruct (audios s !! a) as [el|] eqn:Hel; [|by apply elem_of_nil in Hu].
      destruct (currentItemRef s) as [cur|] eqn:Hcur; [|by apply elem_of_nil in Hu].
      destruct Ha as (_ & a' & el' & Ha' & Hel' & Hsrc & _).
      assert (a' = a) by congruence. subst a'.
      assert (el' = el) by congruence. subst el'.
      destruct (truthy (revokeAfter cur)) eqn:Ht; simpl in Hu;
        [|by apply elem_of_nil in Hu].
      destruct (startsWith "blob:" (src el)); [|by apply elem_of_nil in Hu].
      apply list_elem_of_singleton in Hu. subst u. rewrite Hsrc, <- Ht.
      apply Hp. unfold pending. rewrite Hcur. apply list_elem_of_here.
    + unfold queued_releases in Hu.
      apply list_elem_of_fmap in Hu as (it & -> & Hin).
      apply list_elem_of_filter in Hin as [Hb Hin].
      apply andb_prop in Hb as [Hb _]. rewrite <- Hb. apply Hp.
      unfold pending. apply elem_of_app. by right.
Qed.

Lemma enqueueAndPlay_accounted E u r m s :
  queue_inv s -> accounted E s ->
  accounted (E ++ [(u, truthy r)]) (enqueueAndPlay u r m s).
Proof.
  intros Hq Hacc.
  assert (Hnew : forall it, it ∈ pending (enqueueAndPlay u r m s) ->
            (url it, truthy (revokeAfter it)) ∈ E ++ [(u, truthy r)]).
  { destruct Hacc as (_ & Hp & _). intros it Hin.
    rewrite enqueueAndPlay_pending in Hin by done.
    apply elem_of_app in Hin as [Hin|Hin].
    - apply elem_of_app. left. by apply Hp.
    - apply list_elem_of_singleton in Hin. subst it.
      apply elem_of_app. right. by apply list_elem_of_singleton. }
  destruct (accounted_weaken E [(u, truthy r)] s Hacc) as (Ha & Hp & He & Hr).
  split; [by apply enqueueAndPlay_attached|]. split; [done|]. split.
  - intros x Hx. unfold enqueueAndPlay in Hx.
    apply tryPlayNext_audios in Hx as [Hx|Hx]; [by apply He|].
    destruct Hx as (next & Hn & ->). split; [done|]. simpl in *.
    apply elem_of_app in Hn as [Hn|Hn].
    + apply Hp. unfold pending. apply elem_of_app. by right.
    + apply list_elem_of_singleton in Hn. subst next.
      apply elem_of_app. right. by apply list_elem_of_singleton.
  - intros v Hv. apply Hr. unfold enqueueAndPlay in Hv.
    by rewrite tryPlayNext_revoked in Hv.
Qed.

Lemma audio_step_accounted E s e :
  queue_inv s -> accounted E s -> accounted (E ++ handed e) (audio_step s e).
Proof.
  intros Hq Hacc.
  assert (Hin : forall a el, audios s !! a = Some el -> el ∈ audios s).
  { intros a el H. apply list_elem_of_lookup. eauto. }
  destruct e as [u r m| |u m|a|a|a|a]; cbn [handed audio_step];
    rewrite ?app_nil_r.
  - by apply enqueueAndPlay_accounted.
  - by apply stopAllAudio_accounted.
  - apply (enqueueAndPlay_accounted E u (Some false) m).
    + apply stopAllAudio_queue_inv.
    + by apply stopAllAudio_accounted.
  - unfold dispatch. destruct (audios s !! a) as [el|] eqn:Hel; [|done].
    destruct (listening el).
    + apply onEnded_accounted; [apply halt_keeps | done | eauto].
    + apply alter_accounted; [apply halt_keeps | done].
  - unfold dispatch. destruct (audios s !! a) as [el|] eqn:Hel; [|done].
    destruct (listening el).
    + apply onEnded_accounted; [apply halt_keeps | done | eauto].
    + apply alter_accounted; [apply halt_keeps | done].
  - destruct (audios s !! a) as [el|] eqn:Hel; [|done].
    destruct (playPending el); [|done].
    apply onEnded_accounted; [done | done | eauto].
  - destruct (audios s !! a) as [el|] eqn:Hel; [|done].
    destruct (playPending el); [|done].
    apply alter_accounted; [apply settlePlay_keeps | done].
Qed.

Lemma audio_run_accounted tr :
  accounted (enqueued tr) (audio_run audio_init tr).
Proof.
  induction tr as [|e tr IH] using rev_ind; [apply accounted_init|].
  unfold enqueued. rewrite flat_map_app. cbn [flat_map]. rewrite app_nil_r.
  unfold audio_run. rewrite fold_left_app. cbn [fold_left].
  apply audio_step_accounted; [|exact IH].
  apply audio_run_queue_inv, queue_inv_init.
Qed.

(** X6: Whatever the browser reports and when, a URL is handed to
    [URL.revokeObjectURL] only if it was enqueued as a one-shot entry. *)
Theorem only_one_shots_released (tr : list audio_event) (u : string) :
  u ∈ revoked (audio_run audio_init tr) -> (u, true) ∈ enqueued tr.
Proof. intros Hu. by apply (audio_run_accounted tr). Qed.

(** ** Order of playback *)

Lemma started_alter (f : element -> element) a l :
  (forall x, captured (f x) = captured x) ->
  map captured (alter f a l) = map captured l.
Proof.
  intros Hf. revert a. induction l as [|x l IH]; intros a; [done|].
  destruct a as [|a]; simpl; [by rewrite Hf|]. f_equal. apply IH.
Qed.

Lemma tryPlayNext_order s :
  started (tryPlayNext s) ++ audioQueueRef (tryPlayNext s) =
  started s ++ audioQueueRef s.
Proof.
  unfold tryPlayNext, started. destruct (isPlayingRef s); [done|].
  destruct (audioQueueRef s) as [|next rest] eqn:E; [by rewrite E|].
  cbn [audios audioQueueRef]. rewrite map_app, <- app_assoc. reflexivity.
Qed.

Lemma onEnded_order a next s :
  started (onEnded a next s) ++ audioQueueRef (onEnded a next s) =
  started s ++ audioQueueRef s.
Proof.
  unfold onEnded. rewrite tryPlayNext_order. unfold started.
  destruct (truthy (revokeAfter next)); cbn [audios audioQueueRef set_audios revokeObjectURL];
    by rewrite started_alter.
Qed.

Lemma lineup_alter (f : element -> element) a s :
  (forall x, captured (f x) = captured x) ->
  lineup (set_audios (alter f a (audios s)) s) = lineup s.
Proof.
  intros Hf. unfold lineup, started. cbn [audios audioQueueRef set_audios].
  by rewrite started_alter.
Qed.

Lemma lineup_onEnded a next s : lineup (onEnded a next s) = lineup s.
Proof. unfold lineup. by rewrite onEnded_order. Qed.

Lemma lineup_enqueue u r m s :
  lineup (enqueueAndPlay u r m s) = lineup s ++ [(u, truthy r)].
Proof.
  unfold lineup, enqueueAndPlay. rewrite tryPlayNext_order. unfold started.
  cbn [audios audioQueueRef]. by rewrite app_assoc, map_app.
Qed.

Lemma lineup_stop s : sublist (lineup (stopAllAudio s)) (lineup s).
Proof.
  rewrite stopAllAudio_spec. unfold lineup, started. cbn [audios audioQueueRef].
  rewrite app_nil_r, !map_app.
  replace (map captured match audioRef s with
                        | Some a => alter pause a (audios s)
                        | None => audios s
                        end) with (map captured (audios s)).
  - apply sublist_inserts_r. reflexivity.
  - destruct (audioRef s); [|done]. rewrite started_alter; [done|].
    intros x. apply pause_keeps.
Qed.

Lemma lineup_callback s e :
  handed e = [] -> stops e = false -> lineup (audio_step s e) = lineup s.
Proof.
  destruct e as [u r m| |u m|a|a|a|a]; try done; intros _ _; cbn [audio_step].
  - unfold dispatch. destruct (audios s !! a) as [el|]; [|done].
    destruct (listening el); [rewrite lineup_onEnded|]; by apply lineup_alter.
  - unfold dispatch. destruct (audios s !! a) as [el|]; [|done].
    destruct (listening el); [rewrite lineup_onEnded|]; by apply lineup_alter.
  - destruct (audios s !! a) as [el|]; [|done].
    destruct (playPending el); [|done]. rewrite lineup_onEnded. by apply lineup_alter.
  - destruct (audios s !! a) as [el|]; [|done].
    destruct (playPending el); [|done]. by apply lineup_alter.
Qed.

Lemma lineup_step s e :
  sublist (lineup (audio_step s e)) (lineup s ++ handed e) /\
  (stops e = false -> lineup (audio_step s e) = lineup s ++ handed e).
Proof.
  destruct e as [u r m| |u m|a|a|a|a];
    try (rewrite lineup_callback by done; cbn [handed]; rewrite app_nil_r; done).
  - cbn [audio_step handed]. rewrite lineup_enqueue. done.
  - cbn [audio_step handed]. rewrite app_nil_r. split; [apply lineup_stop | done].
  - cbn [audio_step handed]. unfold playAudioUrl. rewrite lineup_enqueue.
    split; [|done]. apply sublist_app; [apply lineup_stop | done].
Qed.

(** X7: Elements are built for the entries in the order the entries were
    handed in, whatever the browser reports and when; entries are dropped
    only by [stopAllAudio]. *)
Theorem plays_in_order (tr : list audio_event) :
  let s := audio_run audio_init tr in
  sublist (lineup s) (enqueued tr) /\
  (Forall (fun e => stops e = false) tr -> lineup s = enqueued tr).
Proof.
  induction tr as [|e tr IH] using rev_ind; [done|].
  cbn zeta in *. unfold enqueued in *. rewrite flat_map_app. cbn [flat_map].
  rewrite app_nil_r. unfold audio_run in *. rewrite fold_left_app. cbn [fold_left].
  destruct IH as [IH1 IH2].
  destruct (lineup_step (fold_left audio_step tr audio_init) e) as [H1 H2].
  split.
  - etrans; [exact H1|]. apply sublist_app; [exact IH1 | done].
  - intros Hall. apply Forall_app in Hall as [Htr He].
    apply Forall_inv in He. rewrite (H2 He). by rewrite IH2.
Qed.

(** ** What a stop settles *)

Lemma silent_playing s : silent s -> playing s = [].
Proof.
  intros H. unfold playing. apply filter_none. intros el Hin Hp.
  apply list_elem_of_lookup in Hin as [i Hi]. apply (H i el Hi).
  unfold is_playing in Hp. by destruct (status el).
Qed.

Lemma timely_solo tr : timely_run audio_init tr -> solo (audio_run audio_init tr).
Proof.
  intros Ht. apply audio_run_solo; [|done].
  intros a el Ha. cbn in Ha. by rewrite lookup_nil in Ha.
Qed.

(** X8: As long as every callback arrives while its element is the current
    one, [stopAllAudio] leaves no element playing and no one-shot URL
    unreleased: each one handed in so far has been released exactly once. *)
Theorem stop_settles_everything (tr : list audio_event) :
  timely_run audio_init tr -> one_shot_ok (enqueued tr) ->
  let s := stopAllAudio (audio_run audio_init tr) in
  playing s = [] /\
  forall u, (u, true) ∈ enqueued tr -> releases u s = 1.
Proof.
  intros Ht Hok s. split.
  - apply silent_playing, stopAllAudio_silent, timely_solo, Ht.
  - intros u Hu.
    assert (Hled : ledger (enqueued tr) s).
    { apply stopAllAudio_ledger; [|by apply audio_run_ledger|done].
      apply audio_run_queue_inv, queue_inv_init. }
    destruct Hled as (_ & _ & _ & Hc). specialize (Hc u Hu).
    unfold waiting in Hc. subst s. rewrite stopAllAudio_spec in Hc |- *.
    unfold pending in Hc. simpl in *. lia.
Qed.

(** ** The cleanup on unmount *)

Lemma revokeOneShots_refs q s :
  audioRef (revokeOneShots q s) = audioRef s /\
  isPlayingRef (revokeOneShots q s) = isPlayingRef s /\
  currentItemRef (revokeOneShots q s) = currentItemRef s /\
  audioQueueRef (revokeOneShots q s) = audioQueueRef s /\
  playingMsgId (revokeOneShots q s) = playingMsgId s /\
  audios (revokeOneShots q s) = audios s /\
  next_oid (revokeOneShots q s) = next_oid s.
Proof.
  revert s. induction q as [|it q IH]; intros s; simpl; [tauto|].
  match goal with |- context [revokeOneShots q ?s'] =>
    destruct (IH s') as (-> & -> & -> & -> & -> & -> & ->) end.
  destruct (truthy (revokeAfter it)); simpl; tauto.
Qed.

Lemma revokeOneShots_revoked q s :
  revoked (revokeOneShots q s) =
  revoked s ++ map url (filter (fun it => truthy (revokeAfter it) = true) q).
Proof.
  revert s. induction q as [|it q IH]; intros s; simpl.
  - by rewrite app_nil_r.
  - rewrite IH. destruct (truthy (revokeAfter it)) eqn:E.
    + rewrite filter_cons_True by done. simpl. by rewrite <- app_assoc.
    + rewrite filter_cons_False by (rewrite E; done). done.
Qed.

Lemma cleanup_spec s :
  cleanup s =
  AudioState None false (currentItemRef s) [] (playingMsgId s)
    (match audioRef s with
     | Some a => alter pause a (audios s)
     | None => audios s
     end)
    (revoked s ++
     map url (filter (fun it => truthy (revokeAfter it) = true) (audioQueueRef s)))
    (next_oid s).
Proof.
  unfold cleanup.
  match goal with |- context [revokeOneShots ?q ?s0] =>
    pose proof (revokeOneShots_refs q s0) as (H1 & H2 & H3 & H4 & H5 & H6 & H7);
    pose proof (revokeOneShots_revoked q s0) as H8 end.
  cbn [audioRef isPlayingRef currentItemRef audioQueueRef playingMsgId audios
       revoked next_oid] in *.
  rewrite H1, H3, H5, H6, H7, H8.
  destruct s as [ar ip cur q pm els rv n]; destruct ar; reflexivity.
Qed.

Lemma count_one_shots v l :
  (forall it, it ∈ l -> url it = v -> truthy (revokeAfter it) = true) ->
  length (filter (fun w => w = v)
            (map url (filter (fun it => truthy (revokeAfter it) = true) l))) =
  length (filter (fun it => url it = v) l).
Proof.
  induction l as [|it l IH]; intros Hl; [done|].
  assert (IH' := IH (fun x Hx => Hl x (list_elem_of_further _ _ _ Hx))).
  destruct (decide (url it = v)) as [Hv|Hv].
  - rewrite (filter_cons_True (fun it => url it = v)) by done.
    rewrite filter_cons_True by (apply Hl; [apply list_elem_of_here | done]).
    cbn [map]. rewrite filter_cons_True by done. cbn [length]. by rewrite IH'.
  - rewrite (filter_cons_False (fun it => url it = v)) by done.
    destruct (truthy (revokeAfter it)) eqn:Hb.
    + rewrite filter_cons_True by done. cbn [map].
      by rewrite filter_cons_False by done.
    + rewrite filter_cons_False by (rewrite Hb; done). done.
Qed.

(** X9: As long as every callback arrives while its element is the current
    one, the cleanup on unmount leaves no element playing and releases the
    one-shot URLs that are queued; the one-shot URL of the entry that is
    current is not released by it. *)
Theorem cleanup_on_unmount (tr : list audio_event) :
  timely_run audio_init tr -> one_shot_ok (enqueued tr) ->
  let s := audio_run audio_init tr in
  playing (cleanup s) = [] /\
  audioQueueRef (cleanup s) = [] /\
  forall u, (u, true) ∈ enqueued tr ->
    releases u (cleanup s) =
      if decide (url <$> currentItemRef s = Some u) then 0 else 1.
Proof.
  intros Ht Hok s. rewrite cleanup_spec. split; [|split; [done|]].
  - apply filter_none. intros el Hin Hp. cbn [audios] in Hin.
    apply list_elem_of_lookup in Hin as [i Hi].
    assert (Hsolo := timely_solo tr Ht). fold s in Hsolo.
    assert (status el <> Playing) as Hne.
    { destruct (audioRef s) as [a|] eqn:Ha.
      - eapply (solo_alter_silent pause a s); eauto.
        intros el0. unfold pause. by destruct (status el0) eqn:E; simpl; rewrite ?E.
      - intros Hpl. destruct (Hsolo i el Hi Hpl) as [Hr _]. congruence. }
    unfold is_playing in Hp. by destruct (status el).
  - intros u Hu.
    destruct (audio_run_ledger tr Ht Hok) as (_ & Hp & _ & Hc). fold s in Hp, Hc.
    specialize (Hc u Hu). unfold releases, waiting, pending in *.
    cbn [revoked]. rewrite filter_app, length_app, count_one_shots.
    2:{ intros it Hit Hv. apply (one_shot_same_flag (enqueued tr) u); [done|done|].
        rewrite <- Hv. apply Hp. unfold pending. apply elem_of_app. by right. }
    rewrite filter_app, length_app in Hc.
    destruct (currentItemRef s) as [cur|]; cbn [fmap option_fmap option_map].
    + destruct (decide (url cur = u)) as [Hv|Hv].
      * rewrite decide_True by (by rewrite Hv).
        rewrite filter_cons_True in Hc by done. simpl in Hc. lia.
      * rewrite decide_False by congruence.
        rewrite filter_cons_False in Hc by done. simpl in Hc. lia.
    + rewrite decide_False by done. simpl in Hc. lia.
Qed.

Section Proofs.

Context {platform : Platform}.

(** * Properties of the chat handlers *)

(** ** The guard of [onSendText] *)

Lemma trimStart_blank s : blank s = true -> trimStart s = "".
Proof.
  induction s as [|c s IH]; simpl; [done|].
  intros [Hc Hs]%andb_true_iff. rewrite Hc. auto.
Qed.

Lemma trimEnd_keeps c s : is_space c = false -> trimEnd (String c s) <> "".
Proof. intros Hc. simpl. destruct (trimEnd s); by rewrite ?Hc. Qed.

Lemma trimStart_head s :
  trimStart s = "" \/ exists c t, trimStart s = String c t /\ is_space c = false.
Proof.
  induction s as [|c s IH]; simpl; [by left|].
  destruct (is_space c) eqn:Hc; [done|]. right. eauto.
Qed.

Lemma trimStart_empty s : trimStart s = "" -> blank s = true.
Proof.
  induction s as [|c s IH]; simpl; [done|].
  destruct (is_space c); [auto | done].
Qed.

(** [!input.trim()] holds exactly of the strings that are empty or white
    space only. *)
Lemma trim_empty_iff s : trim s = "" <-> blank s = true.
Proof.
  unfold trim. split.
  - intros H. destruct (trimStart_head s) as [E|(c & t & E & Hc)].
    + by apply trimStart_empty.
    + rewrite E in H. by destruct (trimEnd_keeps c t Hc).
  - intros H. by rewrite trimStart_blank.
Qed.

(** C10: when the input is empty or holds only white space, [onSendText]
    returns at its guard: the state after it is the state before it, so no
    message is appended, no request is made, and neither the playback queue
    nor a running stream is touched. *)
Theorem send_blank_is_noop (s : state) (uid aid : string) (now : Z) :
  blank (input s) = true ->
  step s (SendText uid aid now) = s.
Proof.
  intros H. cbn [step]. unfold onSendText.
  apply trim_empty_iff in H. by rewrite H.
Qed.

(** ** The request of a streamed reply *)

Lemma after_abort_sessions_length victim s :
  length (sessions (after_abort victim s)) = length (sessions s).
Proof.
  unfold after_abort. destruct victim as [k|]; [|done].
  destruct (sessions s !! k) as [ss|]; [|done].
  destruct (ss_aborted ss && negb (is_closed (ss_phase ss))); [|done].
  simpl. by rewrite length_alter.
Qed.

Lemma after_abort_request victim s i :
  ss_request <$> sessions (after_abort victim s) !! i =
  ss_request <$> sessions s !! i.
Proof.
  unfold after_abort. destruct victim as [k|]; [|done].
  destruct (sessions s !! k) as [ss|]; [|done].
  destruct (ss_aborted ss && negb (is_closed (ss_phase ss))); [|done].
  simpl. rewrite list_lookup_alter. case_decide; [subst|done].
  by destruct (sessions s !! i).
Qed.

Lemma stopStreaming_sessions_length s :
  length (sessions (stopStreaming s)) = length (sessions s).
Proof.
  unfold stopStreaming. destruct (streamAbortRef s); [|done].
  simpl. by rewrite length_alter.
Qed.

Lemma stopStreaming_request s i :
  ss_request <$> sessions (stopStreaming s) !! i = ss_request <$> sessions s !! i.
Proof.
  unfold stopStreaming. destruct (streamAbortRef s) as [k|]; [|done].
  simpl. rewrite list_lookup_alter. case_decide; [subst|done].
  by destruct (sessions s !! i).
Qed.

(** C8 (amended): a send with a non-blank input makes exactly one request:
    a POST to [API_BASE/chat/stream] whose JSON body holds the fixed user id
    ['demo'] and the trimmed input, and nothing else; the requests made
    before stay as they were. *)
Theorem send_request_shape (s : state) (uid aid : string) (now : Z) :
  blank (input s) = false ->
  let s' := step s (SendText uid aid now) in
  length (sessions s') = S (length (sessions s)) /\
  ss_request <$> sessions s' !! length (sessions s) =
    Some (stream_request (trim (input s))) /\
  forall i, i < length (sessions s) ->
    ss_request <$> sessions s' !! i = ss_request <$> sessions s !! i.
Proof.
  intros Hb. cbn [step]. unfold onSendText.
  destruct (string_eqb (trim (input s)) "") eqn:E.
  { apply string_eqb_eq, trim_empty_iff in E. congruence. }
  set (s4 := with_audio _ _).
  assert (length (sessions (stopStreaming s4)) = length (sessions s)) as Hlen
    by (by rewrite stopStreaming_sessions_length).
  split; [|split].
  - rewrite after_abort_sessions_length. fields. rewrite length_app, Hlen. cbn [length]. lia.
  - rewrite after_abort_request. fields.
    rewrite lookup_app_r by lia. rewrite Hlen. by rewrite Nat.sub_diag.
  - intros i Hi. rewrite after_abort_request. fields.
    rewrite lookup_app_l by lia. by rewrite stopStreaming_request.
Qed.

(** ** The read loop *)

Lemma is_str_true k v : is_str k v = true <-> v = Some (JStr k).
Proof.
  destruct v as [[]|]; cbn; try (split; congruence).
  rewrite string_eqb_eq. split; congruence.
Qed.

(** X10: Which lines the loop takes for a delta: those that start with
    ['data: '] and continue with JSON text for an object whose [type] is the
    string ['delta'] and whose [text] is truthy and can be appended; what is
    appended is [text] as a string. *)
Lemma classify_delta (line t : string) :
  classify line = Delta t <->
  exists rest fields v,
    line = "data: " +:+ rest /\
    JSON_parse rest = Some (JObj fields) /\
    assoc "type" fields = Some (JStr "delta") /\
    assoc "text" fields = Some v /\
    truthy_val (Some v) = true /\
    toString v = Some t.
Proof.
  unfold classify. split.
  - destruct (startsWith "data: " line) eqn:Hp; [|done].
    apply startsWith_spec in Hp as [rest ->].
    change 6 with (string_length "data: "). rewrite slice_append.
    destruct (JSON_parse rest) as [evt|] eqn:He; [|done].
    destruct evt as [|b|nz sh|s|l|fields]; cbn [prop is_str andb truthy_val]; try done.
    destruct (is_str "delta" (assoc "type" fields)) eqn:Hty.
    + apply is_str_true in Hty.
      destruct (truthy_val (assoc "text" fields)) eqn:Htx; cbn [andb].
      * destruct (assoc "text" fields) as [v|] eqn:Hv; [|done].
        destruct (toString v) as [t'|] eqn:Ht; [|done].
        intros [= <-]. by exists rest, fields, v.
      * rewrite Hty. cbn. done.
    + cbn [andb]. by destruct (is_str "end" _).
  - intros (rest & fields & v & -> & He & Hty & Hv & Htx & Ht).
    assert (startsWith "data: " ("data: " +:+ rest) = true) as ->
      by (apply startsWith_spec; eauto).
    change 6 with (string_length "data: "). rewrite slice_append, He.
    cbn [prop]. rewrite Hty, Hv. cbn [is_str]. rewrite string_eqb_refl, Htx.
    cbn [andb]. by rewrite Ht.
Qed.

Lemma append_assoc (a b c : string) : (a +:+ b) +:+ c = a +:+ (b +:+ c).
Proof.
  induction a as [|x a IH]; [done|].
  change (String x ((a +:+ b) +:+ c) = String x (a +:+ (b +:+ c))).
  by rewrite IH.
Qed.

Lemma append_empty_r (a : string) : a +:+ "" = a.
Proof.
  induction a as [|x a IH]; [done|].
  change (String x (a +:+ "") = String x a). by rewrite IH.
Qed.

Lemma set_text_set_text i t1 t2 ms :
  set_text i t2 (set_text i t1 ms) = set_text i t2 ms.
Proof.
  unfold set_text. rewrite map_map. apply map_ext. intros msg.
  destruct (string_eqb (m_id msg) i) eqn:E; cbn [m_id]; by rewrite E.
Qed.

(** The loop over the lines of the call [sid], whose locals are [ss]. *)
Lemma on_lines_spec sid ss lines s :
  sessions s !! sid = Some ss ->
  fold_left (on_line sid) lines s =
  match delta_texts lines with
  | [] => s
  | _ =>
      let txt := ss_text ss +:+ concat_text (delta_texts lines) in
      with_messages (set_text (ss_msg ss) txt (messages s))
        (with_sessions
           (<[sid := Session (ss_request ss) (ss_msg ss) txt (ss_aborted ss) (ss_phase ss)]>
              (sessions s)) s)
  end.
Proof.
  revert s ss. induction lines as [|line lines IH]; intros s ss Hs; [done|].
  cbn [fold_left]. unfold delta_texts. cbn [flat_map]. fold (delta_texts lines).
  unfold on_line at 2. destruct (classify line) as [t| |]; cbn [app];
    try by apply IH.
  unfold apply_delta. rewrite Hs.
  set (ss1 := Session _ _ _ _ _).
  set (s1 := with_messages _ _).
  assert (sessions s1 !! sid = Some ss1) as Hs1.
  { subst s1. fields. apply list_lookup_insert_eq. by eapply lookup_lt_Some. }
  rewrite (IH s1 ss1 Hs1). subst s1 ss1. fields. cbn [ss_text ss_msg ss_request ss_aborted ss_phase].
  destruct (delta_texts lines) as [|t' ts].
  - cbn [concat_text fold_right]. by rewrite append_empty_r.
  - cbv zeta. rewrite set_text_set_text, list_insert_insert_eq.
    cbn [concat_text fold_right]. by rewrite append_assoc.
Qed.

Lemma delta_texts_app l1 l2 : delta_texts (l1 ++ l2) = delta_texts l1 ++ delta_texts l2.
Proof. unfold delta_texts. by rewrite flat_map_app. Qed.

Lemma fold_left_app_lines sid l1 l2 s :
  fold_left (on_line sid) (l1 ++ l2) s =
  fold_left (on_line sid) l2 (fold_left (on_line sid) l1 s).
Proof. apply fold_left_app. Qed.

Lemma on_lines_phase sid ss lines s :
  sessions s !! sid = Some ss ->
  exists ss', sessions (fold_left (on_line sid) lines s) !! sid = Some ss' /\
              ss_phase ss' = ss_phase ss.
Proof.
  intros Hs. rewrite (on_lines_spec sid ss lines s Hs).
  destruct (delta_texts lines); [eauto|]. fields.
  eexists. split; [apply list_lookup_insert_eq; by eapply lookup_lt_Some | done].
Qed.

(** While the call is reading, the chunks are processed line by line, as
    one sequence of lines. *)
Lemma run_chunks sid ss cs s :
  sessions s !! sid = Some ss -> ss_phase ss = Reading ->
  run s (chunks sid cs) = fold_left (on_line sid) (flat_map split_lines cs) s.
Proof.
  revert s ss. induction cs as [|c cs IH]; intros s ss Hs Hp; [done|].
  cbn [chunks map run fold_left flat_map]. rewrite fold_left_app_lines.
  cbn [step]. unfold onRead. rewrite Hs, Hp. unfold on_chunk.
  destruct (on_lines_phase sid ss (split_lines c) s Hs) as (ss' & Hs' & Hp').
  apply (IH _ ss' Hs'). congruence.
Qed.

(** X11: The read loop: while a call of [onSendText] reads its response, the
    text it has accumulated is what it started from followed by the text
    fields of the delta events, in arrival order, over all lines of all
    chunks; the message it fills shows that text; every other line (not
    prefixed, not JSON, another event, an end event) changes nothing and
    leaves the call reading.  The call returns when the reader reports
    done, and only then: it becomes closed, [loading] is reset and the
    abort handle dropped, no error is shown, and nothing read for it later
    has any effect. *)
Theorem stream_accumulates (s : state) (sid : nat) (ss : stream_session)
    (cs : list string) :
  sessions s !! sid = Some ss -> ss_phase ss = Reading ->
  let lines := flat_map split_lines cs in
  let txt := ss_text ss +:+ concat_text (delta_texts lines) in
  let s1 := run s (chunks sid cs) in
  let s2 := step s1 (ReadSettled sid Done) in
  (sessions s1 !! sid =
     Some (Session (ss_request ss) (ss_msg ss) txt (ss_aborted ss) Reading) /\
   messages s1 = match delta_texts lines with
                 | [] => messages s
                 | _ => set_text (ss_msg ss) txt (messages s)
                 end /\
   loading s1 = loading s /\ streamAbortRef s1 = streamAbortRef s /\
   toasts s1 = toasts s) /\
  (sessions s2 !! sid =
     Some (Session (ss_request ss) (ss_msg ss) txt (ss_aborted ss) (Closed true)) /\
   messages s2 = messages s1 /\ loading s2 = false /\
   streamAbortRef s2 = None /\ toasts s2 = toasts s) /\
  (forall r, step s2 (ReadSettled sid r) = s2).
Proof.
  intros Hs Hp lines txt s1 s2.
  assert (s1 = fold_left (on_line sid) lines s) as E1
    by (by apply (run_chunks sid ss)).
  rewrite (on_lines_spec sid ss lines s Hs) in E1.
  assert (sessions s1 !! sid =
            Some (Session (ss_request ss) (ss_msg ss) txt (ss_aborted ss) Reading)
          /\ messages s1 = match delta_texts lines with
                           | [] => messages s
                           | _ => set_text (ss_msg ss) txt (messages s)
                           end
          /\ loading s1 = loading s /\ streamAbortRef s1 = streamAbortRef s
          /\ toasts s1 = toasts s) as H1.
  { rewrite E1. subst txt. destruct (delta_texts lines) as [|t ts].
    - cbn [concat_text fold_right]. rewrite append_empty_r, Hs, <- Hp.
      by destruct ss.
    - fields. rewrite Hp. repeat split.
      apply list_lookup_insert_eq. by eapply lookup_lt_Some. }
  destruct H1 as (Hs1 & Hm1 & Hl1 & Hr1 & Ht1).
  assert (sessions s2 !! sid =
            Some (Session (ss_request ss) (ss_msg ss) txt (ss_aborted ss) (Closed true))
          /\ messages s2 = messages s1 /\ loading s2 = false
          /\ streamAbortRef s2 = None /\ toasts s2 = toasts s) as H2.
  { subst s2. cbn [step]. unfold onRead. rewrite Hs1. cbn [ss_phase].
    unfold stream_done, close. fields. repeat split; [|done].
    rewrite list_lookup_alter, decide_True by done. by rewrite Hs1. }
  split; [done|]. split; [done|].
  intros r. cbn [step]. unfold onRead.
  destruct H2 as (-> & _). done.
Qed.

(** ** Calls that have returned stay as they are *)

Lemma lookup_alter_Some {A} (f : A -> A) (l : list A) (i j : nat) (x : A) :
  l !! j = Some x ->
  alter f i l !! j = Some (if decide (i = j) then f x else x).
Proof.
  intros H. rewrite list_lookup_alter. case_decide; subst; by rewrite ?H.
Qed.

Lemma same_reply_refl ss : same_reply ss ss.
Proof. done. Qed.

Lemma same_reply_trans a b c : same_reply a b -> same_reply b c -> same_reply a c.
Proof. unfold same_reply. intros (?&?&?&?) (?&?&?&?). repeat split; congruence. Qed.

Lemma stopStreaming_session s k ss :
  sessions s !! k = Some ss ->
  exists ss', sessions (stopStreaming s) !! k = Some ss' /\ same_reply ss ss'.
Proof.
  intros H. unfold stopStreaming. destruct (streamAbortRef s) as [r|]; fields.
  - rewrite (lookup_alter_Some _ _ _ _ _ H). eexists. split; [done|].
    case_decide; done.
  - eauto using same_reply_refl.
Qed.

Lemma after_abort_session victim s k ss :
  sessions s !! k = Some ss -> is_closed (ss_phase ss) = true ->
  sessions (after_abort victim s) !! k = Some ss.
Proof.
  intros H Hc. unfold after_abort. destruct victim as [v|]; [|done].
  destruct (sessions s !! v) as [sv|] eqn:Hv; [|done].
  destruct (ss_aborted sv && negb (is_closed (ss_phase sv))) eqn:E; [|done].
  unfold stream_fail, close. fields.
  rewrite (lookup_alter_Some _ _ _ _ _ H). case_decide; [subst|done].
  rewrite H in Hv. injection Hv as <-. rewrite Hc in E.
  by rewrite andb_false_r in E.
Qed.

Lemma stream_frame s e :
  stream_neutral e = true ->
  sessions (step s e) = sessions s /\
  streamAbortRef (step s e) = streamAbortRef s /\
  input (step s e) = input s.
Proof.
  intros He. destruct e; try done; cbn [step];
    unfold onMicSettled, onDataAvailable, cancelRecording, confirmRecording,
      stop_current, onstop, onSendVoice, stop_tracks, onVoiceFetched,
      onVoiceBlob, voice_return, stop_tracks, speakText, onSpeakFetched,
      onSpeakBlob;
    split_matches; fields; done.
Qed.

Lemma closed_frozen_step s e k ss :
  sessions s !! k = Some ss -> is_closed (ss_phase ss) = true ->
  exists ss', sessions (step s e) !! k = Some ss' /\ same_reply ss ss'.
Proof.
  intros H Hc.
  destruct (stream_neutral e) eqn:He.
  { destruct (stream_frame s e He) as (-> & _). eauto using same_reply_refl. }
  destruct e; try done; cbn [step].
  - (* InputChange *)
    unfold onInputChange. set (s1 := with_audio _ _).
    destruct (stopStreaming_session s1 k ss H) as (ss' & H' & Hr).
    exists ss'. split; [|done]. apply after_abort_session; [done|].
    destruct Hr as (_&_&_&->). done.
  - (* SendText *)
    unfold onSendText. destruct (string_eqb _ _); [eauto using same_reply_refl|].
    set (s4 := with_audio _ _).
    destruct (stopStreaming_session s4 k ss H) as (ss' & H' & Hr).
    exists ss'. split; [|done]. apply after_abort_session.
    + fields. rewrite lookup_app_l; [done|]. by eapply lookup_lt_Some.
    + destruct Hr as (_&_&_&->). done.
  - (* FetchSettled *)
    unfold onFetchSettled.
    destruct (sessions s !! sid) as [sv|] eqn:Hv; [|eauto using same_reply_refl].
    destruct (ss_phase sv) eqn:Hp; try eauto using same_reply_refl.
    assert (sid <> k) as Hne.
    { intros ->. rewrite H in Hv. injection Hv as <-. by rewrite Hp in Hc. }
    destruct r as [[[] []]|]; unfold stream_fail, close; fields;
      rewrite (lookup_alter_Some _ _ _ _ _ H), decide_False by done;
      eauto using same_reply_refl.
  - (* ReadSettled *)
    unfold onRead.
    destruct (sessions s !! sid) as [sv|] eqn:Hv; [|eauto using same_reply_refl].
    destruct (ss_phase sv) eqn:Hp; try eauto using same_reply_refl.
    assert (sid <> k) as Hne.
    { intros ->. rewrite H in Hv. injection Hv as <-. by rewrite Hp in Hc. }
    destruct r as [c| |].
    + unfold on_chunk. rewrite (on_lines_spec sid sv _ s Hv).
      destruct (delta_texts _); [eauto using same_reply_refl|]. fields.
      rewrite list_lookup_insert_ne by done. eauto using same_reply_refl.
    + unfold stream_done, close. fields.
      rewrite (lookup_alter_Some _ _ _ _ _ H), decide_False by done.
      eauto using same_reply_refl.
    + unfold stream_fail, close. fields.
      rewrite (lookup_alter_Some _ _ _ _ _ H), decide_False by done.
      eauto using same_reply_refl.
  - (* ToggleRecord *)
    unfold onToggleRecord. destruct (recording s); [eauto using same_reply_refl|].
    set (s1 := with_audio _ _).
    destruct (stopStreaming_session s1 k ss H) as (ss' & H' & Hr).
    exists ss'. split; [|done]. apply after_abort_session; [done|].
    destruct Hr as (_&_&_&->). done.
Qed.

(** ** Message ids

    The ids [crypto.randomUUID()] returns are inputs of the model; what
    follows holds when they are fresh, as random UUIDs are: different from
    each other and from every id already in the message list. *)

Lemma texts_of_app i ms1 ms2 :
  texts_of i (ms1 ++ ms2) = texts_of i ms1 ++ texts_of i ms2.
Proof. unfold texts_of. by rewrite filter_app, map_app. Qed.

Lemma texts_of_set_text_ne i j t ms :
  i <> j -> texts_of i (set_text j t ms) = texts_of i ms.
Proof.
  intros Hne. unfold texts_of, set_text.
  induction ms as [|msg ms IH]; [done|]. cbn [map].
  destruct (string_eqb (m_id msg) j) eqn:E.
  - apply string_eqb_eq in E.
    rewrite !filter_cons_False by (cbn [m_id]; congruence). done.
  - rewrite !filter_cons. destruct (decide (m_id msg = i)); cbn [map]; by rewrite IH.
Qed.

Lemma texts_of_set_audioUrl i j u ms :
  texts_of i (set_audioUrl j u ms) = texts_of i ms.
Proof.
  unfold texts_of, set_audioUrl.
  induction ms as [|msg ms IH]; [done|]. cbn [map].
  destruct (string_eqb (m_id msg) j);
    rewrite !filter_cons; cbn [m_id];
    destruct (decide (m_id msg = i)); cbn [map m_text]; by rewrite IH.
Qed.

Lemma texts_of_two i u a r1 r2 t1 t2 o1 o2 n1 n2 :
  i <> u -> i <> a ->
  texts_of i [Msg u r1 t1 o1 n1; Msg a r2 t2 o2 n2] = [].
Proof.
  intros Hu Ha. unfold texts_of.
  rewrite filter_cons_False by (cbn [m_id]; congruence).
  rewrite filter_cons_False by (cbn [m_id]; congruence). done.
Qed.

Lemma ids_set_text i t ms : m_id <$> set_text i t ms = m_id <$> ms.
Proof.
  unfold set_text. induction ms as [|msg ms IH]; [done|].
  cbn [map fmap list_fmap]. f_equal; [|exact IH].
  by destruct (string_eqb (m_id msg) i).
Qed.

Lemma ids_set_audioUrl i u ms : m_id <$> set_audioUrl i u ms = m_id <$> ms.
Proof.
  unfold set_audioUrl. induction ms as [|msg ms IH]; [done|].
  cbn [map fmap list_fmap]. f_equal; [|exact IH].
  by destruct (string_eqb (m_id msg) i).
Qed.

Lemma fmap_alter_keep {A B} (g : A -> B) (f : A -> A) (k : nat) (l : list A) :
  (forall x, g (f x) = g x) -> g <$> alter f k l = g <$> l.
Proof.
  intros H. revert k. induction l as [|x l IH]; intros k; [done|].
  destruct k as [|k]; cbn; [by rewrite H | by rewrite IH].
Qed.

Lemma fmap_insert_keep {A B} (g : A -> B) (k : nat) (x y : A) (l : list A) :
  l !! k = Some y -> g x = g y -> g <$> <[k:=x]> l = g <$> l.
Proof.
  revert k. induction l as [|z l IH]; intros k Hk Hg; [done|].
  destruct k as [|k]; cbn in *.
  - injection Hk as ->. by rewrite Hg.
  - by rewrite IH.
Qed.

Lemma stopStreaming_frame s :
  messages (stopStreaming s) = messages s /\
  voices (stopStreaming s) = voices s /\
  ss_msg <$> sessions (stopStreaming s) = ss_msg <$> sessions s.
Proof.
  unfold stopStreaming. destruct (streamAbortRef s); fields; [|done].
  repeat split. by apply fmap_alter_keep.
Qed.

Lemma after_abort_frame v s :
  messages (after_abort v s) = messages s /\
  voices (after_abort v s) = voices s /\
  ss_msg <$> sessions (after_abort v s) = ss_msg <$> sessions s.
Proof.
  unfold after_abort. destruct v as [k|]; [|done].
  destruct (sessions s !! k) as [ss|]; [|done].
  destruct (ss_aborted ss && negb (is_closed (ss_phase ss))); [|done].
  unfold stream_fail, close. fields. repeat split. by apply fmap_alter_keep.
Qed.

Lemma on_chunk_frame sid c s :
  ids (on_chunk sid c s) = ids s /\
  voices (on_chunk sid c s) = voices s /\
  ss_msg <$> sessions (on_chunk sid c s) = ss_msg <$> sessions s.
Proof.
  unfold on_chunk, ids.
  destruct (sessions s !! sid) as [ss|] eqn:Hs.
  - rewrite (on_lines_spec sid ss _ s Hs). destruct (delta_texts _); [done|].
    fields. rewrite ids_set_text. repeat split.
    by apply (fmap_insert_keep _ _ _ ss).
  - assert (forall lines, fold_left (on_line sid) lines s = s) as ->; [|done].
    induction lines as [|l lines IH]; [done|]. cbn [fold_left].
    unfold on_line at 2, apply_delta. rewrite Hs.
    by destruct (classify l).
Qed.

Lemma voice_ids_alter p (v : nat) (l : list voice_task) :
  voice_ids <$> alter (set_voice_progress p) v l = voice_ids <$> l.
Proof. by apply fmap_alter_keep. Qed.

Lemma step_ids s e :
  ids (step s e) = ids s ++ sends s e /\
  ss_msg <$> sessions (step s e) = (ss_msg <$> sessions s) ++ new_reply s e /\
  concat (voice_ids <$> voices (step s e)) =
    concat (voice_ids <$> voices s) ++ new_voice s e.
Proof.
  unfold ids.
  destruct e; cbn [step sends new_reply new_voice].
  - (* InputChange *)
    unfold onInputChange.
    destruct (after_abort_frame (streamAbortRef s)
                (stopStreaming (with_audio (stopAllAudio (audio s)) (with_input v s))))
      as (-> & -> & ->).
    destruct (stopStreaming_frame (with_audio (stopAllAudio (audio s)) (with_input v s)))
      as (-> & -> & ->).
    fields. by rewrite !app_nil_r.
  - (* SendText *)
    unfold onSendText. destruct (string_eqb _ _); [by rewrite !app_nil_r|].
    match goal with |- context [after_abort ?v ?t] =>
      destruct (after_abort_frame v t) as (-> & -> & ->) end.
    fields. rewrite fmap_app.
    match goal with |- context [stopStreaming ?t] =>
      destruct (stopStreaming_frame t) as (-> & -> & ->) end.
    fields. rewrite fmap_app. by rewrite !app_nil_r.
  - (* FetchSettled *)
    unfold onFetchSettled. split_matches; unfold stream_fail, close; fields;
      rewrite ?app_nil_r, ?fmap_alter_keep by done; done.
  - (* ReadSettled *)
    unfold onRead. split_matches; try (by rewrite !app_nil_r).
    + destruct (on_chunk_frame sid text s) as (E & -> & ->). unfold ids in E.
      by rewrite E, !app_nil_r.
    + unfold stream_done, close; fields.
      by rewrite ?app_nil_r, ?fmap_alter_keep by done.
    + unfold stream_fail, close; fields.
      by rewrite ?app_nil_r, ?fmap_alter_keep by done.
  - (* ToggleRecord *)
    unfold onToggleRecord. destruct (recording s); [by rewrite !app_nil_r|].
    match goal with |- context [after_abort ?v ?t] =>
      destruct (after_abort_frame v t) as (-> & -> & ->) end.
    fields.
    match goal with |- context [stopStreaming ?t] =>
      destruct (stopStreaming_frame t) as (-> & -> & ->) end.
    fields. by rewrite !app_nil_r.
  - unfold onMicSettled. split_matches; fields; by rewrite !app_nil_r.
  - unfold onDataAvailable. split_matches; fields; by rewrite !app_nil_r.
  - unfold cancelRecording, stop_current. split_matches; fields; by rewrite !app_nil_r.
  - unfold confirmRecording, stop_current. split_matches; fields; by rewrite !app_nil_r.
  - (* RecorderStopped *)
    unfold onstop, onSendVoice, stop_tracks.
    destruct (recorders s !! r) as [rc|]; [|by rewrite !app_nil_r].
    destruct (r_stopPending rc); [|by rewrite !app_nil_r].
    fields. destruct (recordActionRef s); fields.
    + rewrite !fmap_app, concat_app. cbn. by rewrite !app_nil_r.
    + by rewrite !app_nil_r.
  - unfold onVoiceFetched, voice_return, stop_tracks. split_matches; fields;
      rewrite ?ids_set_text, ?voice_ids_alter, ?app_nil_r; done.
  - unfold onVoiceBlob, voice_return, stop_tracks. split_matches; fields;
      rewrite ?ids_set_audioUrl, ?voice_ids_alter, ?app_nil_r; done.
  - unfold speakText. fields. by rewrite !app_nil_r.
  - unfold onSpeakFetched. split_matches; fields; by rewrite !app_nil_r.
  - unfold onSpeakBlob. split_matches; fields; by rewrite !app_nil_r.
  - fields. by rewrite !app_nil_r.
Qed.

Lemma wf_init t0 : wf (init t0).
Proof. split; [constructor | by intros i Hi; apply elem_of_nil in Hi]. Qed.

Lemma wf_step s e : wf s -> fresh s e -> wf (step s e).
Proof.
  intros [Hnd Hsub] Hf. unfold wf, targets in *.
  destruct (step_ids s e) as (Hids & Hmsg & Hvoice).
  rewrite Hids, Hmsg, Hvoice.
  assert (new_reply s e ++ new_voice s e = [] \/
          exists u a, sends s e = [u; a] /\ u <> a /\ (u ∉ ids s) /\ (a ∉ ids s) /\
                      (new_reply s e ++ new_voice s e = [a] \/
                       new_reply s e ++ new_voice s e = [u; a])) as Hnew.
  { destruct e; cbn [new_reply new_voice sends fresh] in *; auto.
    - destruct (string_eqb _ _); [by left|]. right.
      destruct Hf as (?&?&?). exists uid, aid. auto 10.
    - destruct (recorders s !! r) as [rc|]; [|by left].
      destruct (r_stopPending rc); [|by left].
      destruct (recordActionRef s); [|by left]. right.
      destruct Hf as (?&?&?). exists uid, aid. auto 10. }
  set (A := ss_msg <$> sessions s) in *.
  set (B := concat (voice_ids <$> voices s)) in *.
  assert (((A ++ new_reply s e) ++ B ++ new_voice s e)
            ≡ₚ (A ++ B) ++ (new_reply s e ++ new_voice s e)) as Hperm.
  { rewrite <- !app_assoc. apply Permutation_app_head.
    rewrite !app_assoc. apply Permutation_app_tail, Permutation_app_comm. }
  split.
  - rewrite Hperm. apply NoDup_app. split; [done|].
    destruct Hnew as [->|(u & a & Hs & Hua & Hu & Ha & [->| ->])].
    + split; [by intros ?? ?%elem_of_nil | constructor].
    + split; [|apply NoDup_singleton].
      intros x Hx ->%list_elem_of_singleton. by apply Ha, Hsub.
    + split.
      * intros x Hx Hx'. apply Hsub in Hx.
        apply elem_of_cons in Hx' as [->|Hx']; [done|].
        apply list_elem_of_singleton in Hx' as ->. done.
      * apply NoDup_cons. split; [|apply NoDup_singleton].
        by intros ?%list_elem_of_singleton.
  - intros i Hi. rewrite Hperm in Hi. apply elem_of_app in Hi as [Hi|Hi].
    + apply elem_of_app. left. by apply Hsub.
    + apply elem_of_app. right.
      destruct Hnew as [E|(u & a & Hs & Hua & Hu & Ha & [E|E])];
        rewrite E in Hi; rewrite ?Hs.
      * by apply elem_of_nil in Hi.
      * apply list_elem_of_singleton in Hi as ->. right. left.
      * done.
Qed.

Lemma wf_run tr s : wf s -> fresh_run s tr -> wf (run s tr).
Proof.
  revert s. induction tr as [|e tr IH]; intros s Hw Hf; [done|].
  destruct Hf as [Hf Hfr]. cbn [run fold_left]. apply IH; [|done].
  by apply wf_step.
Qed.

Lemma distinct_replies s i j si sj :
  wf s -> sessions s !! i = Some si -> sessions s !! j = Some sj ->
  i <> j -> ss_msg si <> ss_msg sj.
Proof.
  intros [Hnd _] Hi Hj Hne E. unfold targets in Hnd.
  apply NoDup_app in Hnd as (Hnd & _ & _).
  apply Hne. eapply (NoDup_lookup _ i j (ss_msg si) Hnd);
    rewrite list_lookup_fmap; [by rewrite Hi | by rewrite Hj, E].
Qed.

Lemma elem_of_concat_2 {A} (x : A) (l : list A) (ls : list (list A)) :
  x ∈ l -> l ∈ ls -> x ∈ concat ls.
Proof.
  intros Hx Hl. induction Hl as [l ls|l l' ls Hl IH]; cbn [concat];
    apply elem_of_app; auto.
Qed.

Lemma reply_not_voice s k ss v t :
  wf s -> sessions s !! k = Some ss -> voices s !! v = Some t ->
  ss_msg ss <> v_user t /\ ss_msg ss <> v_asst t.
Proof.
  intros [Hnd _] Hk Hv. unfold targets in Hnd.
  apply NoDup_app in Hnd as (_ & Hdis & _).
  assert (ss_msg ss ∈ ss_msg <$> sessions s) as Hin.
  { apply list_elem_of_fmap. exists ss. split; [done|].
    by eapply list_elem_of_lookup_2. }
  specialize (Hdis _ Hin).
  assert (forall x, x ∈ voice_ids t -> x ∈ concat (voice_ids <$> voices s)) as Hc.
  { intros x Hx. apply (elem_of_concat_2 x (voice_ids t)); [done|].
    apply list_elem_of_fmap. exists t. split; [done|].
    by eapply list_elem_of_lookup_2. }
  split; intros E; apply Hdis, Hc; rewrite E; unfold voice_ids.
  - left.
  - right. left.
Qed.

Lemma reply_listed s k ss :
  wf s -> sessions s !! k = Some ss -> ss_msg ss ∈ ids s.
Proof.
  intros [_ Hsub] Hk. apply Hsub. unfold targets. apply elem_of_app. left.
  apply list_elem_of_fmap. exists ss. split; [done|].
  by eapply list_elem_of_lookup_2.
Qed.

(** What a call has written stays: once it has returned, no event changes
    the text of the message it filled. *)
Lemma closed_texts_step s e k ss :
  wf s -> fresh s e ->
  sessions s !! k = Some ss -> is_closed (ss_phase ss) = true ->
  texts_of (ss_msg ss) (messages (step s e)) = texts_of (ss_msg ss) (messages s).
Proof.
  intros Hw Hf Hk Hc.
  pose proof (reply_listed s k ss Hw Hk) as Hin.
  destruct e; cbn [step fresh] in *.
  - unfold onInputChange.
    match goal with |- context [after_abort ?v ?t] =>
      destruct (after_abort_frame v t) as (-> & _) end.
    match goal with |- context [stopStreaming ?t] =>
      destruct (stopStreaming_frame t) as (-> & _) end. done.
  - unfold onSendText. destruct (string_eqb _ _); [done|].
    match goal with |- context [after_abort ?v ?t] =>
      destruct (after_abort_frame v t) as (-> & _) end. fields.
    match goal with |- context [stopStreaming ?t] =>
      destruct (stopStreaming_frame t) as (-> & _) end. fields.
    destruct Hf as (_ & Hu & Ha).
    rewrite texts_of_app, texts_of_two, app_nil_r; [done| |]; congruence.
  - unfold onFetchSettled. split_matches; unfold stream_fail, close; fields; done.
  - unfold onRead.
    destruct (sessions s !! sid) as [sv|] eqn:Hv; [|done].
    destruct (ss_phase sv) eqn:Hp; try done.
    assert (sid <> k) as Hne.
    { intros ->. rewrite Hk in Hv. injection Hv as <-. by rewrite Hp in Hc. }
    destruct r; [|by unfold stream_done, close; fields
                 |by unfold stream_fail, close; fields].
    unfold on_chunk. rewrite (on_lines_spec sid sv _ s Hv).
    destruct (delta_texts _); [done|]. fields.
    apply texts_of_set_text_ne. apply not_eq_sym.
    by apply (distinct_replies s sid k).
  - unfold onToggleRecord. destruct (recording s); [done|].
    match goal with |- context [after_abort ?v ?t] =>
      destruct (after_abort_frame v t) as (-> & _) end. fields.
    match goal with |- context [stopStreaming ?t] =>
      destruct (stopStreaming_frame t) as (-> & _) end. done.
  - unfold onMicSettled. split_matches; fields; done.
  - unfold onDataAvailable. split_matches; fields; done.
  - unfold cancelRecording, stop_current. split_matches; fields; done.
  - unfold confirmRecording, stop_current. split_matches; fields; done.
  - unfold onstop, onSendVoice, stop_tracks.
    destruct (recorders s !! r) as [rc|]; [|done].
    destruct (r_stopPending rc); [|done]. fields.
    destruct (recordActionRef s); fields; [|done].
    destruct Hf as (_ & Hu & Ha).
    rewrite texts_of_app, texts_of_two, app_nil_r; [done| |]; congruence.
  - unfold onVoiceFetched, voice_return, stop_tracks.
    destruct (voices s !! v) as [t|] eqn:Hv; [|done].
    destruct (reply_not_voice s k ss v t Hw Hk Hv) as [Hu Ha].
    split_matches; fields; try done. by apply texts_of_set_text_ne.
  - unfold onVoiceBlob, voice_return, stop_tracks.
    split_matches; fields; try done. apply texts_of_set_audioUrl.
  - unfold speakText. fields. done.
  - unfold onSpeakFetched. split_matches; fields; done.
  - unfold onSpeakBlob. split_matches; fields; done.
  - fields. done.
Qed.

Lemma closed_frozen_run tr s k ss :
  wf s -> fresh_run s tr ->
  sessions s !! k = Some ss -> is_closed (ss_phase ss) = true ->
  (exists ss', sessions (run s tr) !! k = Some ss' /\ same_reply ss ss') /\
  texts_of (ss_msg ss) (messages (run s tr)) = texts_of (ss_msg ss) (messages s).
Proof.
  revert s ss. induction tr as [|e tr IH]; intros s ss Hw Hf Hk Hc.
  { split; [eauto using same_reply_refl | done]. }
  destruct Hf as [Hf Hfr]. cbn [run fold_left].
  destruct (closed_frozen_step s e k ss Hk Hc) as (ss1 & Hk1 & Hr1).
  pose proof Hr1 as (_ & Hm1 & _ & Hp1).
  destruct (IH (step s e) ss1) as ((ss2 & Hk2 & Hr2) & Ht); try done.
  { by apply wf_step. }
  { by rewrite Hp1. }
  split; [eauto using same_reply_trans|].
  fold (run (step s e) tr). rewrite <- Hm1, Ht, Hm1.
  by apply (closed_texts_step s e k).
Qed.

(** ** Interrupting a stream *)

Lemma stopStreaming_lookup s k ss :
  sessions s !! k = Some ss ->
  sessions (stopStreaming s) !! k =
    Some (if decide (streamAbortRef s = Some k) then abort ss else ss).
Proof.
  intros H. unfold stopStreaming. destruct (streamAbortRef s) as [r|]; fields.
  - rewrite (lookup_alter_Some _ _ _ _ _ H).
    destruct (decide (r = k)) as [->|Hne]; [by rewrite decide_True|].
    rewrite decide_False; [done | congruence].
  - by rewrite decide_False.
Qed.

Lemma after_abort_lookup v s k ss :
  sessions s !! k = Some ss ->
  sessions (after_abort v s) !! k =
    Some (if decide (v = Some k)
          then if ss_aborted ss && negb (is_closed (ss_phase ss))
               then set_phase (Closed false) ss else ss
          else ss).
Proof.
  intros H. unfold after_abort. destruct v as [r|]; [|by rewrite decide_False].
  destruct (decide (r = k)) as [->|Hne].
  - rewrite H, decide_True by done.
    destruct (ss_aborted ss && negb (is_closed (ss_phase ss))); [|done].
    unfold stream_fail, close. fields.
    by rewrite (lookup_alter_Some _ _ _ _ _ H), decide_True.
  - rewrite decide_False by congruence.
    destruct (sessions s !! r) as [sr|]; [|done].
    destruct (ss_aborted sr && negb (is_closed (ss_phase sr))); [|done].
    unfold stream_fail, close. fields.
    by rewrite (lookup_alter_Some _ _ _ _ _ H), decide_False.
Qed.

(** What an interrupting action makes of the call [k]. *)
Lemma interrupt_lookup s e k ss :
  interrupts s e = true -> sessions s !! k = Some ss ->
  sessions (step s e) !! k =
    Some (if decide (streamAbortRef s = Some k)
          then if is_closed (ss_phase ss) then abort ss
               else Session (ss_request ss) (ss_msg ss) (ss_text ss) true (Closed false)
          else ss).
Proof.
  intros Hi Hk.
  assert (forall s1 s2,
            sessions s1 = sessions s -> streamAbortRef s1 = streamAbortRef s ->
            sessions s2 !! k = sessions (stopStreaming s1) !! k ->
            sessions (after_abort (streamAbortRef s) s2) !! k =
            Some (if decide (streamAbortRef s = Some k)
                  then if is_closed (ss_phase ss) then abort ss
                       else Session (ss_request ss) (ss_msg ss) (ss_text ss) true (Closed false)
                  else ss)) as Hgen.
  { intros s1 s2 Hs Hr H2.
    assert (sessions s1 !! k = Some ss) as Hk1 by (by rewrite Hs).
    rewrite (stopStreaming_lookup s1 k ss Hk1), Hr in H2.
    rewrite (after_abort_lookup _ s2 k _ H2).
    destruct (decide (streamAbortRef s = Some k)); [|done].
    cbn [abort ss_aborted ss_phase andb].
    by destruct (is_closed (ss_phase ss)). }
  destruct e; try done; cbn [step interrupts] in *.
  - unfold onInputChange.
    by apply (Hgen (with_audio (stopAllAudio (audio s)) (with_input v s))).
  - unfold onSendText. destruct (string_eqb _ _); [done|].
    match goal with |- context [stopStreaming ?t] => apply (Hgen t) end;
      [done..|]. fields.
    rewrite lookup_app_l; [done|].
    rewrite stopStreaming_sessions_length. fields. by eapply lookup_lt_Some.
  - unfold onToggleRecord. destruct (recording s); [done|].
    by apply (Hgen (with_audio (stopAllAudio (audio s)) s)).
Qed.

(** An interrupting action appends at most fresh messages. *)
Lemma interrupt_texts s e i :
  interrupts s e = true -> fresh s e -> i ∈ ids s ->
  texts_of i (messages (step s e)) = texts_of i (messages s).
Proof.
  intros Hi Hf Hin. destruct e; try done; cbn [step interrupts fresh] in *.
  - unfold onInputChange.
    match goal with |- context [after_abort ?v ?t] =>
      destruct (after_abort_frame v t) as (-> & _) end.
    match goal with |- context [stopStreaming ?t] =>
      destruct (stopStreaming_frame t) as (-> & _) end. done.
  - unfold onSendText. destruct (string_eqb _ _); [done|].
    match goal with |- context [after_abort ?v ?t] =>
      destruct (after_abort_frame v t) as (-> & _) end. fields.
    match goal with |- context [stopStreaming ?t] =>
      destruct (stopStreaming_frame t) as (-> & _) end. fields.
    destruct Hf as (_ & Hu & Ha).
    rewrite texts_of_app, texts_of_two, app_nil_r; [done| |]; congruence.
  - unfold onToggleRecord. destruct (recording s); [done|].
    match goal with |- context [after_abort ?v ?t] =>
      destruct (after_abort_frame v t) as (-> & _) end. fields.
    match goal with |- context [stopStreaming ?t] =>
      destruct (stopStreaming_frame t) as (-> & _) end. done.
Qed.

(** C5: when a stream is running and [stopStreaming] aborts it (through an
    edit of the input, a send, or the start of a recording), the aborted
    call never applies another delta and never completes: whatever happens
    afterwards, also chunks still arriving for it, its accumulated text is
    the one it had when it was aborted, it stays closed as a failed call,
    never as a completed one, and the message it was filling keeps the text
    it shows. *)
Theorem abort_is_final (s : state) (k : nat) (ss : stream_session)
    (e : event) (tr : list event) :
  wf s ->
  sessions s !! k = Some ss -> is_closed (ss_phase ss) = false ->
  streamAbortRef s = Some k ->
  interrupts s e = true ->
  fresh_run s (e :: tr) ->
  let s' := run s (e :: tr) in
  (exists ss', sessions s' !! k = Some ss' /\
               ss_text ss' = ss_text ss /\ ss_phase ss' = Closed false) /\
  texts_of (ss_msg ss) (messages s') = texts_of (ss_msg ss) (messages s).
Proof.
  intros Hw Hk Hc Hr Hi [Hf Hfr] s'. subst s'. cbn [run fold_left].
  fold (run (step s e) tr).
  pose proof (interrupt_lookup s e k ss Hi Hk) as Hk1.
  rewrite decide_True, Hc in Hk1 by done.
  destruct (closed_frozen_run tr (step s e) k _ (wf_step s e Hw Hf) Hfr Hk1)
    as ((ss' & Hk' & _ & _ & Ht & Hp) & Htx); [done|].
  cbn [ss_msg ss_text ss_phase] in *. split; [eauto|].
  rewrite Htx. apply interrupt_texts; try done.
  by apply (reply_listed s k).
Qed.

(** ** One stream at a time *)

Lemma stream_inv_init t0 : stream_inv (init t0).
Proof. split; [by intros k ss ?|]. by intros ? k ss ?. Qed.

Lemma after_abort_idle v s :
  (forall k ss, v = Some k -> sessions s !! k = Some ss ->
                ss_aborted ss && negb (is_closed (ss_phase ss)) = false) ->
  after_abort v s = s.
Proof.
  intros H. unfold after_abort. destruct v as [k|]; [|done].
  destruct (sessions s !! k) as [ss|] eqn:Hk; [|done].
  by rewrite (H k ss).
Qed.

Lemma interrupt_closed s e k ss ss' :
  stream_inv s -> interrupts s e = true ->
  sessions s !! k = Some ss -> sessions (step s e) !! k = Some ss' ->
  is_closed (ss_phase ss') = true /\ ss_text ss' = ss_text ss /\
  ss_msg ss' = ss_msg ss.
Proof.
  intros [Hinv _] Hi Hk Hk'.
  rewrite (interrupt_lookup s e k ss Hi Hk) in Hk'. injection Hk' as <-.
  destruct (decide (streamAbortRef s = Some k)) as [Hr|Hr].
  - by destruct (is_closed (ss_phase ss)) eqn:E.
  - destruct (is_closed (ss_phase ss)) eqn:E; [done|].
    by destruct Hr; apply (Hinv k ss).
Qed.

Lemma stopStreaming_input s : input (stopStreaming s) = input s.
Proof. unfold stopStreaming. by destruct (streamAbortRef s). Qed.

Lemma active_facts s sid sv :
  stream_inv s -> sessions s !! sid = Some sv -> is_closed (ss_phase sv) = false ->
  streamAbortRef s = Some sid /\ trim (input s) = "" /\
  forall k ss, k <> sid -> sessions s !! k = Some ss ->
               is_closed (ss_phase ss) = true.
Proof.
  intros [H1 H2] Hv Hp. split; [by apply (H1 sid sv)|]. split.
  - destruct (decide (trim (input s) = "")) as [|Hne]; [done|].
    specialize (H2 Hne sid sv Hv). congruence.
  - intros k ss Hne Hk. destruct (is_closed (ss_phase ss)) eqn:Ec; [done|].
    pose proof (H1 k ss Hk Ec). pose proof (H1 sid sv Hv Hp). congruence.
Qed.

(** The running call returns: nothing runs any more. *)
Lemma stream_inv_close s s' sid sv b :
  stream_inv s -> sessions s !! sid = Some sv -> is_closed (ss_phase sv) = false ->
  sessions s' = sessions s -> input s' = input s ->
  stream_inv (close sid b s').
Proof.
  intros Hinv Hv Hp Hs Hi.
  destruct (active_facts s sid sv Hinv Hv Hp) as (Hr & Hin & Hothers).
  unfold close. split; fields.
  - intros k ss Hk Hc. rewrite Hs, list_lookup_alter in Hk.
    destruct (decide (sid = k)) as [->|Hne].
    + rewrite Hv in Hk. by injection Hk as <-.
    + by rewrite (Hothers k ss) in Hc.
  - rewrite Hi, Hin. intros Hne. by destruct Hne.
Qed.

(** The running call goes on: it is still the one [streamAbortRef] holds. *)
Lemma stream_inv_update s s' sid sv sv' :
  stream_inv s -> sessions s !! sid = Some sv -> is_closed (ss_phase sv) = false ->
  sessions s' = <[sid := sv']> (sessions s) ->
  input s' = input s -> streamAbortRef s' = streamAbortRef s ->
  stream_inv s'.
Proof.
  intros Hinv Hv Hp Hs Hi Hr'.
  destruct (active_facts s sid sv Hinv Hv Hp) as (Hr & Hin & Hothers).
  split.
  - intros k ss Hk Hc. rewrite Hs in Hk.
    destruct (decide (sid = k)) as [->|Hne]; [congruence|].
    rewrite list_lookup_insert_ne in Hk by done.
    by rewrite (Hothers k ss) in Hc.
  - rewrite Hi, Hin. intros Hne. by destruct Hne.
Qed.

Lemma stream_inv_step s e : stream_inv s -> stream_inv (step s e).
Proof.
  intros Hinv.
  destruct (stream_neutral e) eqn:He.
  { destruct (stream_frame s e He) as (Hs & Hr & Hin).
    unfold stream_inv. by rewrite Hs, Hr, Hin. }
  destruct e; try done; cbn [step].
  - (* InputChange: every call is closed afterwards *)
    assert (forall k ss', sessions (onInputChange v s) !! k = Some ss' ->
                          is_closed (ss_phase ss') = true) as Hall.
    { intros k ss' Hk'.
      assert (is_Some (sessions s !! k)) as [ss Hk].
      { apply lookup_lt_is_Some. apply lookup_lt_Some in Hk'.
        unfold onInputChange in Hk'.
        by rewrite after_abort_sessions_length, stopStreaming_sessions_length in Hk'. }
      by destruct (interrupt_closed s (InputChange v) k ss ss' Hinv eq_refl Hk Hk'). }
    split; [|by intros _].
    intros k ss' Hk' Hc. by rewrite (Hall k ss' Hk') in Hc.
  - (* SendText *)
    unfold onSendText. destruct (string_eqb (trim (input s)) "") eqn:E; [done|].
    apply string_eqb_neq in E. destruct Hinv as [H1 H2].
    pose proof (H2 E) as Hclosed.
    set (s4 := with_audio _ _).
    assert (forall k ss, sessions (stopStreaming s4) !! k = Some ss ->
                         is_closed (ss_phase ss) = true) as Hclosed5.
    { intros k ss Hk.
      assert (is_Some (sessions s !! k)) as [ss0 Hk0].
      { apply lookup_lt_is_Some. apply lookup_lt_Some in Hk.
        by rewrite stopStreaming_sessions_length in Hk. }
      rewrite (stopStreaming_lookup s4 k ss0 Hk0) in Hk. injection Hk as <-.
      case_decide; cbn [abort ss_phase]; by apply (Hclosed k). }
    rewrite after_abort_idle.
    2:{ intros k ss Hv Hk. fields.
        apply lookup_snoc_Some in Hk as [[_ Hk]|[_ <-]]; [|done].
        rewrite (Hclosed5 k ss Hk). apply andb_false_r. }
    split.
    + intros k ss Hk Hc. fields.
      apply lookup_snoc_Some in Hk as [[_ Hk]|[-> _]]; [|done].
      by rewrite (Hclosed5 k ss Hk) in Hc.
    + fields. rewrite stopStreaming_input. subst s4. fields.
      intros Hne. by destruct Hne.
  - (* FetchSettled *)
    unfold onFetchSettled.
    destruct (sessions s !! sid) as [sv|] eqn:Hv; [|done].
    destruct (ss_phase sv) eqn:Hp; try done.
    assert (is_closed (ss_phase sv) = false) as Hc by (by rewrite Hp).
    destruct r as [[[] []]|]; unfold stream_fail;
      try (by apply (stream_inv_close s _ sid sv)).
    apply (stream_inv_update s _ sid sv (set_phase Reading sv)); try done.
    fields. rewrite list_insert_alter.
    apply list_alter_ext; [|done]. intros x Hx. congruence.
  - (* ReadSettled *)
    unfold onRead.
    destruct (sessions s !! sid) as [sv|] eqn:Hv; [|done].
    destruct (ss_phase sv) eqn:Hp; try done.
    assert (is_closed (ss_phase sv) = false) as Hc by (by rewrite Hp).
    destruct r as [c| |]; unfold stream_done, stream_fail;
      try (by apply (stream_inv_close s _ sid sv)).
    unfold on_chunk. rewrite (on_lines_spec sid sv _ s Hv).
    destruct (delta_texts _); [done|].
    by eapply (stream_inv_update s _ sid sv).
  - (* ToggleRecord *)
    destruct (recording s) eqn:Hrec.
    { unfold onToggleRecord. by rewrite Hrec. }
    assert (forall k ss', sessions (onToggleRecord s) !! k = Some ss' ->
                          is_closed (ss_phase ss') = true) as Hall.
    { intros k ss' Hk'.
      assert (is_Some (sessions s !! k)) as [ss Hk].
      { apply lookup_lt_is_Some. apply lookup_lt_Some in Hk'.
        unfold onToggleRecord in Hk'. rewrite Hrec in Hk'.
        rewrite after_abort_sessions_length in Hk'. fields.
        by rewrite stopStreaming_sessions_length in Hk'. }
      assert (interrupts s ToggleRecord = true) as Hi by (cbn; by rewrite Hrec).
      by destruct (interrupt_closed s ToggleRecord k ss ss' Hinv Hi Hk Hk'). }
    split.
    + intros k ss' Hk' Hc. by rewrite (Hall k ss' Hk') in Hc.
    + intros _ k ss'. apply Hall.
Qed.

Lemma stream_inv_run tr s : stream_inv s -> stream_inv (run s tr).
Proof.
  revert s. induction tr as [|e tr IH]; intros s H; [done|].
  cbn [run fold_left]. by apply IH, stream_inv_step.
Qed.

Lemma fresh_run_app tr1 tr2 s :
  fresh_run s (tr1 ++ tr2) <-> fresh_run s tr1 /\ fresh_run (run s tr1) tr2.
Proof.
  revert s. induction tr1 as [|e tr1 IH]; intros s; cbn [app fresh_run run fold_left].
  - tauto.
  - fold (run (step s e) tr1). rewrite IH. tauto.
Qed.

Lemma run_app tr1 tr2 s : run s (tr1 ++ tr2) = run (run s tr1) tr2.
Proof. apply fold_left_app. Qed.

Lemma stopStreaming_audio s : audio (stopStreaming s) = audio s.
Proof. unfold stopStreaming. by destruct (streamAbortRef s). Qed.

Lemma after_abort_audio v s : audio (after_abort v s) = audio s.
Proof.
  unfold after_abort. destruct v as [k|]; [|done].
  destruct (sessions s !! k) as [ss|]; [|done].
  by destruct (ss_aborted ss && negb (is_closed (ss_phase ss))).
Qed.

Lemma interrupt_audio s e :
  interrupts s e = true -> audio (step s e) = stopAllAudio (audio s).
Proof.
  intros Hi. destruct e; try done; cbn [step interrupts] in *.
  - unfold onInputChange. by rewrite after_abort_audio, stopStreaming_audio.
  - unfold onSendText. destruct (string_eqb _ _); [done|].
    rewrite after_abort_audio. fields. by rewrite stopStreaming_audio.
  - unfold onToggleRecord. destruct (recording s); [done|].
    rewrite after_abort_audio. fields. by rewrite stopStreaming_audio.
Qed.

Lemma step_sessions_length s e :
  length (sessions s) <= length (sessions (step s e)).
Proof.
  pose proof (proj1 (proj2 (step_ids s e))) as H.
  apply (f_equal length) in H. rewrite length_app, !length_fmap in H. lia.
Qed.

(** After an interrupting action the only call that can be running is the
    one a send has just started. *)
Lemma interrupt_running s e k ss' :
  stream_inv s -> interrupts s e = true ->
  sessions (step s e) !! k = Some ss' -> is_closed (ss_phase ss') = false ->
  k = length (sessions s) /\ exists u a n, e = SendText u a n.
Proof.
  intros Hinv Hi Hk' Hc.
  destruct (decide (k < length (sessions s))) as [Hlt|Hge].
  { apply lookup_lt_is_Some in Hlt as [ss Hk].
    destruct (interrupt_closed s e k ss ss' Hinv Hi Hk Hk') as (Hc' & _).
    congruence. }
  pose proof (lookup_lt_Some _ _ _ Hk') as Hlt'.
  pose proof (proj1 (proj2 (step_ids s e))) as H.
  apply (f_equal length) in H. rewrite length_app, !length_fmap in H.
  destruct e; try done; cbn [new_reply length] in H; try lia.
  destruct (string_eqb _ _); cbn [length] in H; [lia|].
  split; [lia | eauto].
Qed.

(** X12: Interruption: in every run of the component, each of the three user
    actions, once past its guard (any edit of the input; a send whose input
    is not blank; a click on the microphone while no recording is shown),
    calls [stopAllAudio] and [stopStreaming]: the playback state after it is
    the one [stopAllAudio] leaves; every call of [onSendText] made before
    it is closed from then on, its accumulated text and the text of the
    message it was filling never change again; and the only call that can
    be running right after the action is the one a send has just started. *)
Theorem interrupt_clears (t0 : Z) (tr0 : list event) (e : event) (tr : list event) :
  let s := run (init t0) tr0 in
  fresh_run (init t0) (tr0 ++ e :: tr) ->
  interrupts s e = true ->
  audio (step s e) = stopAllAudio (audio s) /\
  (forall k ss, sessions s !! k = Some ss ->
     exists ss', sessions (run s (e :: tr)) !! k = Some ss' /\
                 is_closed (ss_phase ss') = true /\
                 ss_text ss' = ss_text ss /\
                 texts_of (ss_msg ss) (messages (run s (e :: tr))) =
                   texts_of (ss_msg ss) (messages s)) /\
  (forall k ss', sessions (step s e) !! k = Some ss' ->
     is_closed (ss_phase ss') = false ->
     k = length (sessions s) /\ exists u a n, e = SendText u a n).
Proof.
  intros s Hf Hi.
  apply fresh_run_app in Hf as [Hf0 [Hfe Hftr]]. fold s in Hfe, Hftr.
  assert (wf s) as Hw by (apply wf_run; [apply wf_init | done]).
  assert (stream_inv s) as Hinv by apply stream_inv_run, stream_inv_init.
  split; [by apply interrupt_audio|]. split.
  - intros k ss Hk.
    assert (is_Some (sessions (step s e) !! k)) as [ss1 Hk1].
    { apply lookup_lt_is_Some. apply lookup_lt_Some in Hk.
      pose proof (step_sessions_length s e). lia. }
    destruct (interrupt_closed s e k ss ss1 Hinv Hi Hk Hk1) as (Hc1 & Ht1 & Hm1).
    cbn [run fold_left]. fold (run (step s e) tr).
    destruct (closed_frozen_run tr (step s e) k ss1 (wf_step s e Hw Hfe) Hftr Hk1 Hc1)
      as ((ss' & Hk' & _ & _ & Ht & Hp) & Htx).
    exists ss'. split; [done|]. split; [by rewrite Hp|]. split; [congruence|].
    rewrite <- Hm1, Htx, Hm1. apply interrupt_texts; try done.
    by apply (reply_listed s k).
  - intros k ss'. by apply interrupt_running.
Qed.

(** ** Recording sessions *)

Lemma stopStreaming_rec s : rec_part (stopStreaming s) = rec_part s.
Proof. unfold stopStreaming. by destruct (streamAbortRef s). Qed.

Lemma after_abort_rec v s : rec_part (after_abort v s) = rec_part s.
Proof.
  unfold after_abort. destruct v as [k|]; [|done].
  destruct (sessions s !! k) as [ss|]; [|done].
  by destruct (ss_aborted ss && negb (is_closed (ss_phase ss))).
Qed.

Lemma on_chunk_rec sid c s : rec_part (on_chunk sid c s) = rec_part s.
Proof.
  unfold on_chunk. generalize (split_lines c). intros lines. revert s.
  induction lines as [|l lines IH]; intros s; [done|].
  cbn [fold_left]. rewrite IH. unfold on_line, apply_delta.
  destruct (classify l); try done. by destruct (sessions s !! sid).
Qed.

(** The events of the stream, of speech and of the audio elements do not
    touch the recorder. *)
Lemma rec_frame s e :
  match e with
  | InputChange _ | SendText _ _ _ | FetchSettled _ _ | ReadSettled _ _
  | ToggleRecord | SpeakText _ _ | SpeakFetched _ _ | SpeakBlob _ _
  | AudioEvent _ | MicSettled false => rec_part (step s e) = rec_part s
  | _ => True
  end.
Proof.
  destruct e; try done; cbn [step].
  - unfold onInputChange. by rewrite after_abort_rec, stopStreaming_rec.
  - unfold onSendText. destruct (string_eqb _ _); [done|].
    rewrite after_abort_rec.
    match goal with |- context [stopStreaming ?t] =>
      transitivity (rec_part (stopStreaming t)); [done|];
      by rewrite stopStreaming_rec end.
  - unfold onFetchSettled. split_matches; unfold stream_fail, close; done.
  - unfold onRead. split_matches; unfold stream_done, stream_fail, close;
      try done. apply on_chunk_rec.
  - unfold onToggleRecord. destruct (recording s); [done|].
    rewrite after_abort_rec.
    match goal with |- context [stopStreaming ?t] =>
      transitivity (rec_part (stopStreaming t)); [done|];
      by rewrite stopStreaming_rec end.
  - destruct granted; [done|]. unfold onMicSettled. by destruct (micPending s).
  - unfold onSpeakFetched. by split_matches.
  - unfold onSpeakBlob. by split_matches.
Qed.

Lemma rec_part_eq s s' :
  rec_part s' = rec_part s ->
  mediaRecorderRef s' = mediaRecorderRef s /\ chunksRef s' = chunksRef s /\
  recordActionRef s' = recordActionRef s /\ recorders s' = recorders s /\
  voices s' = voices s /\ recording s' = recording s.
Proof. unfold rec_part. intros [= -> -> -> -> -> ->]. done. Qed.

Lemma quiet_step r rc s e :
  quiet r e = true ->
  recorders s !! r = Some rc ->
  negb (r_inactive rc) || r_stopPending rc = true ->
  unowned r s ->
  recorders (step s e) !! r = Some rc /\
  chunksRef (step s e) = chunksRef s ++ filter nonempty (captured_by r [e]) /\
  recordActionRef (step s e) = recordActionRef s /\
  mediaRecorderRef (step s e) = mediaRecorderRef s /\
  recording (step s e) = recording s /\
  length (voices (step s e)) = length (voices s) /\
  unowned r (step s e).
Proof.
  intros Hq Hr Hacc Hun.
  pose proof (rec_frame s e) as Hframe.
  destruct e; try done; cbn [quiet] in Hq;
    try (destruct (rec_part_eq _ _ Hframe) as (Hm & Hc & Ha & Hrs & Hv & Hrec);
         unfold unowned; rewrite Hm, Hc, Ha, Hrs, Hv, Hrec;
         cbn [captured_by flat_map app]; rewrite filter_nil, app_nil_r; done).
  - (* MicSettled false *)
    destruct granted; [done|].
    destruct (rec_part_eq _ _ Hframe) as (Hm & Hc & Ha & Hrs & Hv & Hrec).
    unfold unowned. rewrite Hm, Hc, Ha, Hrs, Hv, Hrec.
    cbn [captured_by flat_map app]. by rewrite filter_nil, app_nil_r.
  - (* DataAvailable *)
    apply Nat.eqb_eq in Hq as ->. cbn [step captured_by flat_map].
    rewrite Nat.eqb_refl. cbn [app]. unfold onDataAvailable.
    rewrite Hr, Hacc.
    destruct (0 <? length (blob_data data))%nat eqn:E.
    + apply Nat.ltb_lt in E. rewrite filter_cons_True by done. by fields.
    + apply Nat.ltb_ge in E.
      rewrite filter_cons_False by (unfold nonempty; lia).
      by rewrite filter_nil, app_nil_r.
  - (* VoiceFetched *)
    cbn [step captured_by flat_map app]. rewrite filter_nil, app_nil_r.
    unfold onVoiceFetched.
    destruct (voices s !! v) as [t|] eqn:Hv; [|done].
    pose proof (Hun v t Hv) as Hne.
    assert (unowned r (with_voices (alter (set_voice_progress Finished) v (voices s)) s)
            /\ unowned r (with_voices (alter (set_voice_progress OnBlob) v (voices s)) s))
      as [Hun1 Hun2].
    { split; intros w t' Hw; fields; rewrite list_lookup_alter in Hw;
        destruct (decide (v = w)) as [->|]; try (by apply (Hun w));
        rewrite Hv in Hw; by injection Hw as <-. }
    destruct (v_progress t); try done.
    destruct r0 as [[[] hdr]|]; unfold voice_return, stop_tracks; fields;
      rewrite ?length_alter, ?list_lookup_alter_ne by done; done.
  - (* VoiceBlob *)
    cbn [step captured_by flat_map app]. rewrite filter_nil, app_nil_r.
    unfold onVoiceBlob.
    destruct (voices s !! v) as [t|] eqn:Hv; [|done].
    pose proof (Hun v t Hv) as Hne.
    assert (unowned r (with_voices (alter (set_voice_progress Finished) v (voices s)) s))
      as Hun1.
    { intros w t' Hw; fields; rewrite list_lookup_alter in Hw;
        destruct (decide (v = w)) as [->|]; try (by apply (Hun w));
        rewrite Hv in Hw; by injection Hw as <-. }
    destruct (v_progress t); try done.
    destruct r0 as [u|]; unfold voice_return, stop_tracks; fields;
      rewrite ?length_alter, ?list_lookup_alter_ne by done; done.
Qed.

Lemma captured_by_app r tr1 tr2 :
  captured_by r (tr1 ++ tr2) = captured_by r tr1 ++ captured_by r tr2.
Proof. unfold captured_by. by rewrite flat_map_app. Qed.

Lemma quiet_run r rc tr s :
  Forall (fun e => quiet r e = true) tr ->
  recorders s !! r = Some rc ->
  negb (r_inactive rc) || r_stopPending rc = true ->
  unowned r s ->
  recorders (run s tr) !! r = Some rc /\
  chunksRef (run s tr) = chunksRef s ++ filter nonempty (captured_by r tr) /\
  recordActionRef (run s tr) = recordActionRef s /\
  mediaRecorderRef (run s tr) = mediaRecorderRef s /\
  recording (run s tr) = recording s /\
  length (voices (run s tr)) = length (voices s) /\
  unowned r (run s tr).
Proof.
  revert s. induction tr as [|e tr IH]; intros s Hq Hr Hacc Hun.
  { cbn. by rewrite app_nil_r. }
  apply Forall_cons in Hq as [Hq Hqs].
  destruct (quiet_step r rc s e Hq Hr Hacc Hun) as (H1 & H2 & H3 & H4 & H5 & H6 & H7).
  destruct (IH (step s e) Hqs H1 Hacc H7) as (I1 & I2 & I3 & I4 & I5 & I6 & I7).
  cbn [run fold_left]. fold (run (step s e) tr).
  split; [done|]. split.
  { rewrite I2, H2. change (e :: tr) with ([e] ++ tr).
    by rewrite captured_by_app, filter_app, app_assoc. }
  split; [congruence|]. split; [congruence|]. split; [congruence|].
  split; [congruence | done].
Qed.

Lemma concat_nonempty (l : list blob) :
  concat (map blob_data (filter nonempty l)) = concat (map blob_data l).
Proof.
  induction l as [|b l IH]; [done|]. rewrite filter_cons.
  destruct (decide (nonempty b)) as [Hb|Hb]; cbn [map concat]; rewrite IH; [done|].
  unfold nonempty in Hb. destruct (blob_data b); [done | cbn in Hb; lia].
Qed.

(** A recording session up to the moment before its stop callback: the
    recorder has been stopped, the chunks it delivered are buffered in
    order, and the pending action is the one of the button pressed. *)
Lemma session_before_stop s seg1 seg2 (confirmed : bool) :
  let r := length (recorders s) in
  0 < micPending s -> unowned r s ->
  Forall (fun e => quiet r e = true) seg1 ->
  Forall (fun e => quiet r e = true) seg2 ->
  let s3 := run s (MicSettled true :: seg1 ++
                   (if confirmed then ConfirmRecording else CancelRecording) :: seg2) in
  recorders s3 !! r = Some (Recorder true true true webm_opus) /\
  chunksRef s3 = filter nonempty (captured_by r (seg1 ++ seg2)) /\
  recordActionRef s3 = (if confirmed then ActSend else ActCancel) /\
  length (voices s3) = length (voices s) /\
  unowned r s3.
Proof.
  intros r Hmic Hun Hq1 Hq2 s3. subst s3.
  set (ending := if confirmed then ConfirmRecording else CancelRecording).
  cbn [run fold_left step]. fold (run (onMicSettled true s) (seg1 ++ ending :: seg2)).
  rewrite run_app.
  set (s0 := onMicSettled true s).
  assert (recorders s0 !! r = Some (Recorder false false true webm_opus) /\
          chunksRef s0 = [] /\ mediaRecorderRef s0 = Some r /\
          voices s0 = voices s) as (Hr0 & Hc0 & Hm0 & Hv0).
  { subst s0. unfold onMicSettled. destruct (micPending s); [lia|]. fields.
    repeat split. subst r. rewrite lookup_app_r by lia.
    by rewrite Nat.sub_diag. }
  assert (unowned r s0) as Hun0.
  { intros v t Hv. rewrite Hv0 in Hv. by apply (Hun v). }
  destruct (quiet_run r _ seg1 s0 Hq1 Hr0 eq_refl Hun0)
    as (Hr1 & Hc1 & _ & Hm1 & _ & Hv1 & Hun1).
  set (s1 := run s0 seg1) in *.
  cbn [run fold_left]. fold (run (step s1 ending) seg2).
  set (s2 := step s1 ending).
  assert (recorders s2 !! r = Some (Recorder true true true webm_opus) /\
          chunksRef s2 = chunksRef s1 /\
          recordActionRef s2 = (if confirmed then ActSend else ActCancel) /\
          voices s2 = voices s1) as (Hr2 & Hc2 & Ha2 & Hv2).
  { subst s2 ending. destruct confirmed; cbn [step];
      unfold confirmRecording, cancelRecording, stop_current; fields;
      rewrite Hm1, Hm0, Hr1; cbn [r_inactive]; fields;
      (repeat split; apply list_lookup_insert_eq; by eapply lookup_lt_Some). }
  assert (unowned r s2) as Hun2.
  { intros v t Hv. rewrite Hv2 in Hv. by apply (Hun1 v). }
  destruct (quiet_run r _ seg2 s2 Hq2 Hr2 eq_refl Hun2)
    as (Hr3 & Hc3 & Ha3 & _ & _ & Hv3 & Hun3).
  split; [done|]. split.
  { rewrite Hc3, Hc2, Hc1, Hc0. cbn [app].
    by rewrite captured_by_app, filter_app. }
  split; [congruence|]. split; [|done].
  rewrite Hv3, Hv2, Hv1. by rewrite Hv0.
Qed.

Lemma lookup_alter_inv {A} (f : A -> A) (l : list A) (i j : nat) (y : A) :
  alter f i l !! j = Some y -> exists x, l !! j = Some x /\ (y = x \/ y = f x).
Proof.
  rewrite list_lookup_alter. case_decide; [|eauto].
  subst. destruct (l !! j) as [x|]; simpl; [|done]. intros [= <-]. eauto.
Qed.

Lemma owned_recorders_update s s' :
  (forall v t', voices s' !! v = Some t' ->
     exists t, voices s !! v = Some t /\ v_recorder t' = v_recorder t) ->
  length (recorders s) <= length (recorders s') ->
  owned_recorders s -> owned_recorders s'.
Proof.
  intros Hv Hlen Ho v t' Ht'. destruct (Hv v t' Ht') as (t & Ht & ->).
  specialize (Ho v t Ht). lia.
Qed.

Lemma voice_return_owned v t s :
  owned_recorders s -> owned_recorders (voice_return v t s).
Proof.
  apply owned_recorders_update.
  - unfold voice_return, stop_tracks. fields. intros j t' Hj.
    apply lookup_alter_inv in Hj as (x & Hx & [->| ->]); eauto.
  - unfold voice_return, stop_tracks. fields. by rewrite length_alter.
Qed.

Lemma owned_recorders_step s e :
  owned_recorders s -> owned_recorders (step s e).
Proof.
  intros Ho. pose proof (rec_frame s e) as Hframe.
  destruct e;
    try (destruct (rec_part_eq _ _ Hframe) as (_ & _ & _ & Hrs & Hv & _);
         unfold owned_recorders; by rewrite Hrs, Hv); cbn [step].
  - (* MicSettled *)
    unfold onMicSettled. destruct (micPending s); [done|].
    destruct granted; [|done].
    revert Ho. apply owned_recorders_update; fields; [eauto|].
    rewrite length_app. lia.
  - (* DataAvailable *)
    unfold onDataAvailable. destruct (recorders s !! r); [|done].
    destruct (_ || _); [|done]. by destruct (_ <? _)%nat.
  - (* CancelRecording *)
    revert Ho. apply owned_recorders_update.
    + unfold cancelRecording, stop_current. fields.
      destruct (mediaRecorderRef s) as [r|]; fields; [|eauto].
      destruct (recorders s !! r) as [rc|]; fields; [|eauto].
      destruct (r_inactive rc); fields; eauto.
    + unfold cancelRecording, stop_current. fields.
      destruct (mediaRecorderRef s) as [r|]; fields; [|done].
      destruct (recorders s !! r) as [rc|]; fields; [|done].
      destruct (r_inactive rc); fields; [done|]. by rewrite length_insert.
  - (* ConfirmRecording *)
    revert Ho. apply owned_recorders_update.
    + unfold confirmRecording, stop_current. fields.
      destruct (mediaRecorderRef s) as [r|]; fields; [|eauto].
      destruct (recorders s !! r) as [rc|]; fields; [|eauto].
      destruct (r_inactive rc); fields; eauto.
    + unfold confirmRecording, stop_current. fields.
      destruct (mediaRecorderRef s) as [r|]; fields; [|done].
      destruct (recorders s !! r) as [rc|]; fields; [|done].
      destruct (r_inactive rc); fields; [done|]. by rewrite length_insert.
  - (* RecorderStopped *)
    unfold onstop. destruct (recorders s !! r) as [rc|] eqn:Hr; [|done].
    destruct (r_stopPending rc); [|done]. fields.
    assert (Hlt : r < length (recorders s)) by (eapply lookup_lt_Some; eauto).
    destruct (recordActionRef s).
    + intros v t Hv. unfold onSendVoice in *. fields. rewrite length_insert.
      apply lookup_snoc_Some in Hv as [[_ Hv]|[_ <-]]; [exact (Ho _ _ Hv) | done].
    + revert Ho. apply owned_recorders_update; unfold stop_tracks; fields; [eauto|].
      by rewrite length_alter, length_insert.
  - (* VoiceFetched *)
    unfold onVoiceFetched. destruct (voices s !! v) as [t|]; [|done].
    destruct (v_progress t); try done.
    destruct r as [[[] hdr]|]; try (by apply voice_return_owned).
    revert Ho. apply owned_recorders_update; fields; [|done].
    intros j t' Hj. apply lookup_alter_inv in Hj as (x & Hx & [->| ->]); eauto.
  - (* VoiceBlob *)
    unfold onVoiceBlob. destruct (voices s !! v) as [t|]; [|done].
    destruct (v_progress t); try done.
    destruct r; by apply voice_return_owned.
Qed.

Lemma owned_recorders_run tr s : owned_recorders s -> owned_recorders (run s tr).
Proof.
  revert s. induction tr as [|e tr IH]; intros s Ho; [done|].
  apply IH. by apply owned_recorders_step.
Qed.

(** In every run of the component, the recorder the next grant of the
    microphone creates has no call of [onSendVoice] waiting on its behalf. *)
Theorem next_recorder_unowned (t0 : Z) (tr : list event) :
  let s := run (init t0) tr in
  unowned (length (recorders s)) s.
Proof.
  intros s v t Hv.
  assert (Ho : owned_recorders s).
  { apply owned_recorders_run. intros ? ? H. cbn in H. by rewrite lookup_nil in H. }
  specialize (Ho v t Hv). lia.
Qed.

(** C6 (amended): take a recording session of recorder [r], from the grant
    of the microphone to its stop callback, that no other recorder
    disturbs.  If it is ended by cancel, [onSendVoice] is not called, the
    buffered chunks are dropped, and the tracks are stopped by the stop
    callback.  If it is ended by confirm, the stop callback calls
    [onSendVoice] once, with one blob that joins all chunks delivered, in
    the order of delivery; a second stop callback does nothing; the tracks
    are still live after the stop callback and are stopped only when the
    voice request has settled, whether it failed or went through. *)
Theorem recording_session (s : state) (seg1 seg2 : list event)
    (uid aid : string) (now : Z) :
  let r := length (recorders s) in
  let v := length (voices s) in
  let data := concat (map blob_data (captured_by r (seg1 ++ seg2))) in
  let stopped := [RecorderStopped r uid aid now] in
  0 < micPending s -> unowned r s ->
  Forall (fun e => quiet r e = true) seg1 ->
  Forall (fun e => quiet r e = true) seg2 ->
  (let s' := run s (MicSettled true :: seg1 ++ CancelRecording :: seg2 ++ stopped) in
   voices s' = voices (run s (MicSettled true :: seg1 ++ CancelRecording :: seg2)) /\
   length (voices s') = v /\
   chunksRef s' = [] /\
   recorders s' !! r = Some (Recorder true false false webm_opus)) /\
  (let s' := run s (MicSettled true :: seg1 ++ ConfirmRecording :: seg2 ++ stopped) in
   length (voices s') = S v /\
   voices s' !! v = Some (Voice (Blob data webm_opus) uid aid OnFetch r) /\
   chunksRef s' = [] /\
   recorders s' !! r = Some (Recorder true false true webm_opus) /\
   (forall u' a' n', step s' (RecorderStopped r u' a' n') = s') /\
   (forall hdr,
      recorders (step s' (VoiceFetched v None)) !! r =
        Some (Recorder true false false webm_opus) /\
      recorders (step s' (VoiceFetched v (Some (false, hdr)))) !! r =
        Some (Recorder true false false webm_opus) /\
      recorders (step s' (VoiceFetched v (Some (true, hdr)))) !! r =
        Some (Recorder true false true webm_opus) /\
      forall res,
        recorders (run s' [VoiceFetched v (Some (true, hdr)); VoiceBlob v res]) !! r =
          Some (Recorder true false false webm_opus))).
Proof.
  intros r v data stopped Hmic Hun Hq1 Hq2. split.
  - destruct (session_before_stop s seg1 seg2 false Hmic Hun Hq1 Hq2)
      as (Hr3 & Hc3 & Ha3 & Hv3 & Hun3). fold r in Hr3, Hc3, Hun3.
    cbv zeta. rewrite !app_comm_cons, app_assoc, run_app. rewrite <- !app_comm_cons.
    set (s3 := run s _) in *.
    subst stopped. cbn [run fold_left step]. unfold onstop.
    rewrite Hr3. cbn [r_stopPending]. fields. rewrite Ha3.
    unfold stop_tracks. fields. repeat split; [done|].
    rewrite list_lookup_alter, decide_True by done.
    rewrite list_lookup_insert_eq by (by eapply lookup_lt_Some). done.
  - destruct (session_before_stop s seg1 seg2 true Hmic Hun Hq1 Hq2)
      as (Hr3 & Hc3 & Ha3 & Hv3 & Hun3). fold r in Hr3, Hc3, Hun3.
    cbv zeta. rewrite !app_comm_cons, app_assoc, run_app. rewrite <- !app_comm_cons.
    set (s3 := run s _) in *.
    set (rs := <[r:=Recorder true false true webm_opus]> (recorders s3)).
    set (task := Voice (Blob data webm_opus) uid aid OnFetch r).
    assert (run s3 stopped =
            onSendVoice r (Blob data webm_opus) uid aid now
              (with_chunksRef [] (with_recorders rs s3))) as ->.
    { subst stopped. cbn [run fold_left step]. unfold onstop.
      rewrite Hr3. cbn [r_stopPending r_inactive r_tracksLive r_mimeType]. fields.
      rewrite Ha3. unfold newBlob. rewrite Hc3, concat_nonempty. done. }
    assert (rs !! r = Some (Recorder true false true webm_opus)) as Hrs.
    { apply list_lookup_insert_eq. by eapply lookup_lt_Some. }
    assert ((voices s3 ++ [task]) !! v = Some task) as Hv.
    { rewrite lookup_app_r by lia. subst v. rewrite Hv3, Nat.sub_diag. done. }
    unfold onSendVoice. fields. fold task.
    split; [rewrite length_app; cbn [length]; lia|].
    split; [done|]. split; [done|]. split; [done|]. split.
    { intros u' a' n'. cbn [step]. unfold onstop. fields. by rewrite Hrs. }
    intros hdr. cbn [run fold_left step].
    unfold onVoiceFetched, onVoiceBlob, voice_return, stop_tracks. fields.
    rewrite Hv. cbn [v_progress v_recorder task]. fields.
    rewrite !list_lookup_alter, !decide_True, Hrs by done.
    repeat split.
    intros res. rewrite Hv.
    cbn [fmap option_fmap option_map set_voice_progress v_progress v_recorder task].
    destruct res; fields; by rewrite list_lookup_alter, decide_True, Hrs.
Qed.

(** * More properties of the chat handlers *)

(** ** The send button and the guard of [onSendText] *)

Lemma onSendText_messages uid aid now s :
  string_eqb (trim (input s)) "" = false ->
  messages (onSendText uid aid now s) =
    messages s ++ [Msg uid User (trim (input s)) None now;
                   Msg aid Assistant "" None now].
Proof.
  intros H. unfold onSendText. rewrite H.
  match goal with |- context [after_abort ?v ?t] =>
    destruct (after_abort_frame v t) as (-> & _ & _) end.
  fields.
  match goal with |- context [stopStreaming ?t] =>
    destruct (stopStreaming_frame t) as (-> & _ & _) end.
  by fields.
Qed.

(** X13: The send button is disabled exactly when a send would do nothing. *)
Theorem send_disabled_iff_noop (s : state) (uid aid : string) (now : Z) :
  sendDisabled s = true <-> step s (SendText uid aid now) = s.
Proof.
  unfold sendDisabled. cbn [step]. split.
  - intros H. unfold onSendText. by rewrite H.
  - intros H. destruct (string_eqb (trim (input s)) "") eqn:E; [done|].
    apply (f_equal (fun t => length (messages t))) in H.
    rewrite onSendText_messages, length_app in H by done. simpl in H. lia.
Qed.

(** ** The button under a message *)

Lemma trim_length_text t : (0 <? string_length (trim t))%nat = true -> t <> "".
Proof. intros H ->. done. Qed.



(** The pause button calls [stopAllAudio], and no message shows a pause
    button afterwards. *)
Theorem pause_button_stops (s : state) (m : Message) :
  control_of (playingMsgId (audio s)) m = PauseButton ->
  click s m = Some (AudioEvent StopAllAudio) /\
  forall m', control_of (playingMsgId (audio (step s (AudioEvent StopAllAudio)))) m'
             <> PauseButton.
Proof.
  intros H. unfold click. rewrite H. split; [done|].
  intros m'. cbn [step audio_step]. fields. rewrite stopAllAudio_spec. simpl.
  unfold control_of. destruct (m_role m'); [done|].
  by destruct (truthy_str (m_audioUrl m') || has_text m').
Qed.

(** ** Streams *)

(** X15: In every run of the component at most one call of [onSendText] has
    not returned: it is the one whose controller [streamAbortRef] holds,
    every other call is closed, and the input is blank while it runs. *)
Theorem one_stream_at_a_time (t0 : Z) (tr : list event) (k : nat)
    (ss : stream_session) :
  let s := run (init t0) tr in
  sessions s !! k = Some ss -> is_closed (ss_phase ss) = false ->
  streamAbortRef s = Some k /\
  blank (input s) = true /\
  forall j sj, j <> k -> sessions s !! j = Some sj ->
               is_closed (ss_phase sj) = true.
Proof.
  intros s Hk Hrun.
  assert (Hinv : stream_inv s) by apply stream_inv_run, stream_inv_init.
  destruct (active_facts s k ss Hinv Hk Hrun) as (Href & Htrim & Hothers).
  split; [done|]. split; [by apply trim_empty_iff | done].
Qed.

(** X16: Typing, or a click on the microphone, while a reply is streaming ends
    the call in its [catch] block: the error toast 'Chat failed' is
    shown, once, [loading] is reset and the abort handle dropped. *)
Theorem abort_shows_chat_failed (t0 : Z) (tr : list event) (e : event)
    (k : nat) (ss : stream_session) :
  let s := run (init t0) tr in
  sessions s !! k = Some ss -> is_closed (ss_phase ss) = false ->
  interrupts s e = true ->
  toasts (step s e) = toasts s ++ ["Chat failed"] /\
  loading (step s e) = false /\
  streamAbortRef (step s e) = None.
Proof.
  intros s Hk Hrun He.
  assert (Hinv : stream_inv s) by apply stream_inv_run, stream_inv_init.
  destruct (active_facts s k ss Hinv Hk Hrun) as (Href & Htrim & _).
  assert (Hab : forall t,
            sessions t = sessions s -> streamAbortRef t = Some k ->
            toasts t = toasts s ->
            let t' := after_abort (Some k) (stopStreaming t) in
            toasts t' = toasts s ++ ["Chat failed"] /\ loading t' = false /\
            streamAbortRef t' = None).
  { intros t Hs Hr Ht. unfold after_abort, stopStreaming. rewrite Hr. fields.
    rewrite Hs, (lookup_alter_Some _ _ _ _ _ Hk), decide_True by done.
    cbn [abort ss_aborted ss_phase]. rewrite Hrun. cbn [negb andb].
    unfold stream_fail, close. fields. by rewrite Ht. }
  destruct e; try done; cbn [step interrupts] in *.
  - unfold onInputChange. rewrite Href.
    apply Hab; [reflexivity | exact Href | reflexivity].
  - rewrite Htrim in He. done.
  - unfold onToggleRecord. destruct (recording s); [done|]. rewrite Href.
    destruct (Hab (with_audio (stopAllAudio (audio s)) s))
      as (H1 & H2 & H3); [reflexivity | exact Href | reflexivity |].
    revert H1 H2 H3. unfold after_abort, stopStreaming. fields. rewrite Href. fields.
    destruct (alter abort k (sessions s) !! k) as [sk|]; [|done].
    destruct (ss_aborted sk && negb (is_closed (ss_phase sk))); [|done].
    unfold stream_fail, close. by fields.
Qed.

Lemma split_lines_app a b :
  split_lines (a +:+ String newline b) = split_lines a ++ split_lines b.
Proof.
  induction a as [|c a IH].
  - cbn. done.
  - change (String c a +:+ String newline b) with (String c (a +:+ String newline b)).
    cbn [split_lines]. rewrite IH. destruct (N.eqb c newline); [done|].
    destruct (split_lines a) as [|h t] eqn:E; [|done].
    by destruct a; cbn in E; [|destruct (N.eqb _ _); [|destruct (split_lines _)]].
Qed.

Lemma split_lines_newline a :
  split_lines (a +:+ String newline "") = split_lines a ++ [""].
Proof. by rewrite split_lines_app. Qed.

Lemma on_line_empty sid s : on_line sid s "" = s.
Proof. reflexivity. Qed.

(** X17: A response body cut into chunks after a newline is read as if it had
    come in one piece. *)
Theorem chunk_cut_after_newline (s : state) (sid : nat) (a b : string) :
  run s [ReadSettled sid (Chunk (a +:+ String newline ""));
         ReadSettled sid (Chunk b)] =
  step s (ReadSettled sid (Chunk (a +:+ String newline b))).
Proof.
  cbn [run fold_left step]. unfold onRead.
  destruct (sessions s !! sid) as [ss|] eqn:Hs.
  - destruct (ss_phase ss) eqn:Hp; try by rewrite Hs, Hp.
    unfold on_chunk. rewrite split_lines_newline, split_lines_app.
    rewrite !fold_left_app_lines. cbn [fold_left]. rewrite on_line_empty.
    destruct (on_lines_phase sid ss (split_lines a) s Hs) as (ss' & -> & ->).
    by rewrite Hp.
  - by rewrite Hs.
Qed.

(** ** The spinner *)

Lemma on_chunk_keeps sid c s ss :
  sessions s !! sid = Some ss ->
  loading (on_chunk sid c s) = loading s /\
  exists ss', sessions (on_chunk sid c s) !! sid = Some ss' /\
              ss_phase ss' = ss_phase ss.
Proof.
  intros Hs. unfold on_chunk. split; [|by apply on_lines_phase].
  rewrite (on_lines_spec sid ss _ s Hs). by destruct (delta_texts _).
Qed.

Lemma after_abort_cases v t :
  after_abort v t = t \/
  exists sid ss, v = Some sid /\ sessions t !! sid = Some ss /\
                 ss_aborted ss = true /\ is_closed (ss_phase ss) = false /\
                 after_abort v t = stream_fail sid t.
Proof.
  unfold after_abort. destruct v as [sid|]; [|by left].
  destruct (sessions t !! sid) as [ss|] eqn:Hs; [|by left].
  destruct (ss_aborted ss && negb (is_closed (ss_phase ss))) eqn:E; [|by left].
  right. exists sid, ss. apply andb_prop in E as [E1 E].
  repeat split; try done. by destruct (is_closed (ss_phase ss)).
Qed.

Lemma after_abort_loading v t :
  loading t = false -> loading (after_abort v t) = false.
Proof.
  intros H. destruct (after_abort_cases v t) as [->|(sid & ss & _ & _ & _ & _ & ->)];
    [done|]. reflexivity.
Qed.

Lemma stopStreaming_loading t : loading (stopStreaming t) = loading t.
Proof. unfold stopStreaming. by destruct (streamAbortRef t). Qed.

Lemma not_streaming_closed s :
  ~ streaming s ->
  forall k ss, sessions s !! k = Some ss -> is_closed (ss_phase ss) = true.
Proof.
  intros H k ss Hk. destruct (is_closed (ss_phase ss)) eqn:E; [done|].
  destruct H. by exists k, ss.
Qed.

Lemma after_abort_active k ss t :
  streamAbortRef t = Some k -> sessions t !! k = Some ss ->
  is_closed (ss_phase ss) = false ->
  after_abort (Some k) (stopStreaming t) = stream_fail k (stopStreaming t).
Proof.
  intros Hr Hk Hrun. unfold after_abort.
  rewrite (stopStreaming_lookup t k ss Hk), decide_True by done.
  cbn [abort ss_aborted ss_phase]. by rewrite Hrun.
Qed.

Lemma after_abort_micPending v n t :
  loading (after_abort v (with_micPending n t)) = loading (after_abort v t).
Proof.
  unfold after_abort. destruct v as [sid|]; [|done]. fields.
  destruct (sessions t !! sid) as [sk|]; [|done].
  by destruct (ss_aborted sk && negb (is_closed (ss_phase sk))).
Qed.

Lemma interrupt_loading s e :
  stream_inv s -> (loading s = true <-> streaming s) ->
  interrupts s e = true -> (forall u a n, e <> SendText u a n) ->
  loading (step s e) = false.
Proof.
  intros Hinv HJ He Hns.
  assert (Hcase : forall t, sessions t = sessions s -> loading t = loading s ->
            streamAbortRef t = streamAbortRef s ->
            loading (after_abort (streamAbortRef s) (stopStreaming t)) = false).
  { intros t Hs Hl Hr.
    destruct (loading s) eqn:El.
    - destruct (proj1 HJ eq_refl) as (k & sk & Hk & Hrun).
      destruct (active_facts s k sk Hinv Hk Hrun) as (Href & _ & _).
      rewrite Href in *. rewrite <- Hs in Hk.
      by rewrite (after_abort_active k sk t Hr Hk Hrun).
    - apply after_abort_loading. by rewrite stopStreaming_loading. }
  destruct e; try done; cbn [step interrupts] in *.
  - unfold onInputChange. by apply Hcase.
  - by destruct (Hns uid aid now).
  - unfold onToggleRecord. destruct (recording s); [done|].
    rewrite after_abort_micPending. by apply Hcase.
Qed.

Lemma loading_frame s e :
  match e with
  | MicSettled _ | DataAvailable _ _ | CancelRecording | ConfirmRecording
  | SpeakText _ _ | SpeakFetched _ _ | SpeakBlob _ _ | AudioEvent _ =>
      loading (step s e) = loading s
  | _ => True
  end.
Proof.
  destruct e; try done; cbn [step].
  - unfold onMicSettled. destruct (micPending s); [done|]. by destruct granted.
  - unfold onDataAvailable. destruct (recorders s !! r); [|done].
    destruct (_ || _); [|done]. by destruct (_ <? _)%nat.
  - unfold cancelRecording, stop_current. fields.
    destruct (mediaRecorderRef s) as [r|]; [|done].
    destruct (recorders s !! r) as [rc|]; [|done]. by destruct (r_inactive rc).
  - unfold confirmRecording, stop_current. fields.
    destruct (mediaRecorderRef s) as [r|]; [|done].
    destruct (recorders s !! r) as [rc|]; [|done]. by destruct (r_inactive rc).
  - unfold onSpeakFetched. destruct (speaks s !! k) as [t|]; [|done].
    destruct (sp_progress t); try done. by destruct r as [[]|].
  - unfold onSpeakBlob. destruct (speaks s !! k) as [t|]; [|done].
    destruct (sp_progress t); try done. by destruct r.
Qed.

Lemma onSendText_running uid aid now s :
  stream_inv s -> string_eqb (trim (input s)) "" = false ->
  loading (onSendText uid aid now s) = true /\
  exists ss, sessions (onSendText uid aid now s) !! length (sessions s) = Some ss /\
             ss_phase ss = AwaitingFetch.
Proof.
  intros [_ Hclosed] Hne. unfold onSendText. rewrite Hne. cbv zeta.
  assert (Hall : forall k ss, sessions s !! k = Some ss ->
                              is_closed (ss_phase ss) = true).
  { apply Hclosed. intros H. by rewrite H in Hne. }
  match goal with |- context [stopStreaming ?t] =>
    set (t4 := t); set (s5 := stopStreaming t4) end.
  assert (Hs4 : sessions t4 = sessions s) by reflexivity.
  assert (Hlen : length (sessions s5) = length (sessions s)).
  { subst s5. by rewrite stopStreaming_sessions_length. }
  assert (Hold : forall k ss, sessions s5 !! k = Some ss ->
                              is_closed (ss_phase ss) = true).
  { intros k ss Hk. subst s5. destruct (sessions t4 !! k) as [sk|] eqn:Esk.
    - rewrite (stopStreaming_lookup t4 k sk Esk) in Hk. injection Hk as <-.
      rewrite Hs4 in Esk. case_decide; cbn [abort ss_phase]; by eapply Hall.
    - apply lookup_ge_None in Esk. apply lookup_lt_Some in Hk.
      rewrite stopStreaming_sessions_length in Hk. lia. }
  set (new := Session _ aid "" false AwaitingFetch).
  match goal with |- context [after_abort ?v ?t] => set (t7 := t) end.
  assert (Hs7 : sessions t7 = sessions s5 ++ [new]) by reflexivity.
  assert (Hl7 : loading t7 = true).
  { subst t7 s5. fields. by rewrite stopStreaming_loading. }
  destruct (after_abort_cases (streamAbortRef s) t7)
    as [->|(sid & ss & Hv & Hs & Hab & Hrun & _)].
  - split; [done|]. exists new. split; [|done].
    rewrite Hs7, lookup_app_r by lia. by rewrite Hlen, Nat.sub_diag.
  - exfalso. rewrite Hs7 in Hs. apply lookup_snoc_Some in Hs as [[_ Hs]|[_ <-]].
    + by rewrite (Hold sid ss Hs) in Hrun.
    + done.
Qed.

Lemma spinner_step s e :
  stream_inv s -> (loading s = true <-> streaming s) -> text_only e = true ->
  (loading (step s e) = true <-> streaming (step s e)).
Proof.
  intros Hinv HJ Ht.
  assert (Hint : interrupts s e = true -> (forall u a n, e <> SendText u a n) ->
            loading (step s e) = true <-> streaming (step s e)).
  { intros He Hns. rewrite (interrupt_loading s e Hinv HJ He Hns). split; [done|].
    intros (k & ss & Hk & Hrun).
    destruct (interrupt_running s e k ss Hinv He Hk Hrun) as (_ & u & a & n & ->).
    by destruct (Hns u a n). }
  assert (Hframe : stream_neutral e = true -> loading (step s e) = loading s ->
            loading (step s e) = true <-> streaming (step s e)).
  { intros Hn Hl. destruct (stream_frame s e Hn) as (Hs & _ & _).
    rewrite Hl. unfold streaming. by rewrite Hs. }
  pose proof (loading_frame s e) as Hlf.
  destruct e; try done; try (by apply Hframe).
  - by apply Hint.
  - cbn [step]. destruct (string_eqb (trim (input s)) "") eqn:E.
    + unfold onSendText. by rewrite E.
    + destruct (onSendText_running uid aid now s Hinv E) as (Hl & ss & Hs & Hp).
      split; [|done]. intros _. exists (length (sessions s)), ss.
      split; [done|]. by rewrite Hp.
  - (* FetchSettled *)
    cbn [step]. unfold onFetchSettled.
    destruct (sessions s !! sid) as [ss|] eqn:Hs; [|done].
    destruct (ss_phase ss) eqn:Hp; try done.
    assert (is_closed (ss_phase ss) = false) as Hrun by (by rewrite Hp).
    destruct (active_facts s sid ss Hinv Hs Hrun) as (_ & _ & Hothers).
    assert (loading s = true) as Hl by (apply HJ; by exists sid, ss).
    assert (Hfail : loading (stream_fail sid s) = true <-> streaming (stream_fail sid s)).
    { split; [done|]. intros (k & sk & Hk & Hc). exfalso.
      unfold stream_fail, close in Hk. revert Hk. fields.
      rewrite list_lookup_alter. destruct (decide (sid = k)) as [->|Hne].
      - rewrite Hs. intros [= <-]. done.
      - intros Hk. by rewrite (Hothers k sk) in Hc. }
    destruct r as [[[] []]|]; try exact Hfail.
    fields. rewrite Hl. split; [|done]. intros _.
    exists sid, (set_phase Reading ss). split; [|done]. fields.
    by rewrite (lookup_alter_Some _ _ _ _ _ Hs), decide_True.
  - (* ReadSettled *)
    cbn [step]. unfold onRead.
    destruct (sessions s !! sid) as [ss|] eqn:Hs; [|done].
    destruct (ss_phase ss) eqn:Hp; try done.
    assert (is_closed (ss_phase ss) = false) as Hrun by (by rewrite Hp).
    destruct (active_facts s sid ss Hinv Hs Hrun) as (_ & _ & Hothers).
    assert (loading s = true) as Hl by (apply HJ; by exists sid, ss).
    assert (Hclose : forall b t, sessions t = sessions s ->
              loading (close sid b t) = true <-> streaming (close sid b t)).
    { intros b t Hst. split; [done|]. intros (k & sk & Hk & Hc). exfalso.
      unfold close in Hk. revert Hk. fields. rewrite Hst.
      rewrite list_lookup_alter. destruct (decide (sid = k)) as [->|Hne].
      - rewrite Hs. intros [= <-]. done.
      - intros Hk. by rewrite (Hothers k sk) in Hc. }
    destruct r as [c| |].
    + destruct (on_chunk_keeps sid c s ss Hs) as (-> & ss' & Hs' & Hp').
      rewrite Hl. split; [|done]. intros _. exists sid, ss'.
      split; [done|]. by rewrite Hp', Hp.
    + by apply Hclose.
    + by apply Hclose.
  - (* ToggleRecord *)
    destruct (recording s) eqn:Hr.
    + cbn [step]. unfold onToggleRecord. by rewrite Hr.
    + apply Hint; [cbn; by rewrite Hr | done].
Qed.

(** X18: In a conversation by text, the spinner is shown exactly while a reply
    is on its way: [loading] is set if and only if a call of [onSendText]
    has not returned. *)
Theorem spinner_iff_streaming (t0 : Z) (tr : list event) :
  Forall (fun e => text_only e = true) tr ->
  let s := run (init t0) tr in
  loading s = true <-> streaming s.
Proof.
  intros Hall. cbn zeta.
  induction tr as [|e tr IH] using rev_ind.
  - split; [done|]. intros (k & ss & Hk & _). cbn in Hk. by rewrite lookup_nil in Hk.
  - apply Forall_app in Hall as [Htr He]. apply Forall_inv in He.
    rewrite run_app. cbn [run fold_left].
    apply spinner_step; [apply stream_inv_run, stream_inv_init | by apply IH | done].
Qed.

(** ** The message list *)

Lemma frame_set_text i t ms : frame_of <$> set_text i t ms = frame_of <$> ms.
Proof.
  unfold set_text. induction ms as [|msg ms IH]; [done|].
  cbn [map fmap list_fmap]. f_equal; [|exact IH].
  by destruct (string_eqb (m_id msg) i).
Qed.

Lemma frame_set_audioUrl i u ms :
  frame_of <$> set_audioUrl i u ms = frame_of <$> ms.
Proof.
  unfold set_audioUrl. induction ms as [|msg ms IH]; [done|].
  cbn [map fmap list_fmap]. f_equal; [|exact IH].
  by destruct (string_eqb (m_id msg) i).
Qed.

Lemma on_chunk_frames sid c s :
  frame_of <$> messages (on_chunk sid c s) = frame_of <$> messages s.
Proof.
  unfold on_chunk.
  destruct (sessions s !! sid) as [ss|] eqn:Hs.
  - rewrite (on_lines_spec sid ss _ s Hs). destruct (delta_texts _); [done|].
    fields. by rewrite frame_set_text.
  - assert (forall lines, fold_left (on_line sid) lines s = s) as ->; [|done].
    induction lines as [|l lines IH]; [done|]. cbn [fold_left].
    unfold on_line at 2, apply_delta. rewrite Hs.
    by destruct (classify l).
Qed.

Lemma step_frames s e :
  exists new, frame_of <$> messages (step s e) = (frame_of <$> messages s) ++ new.
Proof.
  assert (Hsame : forall t, frame_of <$> messages t = frame_of <$> messages s ->
            exists new, frame_of <$> messages t = (frame_of <$> messages s) ++ new).
  { intros t ->. exists []. by rewrite app_nil_r. }
  destruct e; cbn [step].
  - apply Hsame. unfold onInputChange.
    match goal with |- context [after_abort ?v ?t] =>
      destruct (after_abort_frame v t) as (-> & _ & _) end.
    match goal with |- context [stopStreaming ?t] =>
      destruct (stopStreaming_frame t) as (-> & _ & _) end.
    done.
  - destruct (string_eqb (trim (input s)) "") eqn:E.
    + apply Hsame. unfold onSendText. by rewrite E.
    + rewrite onSendText_messages by done. rewrite fmap_app. eauto.
  - apply Hsame. unfold onFetchSettled. split_matches; done.
  - apply Hsame. unfold onRead. split_matches; try done. apply on_chunk_frames.
  - apply Hsame. unfold onToggleRecord. destruct (recording s); [done|].
    match goal with |- context [after_abort ?v ?t] =>
      destruct (after_abort_frame v t) as (-> & _ & _) end.
    fields.
    match goal with |- context [stopStreaming ?t] =>
      destruct (stopStreaming_frame t) as (-> & _ & _) end.
    done.
  - apply Hsame. unfold onMicSettled. split_matches; done.
  - apply Hsame. unfold onDataAvailable. split_matches; done.
  - apply Hsame. unfold cancelRecording, stop_current. split_matches; done.
  - apply Hsame. unfold confirmRecording, stop_current. split_matches; done.
  - unfold onstop, onSendVoice, stop_tracks.
    destruct (recorders s !! r) as [rc|]; [|by apply Hsame].
    destruct (r_stopPending rc); [|by apply Hsame].
    fields. destruct (recordActionRef s); fields; [|by apply Hsame].
    rewrite fmap_app. eauto.
  - apply Hsame. unfold onVoiceFetched, voice_return, stop_tracks.
    split_matches; fields; rewrite ?frame_set_text; done.
  - apply Hsame. unfold onVoiceBlob, voice_return, stop_tracks.
    split_matches; fields; rewrite ?frame_set_audioUrl; done.
  - by apply Hsame.
  - apply Hsame. unfold onSpeakFetched. split_matches; done.
  - apply Hsame. unfold onSpeakBlob. split_matches; done.
  - by apply Hsame.
Qed.

(** X19: The message list only grows at its end: whatever happens, no message
    is removed or moved, and id, role and time of a message stay what they
    were. *)
Theorem messages_append_only (s : state) (tr : list event) :
  (frame_of <$> messages s) `prefix_of` (frame_of <$> messages (run s tr)).
Proof.
  revert s. induction tr as [|e tr IH]; intros s; [done|].
  cbn [run fold_left]. etrans; [|apply IH].
  destruct (step_frames s e) as [new ->]. by exists new.
Qed.

Lemma ids_nodup_step s e : NoDup (ids s) -> fresh s e -> NoDup (ids (step s e)).
Proof.
  intros Hnd Hf. destruct (step_ids s e) as (-> & _ & _).
  apply NoDup_app. split; [done|].
  destruct e; cbn [sends fresh] in *; try (split; [by intros ? ? ?%elem_of_nil | constructor]).
  - destruct (string_eqb _ _); [split; [by intros ? ? ?%elem_of_nil | constructor]|].
    destruct Hf as (Hne & Hu & Ha). split.
    + intros x Hx Hx'. apply elem_of_cons in Hx' as [->|Hx']; [done|].
      apply list_elem_of_singleton in Hx' as ->. done.
    + apply NoDup_cons. split; [by intros ?%list_elem_of_singleton|apply NoDup_singleton].
  - destruct (recorders s !! r) as [rc|]; [|split; [by intros ? ? ?%elem_of_nil | constructor]].
    destruct (r_stopPending rc); [|split; [by intros ? ? ?%elem_of_nil | constructor]].
    destruct (recordActionRef s); [|split; [by intros ? ? ?%elem_of_nil | constructor]].
    destruct Hf as (Hne & Hu & Ha). split.
    + intros x Hx Hx'. apply elem_of_cons in Hx' as [->|Hx']; [done|].
      apply list_elem_of_singleton in Hx' as ->. done.
    + apply NoDup_cons. split; [by intros ?%list_elem_of_singleton|apply NoDup_singleton].
Qed.

Lemma ids_nodup_run tr s : NoDup (ids s) -> fresh_run s tr -> NoDup (ids (run s tr)).
Proof.
  revert s. induction tr as [|e tr IH]; intros s Hnd Hf; [done|].
  destruct Hf as [He Hf]. apply IH; [by apply ids_nodup_step | done].
Qed.

(** X20: The keys of the rendered list are unique: as long as
    [crypto.randomUUID()] returns fresh ids, no two messages have the
    same id. *)
Theorem message_keys_unique (t0 : Z) (tr : list event) :
  fresh_run (init t0) tr -> NoDup (ids (run (init t0) tr)).
Proof. apply ids_nodup_run. apply NoDup_singleton. Qed.

Lemma filter_unique {A B} (f : A -> B) (P : A -> Prop)
    `{!forall x, Decision (P x)} (c : B) (l : list A) :
  NoDup (f <$> l) -> (forall x, P x -> f x = c) -> length (filter P l) <= 1.
Proof.
  intros Hnd HP. induction l as [|x l IH]; [simpl; lia|].
  rewrite fmap_cons in Hnd. apply NoDup_cons in Hnd as [Hx Hnd].
  rewrite filter_cons. destruct (decide (P x)) as [Hp|Hp]; [|by apply IH].
  rewrite (filter_none P l); [simpl; lia|].
  intros y Hy Hpy. apply Hx. rewrite (HP x Hp), <- (HP y Hpy).
  apply list_elem_of_fmap. eauto.
Qed.

(** X21: As long as [crypto.randomUUID()] returns fresh ids, at most one
    message shows the pause button. *)
Theorem one_pause_button (t0 : Z) (tr : list event) :
  fresh_run (init t0) tr ->
  let s := run (init t0) tr in
  length (filter (fun m => control_of (playingMsgId (audio s)) m = PauseButton)
                 (messages s)) <= 1.
Proof.
  intros Hf s.
  assert (Hnd : NoDup (m_id <$> messages s))
    by (apply (ids_nodup_run tr (init t0)); [apply NoDup_singleton | done]).
  destruct (playingMsgId (audio s)) as [i|].
  - apply (filter_unique m_id _ i); [done|].
    intros m. unfold control_of. destruct (m_role m); [done|].
    destruct (truthy_str (m_audioUrl m) || has_text m); [|done].
    destruct (string_eqb i (m_id m)) eqn:E; [|done].
    intros _. symmetry. by apply string_eqb_eq.
  - rewrite filter_none; [simpl; lia|].
    intros m _. unfold control_of. destruct (m_role m); [done|].
    by destruct (truthy_str (m_audioUrl m) || has_text m).
Qed.

Lemma texts_of_absent i ms : i ∉ (m_id <$> ms) -> texts_of i ms = [].
Proof.
  intros H. unfold texts_of. rewrite filter_none; [done|].
  intros m Hm Hi. apply H. apply list_elem_of_fmap. eauto.
Qed.

Lemma session_target s k ss : sessions s !! k = Some ss -> ss_msg ss ∈ targets s.
Proof.
  intros H. unfold targets. apply elem_of_app. left.
  apply list_elem_of_fmap. exists ss. split; [done|].
  apply list_elem_of_lookup. eauto.
Qed.

Lemma voice_target s v t :
  voices s !! v = Some t -> v_user t ∈ targets s /\ v_asst t ∈ targets s.
Proof.
  intros H. unfold targets.
  assert (voice_ids t ∈ voice_ids <$> voices s).
  { apply list_elem_of_fmap. exists t. split; [done|].
    apply list_elem_of_lookup. eauto. }
  split; apply elem_of_app; right; eapply elem_of_concat_2; eauto;
    unfold voice_ids; [apply list_elem_of_here|].
  apply list_elem_of_further, list_elem_of_here.
Qed.

Lemma untargeted_texts_step i s e :
  fresh s e -> i ∈ ids s -> i ∉ targets s ->
  texts_of i (messages (step s e)) = texts_of i (messages s).
Proof.
  intros Hf Hin Hnt.
  destruct e; cbn [step fresh] in *.
  - unfold onInputChange.
    match goal with |- context [after_abort ?v ?t] =>
      destruct (after_abort_frame v t) as (-> & _) end.
    match goal with |- context [stopStreaming ?t] =>
      destruct (stopStreaming_frame t) as (-> & _) end. done.
  - destruct (string_eqb (trim (input s)) "") eqn:E.
    + unfold onSendText. by rewrite E.
    + rewrite onSendText_messages by done. destruct Hf as (_ & Hu & Ha).
      rewrite texts_of_app, texts_of_two, app_nil_r; [done| |]; congruence.
  - unfold onFetchSettled. split_matches; unfold stream_fail, close; fields; done.
  - unfold onRead.
    destruct (sessions s !! sid) as [sv|] eqn:Hv; [|done].
    destruct (ss_phase sv) eqn:Hp; try done.
    destruct r; [|by unfold stream_done, close; fields
                 |by unfold stream_fail, close; fields].
    unfold on_chunk. rewrite (on_lines_spec sid sv _ s Hv).
    destruct (delta_texts _); [done|]. fields.
    apply texts_of_set_text_ne. intros ->. apply Hnt. by eapply session_target.
  - unfold onToggleRecord. destruct (recording s); [done|].
    match goal with |- context [after_abort ?v ?t] =>
      destruct (after_abort_frame v t) as (-> & _) end. fields.
    match goal with |- context [stopStreaming ?t] =>
      destruct (stopStreaming_frame t) as (-> & _) end. done.
  - unfold onMicSettled. split_matches; fields; done.
  - unfold onDataAvailable. split_matches; fields; done.
  - unfold cancelRecording, stop_current. split_matches; fields; done.
  - unfold confirmRecording, stop_current. split_matches; fields; done.
  - unfold onstop, onSendVoice, stop_tracks.
    destruct (recorders s !! r) as [rc|]; [|done].
    destruct (r_stopPending rc); [|done]. fields.
    destruct (recordActionRef s); fields; [|done].
    destruct Hf as (_ & Hu & Ha).
    rewrite texts_of_app, texts_of_two, app_nil_r; [done| |]; congruence.
  - unfold onVoiceFetched, voice_return, stop_tracks.
    destruct (voices s !! v) as [t|] eqn:Hv; [|done].
    destruct (voice_target s v t Hv) as [Hu Ha].
    split_matches; fields; try done. apply texts_of_set_text_ne.
    intros ->. by apply Hnt.
  - unfold onVoiceBlob, voice_return, stop_tracks.
    split_matches; fields; try done. apply texts_of_set_audioUrl.
  - unfold speakText. fields. done.
  - unfold onSpeakFetched. split_matches; fields; done.
  - unfold onSpeakBlob. split_matches; fields; done.
  - fields. done.
Qed.

Lemma untargeted_step i s e :
  fresh s e -> i ∈ ids s -> i ∉ targets s ->
  i ∈ ids (step s e) /\ i ∉ targets (step s e).
Proof.
  intros Hf Hin Hnt. destruct (step_ids s e) as (Hi & Hs & Hv).
  split; [rewrite Hi; apply elem_of_app; by left|].
  unfold targets. rewrite Hs, Hv. intros H.
  assert (Hnew : forall x, x ∈ new_reply s e ++ new_voice s e -> x ∉ ids s).
  { intros x Hx. destruct e; cbn [new_reply new_voice sends fresh] in *;
      try (by apply elem_of_nil in Hx).
    - destruct (string_eqb _ _); [by apply elem_of_nil in Hx|].
      rewrite app_nil_r in Hx. apply list_elem_of_singleton in Hx as ->. tauto.
    - cbn [app] in Hx. destruct (recorders s !! r) as [rc|]; [|by apply elem_of_nil in Hx].
      destruct (r_stopPending rc); [|by apply elem_of_nil in Hx].
      destruct (recordActionRef s); [|by apply elem_of_nil in Hx].
      apply elem_of_cons in Hx as [->|Hx]; [tauto|].
      apply list_elem_of_singleton in Hx as ->. tauto. }
  rewrite !elem_of_app in H. destruct H as [[H|H]|[H|H]].
  - apply Hnt. unfold targets. apply elem_of_app. by left.
  - apply (Hnew i); [|done]. apply elem_of_app. by left.
  - apply Hnt. unfold targets. apply elem_of_app. by right.
  - apply (Hnew i); [|done]. apply elem_of_app. by right.
Qed.

Lemma untargeted_texts_run i tr s :
  fresh_run s tr -> i ∈ ids s -> i ∉ targets s ->
  texts_of i (messages (run s tr)) = texts_of i (messages s).
Proof.
  revert s. induction tr as [|e tr IH]; intros s Hf Hin Hnt; [done|].
  destruct Hf as [He Hf]. cbn [run fold_left].
  destruct (untargeted_step i s e He Hin Hnt) as [Hin' Hnt'].
  rewrite <- (untargeted_texts_step i s e He Hin Hnt). by apply IH.
Qed.

(** X22: What the user typed stays as typed: the message a send appends for
    the user shows the trimmed input, once, and no later event changes
    it. *)
Theorem typed_text_is_kept (t0 : Z) (tr0 : list event) (u a : string) (n : Z)
    (tr : list event) :
  let s := run (init t0) tr0 in
  fresh_run (init t0) (tr0 ++ SendText u a n :: tr) ->
  blank (input s) = false ->
  texts_of u (messages (run s (SendText u a n :: tr))) = [trim (input s)].
Proof.
  intros s Hf Hb.
  apply fresh_run_app in Hf as [Hf0 Hf]. fold s in Hf.
  destruct Hf as [(Hne & Hu & Ha) Hf].
  assert (Hw : wf s) by (apply wf_run; [apply wf_init | done]).
  assert (E : string_eqb (trim (input s)) "" = false).
  { destruct (string_eqb (trim (input s)) "") eqn:E; [|done].
    apply string_eqb_eq, trim_empty_iff in E. congruence. }
  cbn [run fold_left]. fold (run (step s (SendText u a n)) tr).
  assert (Hnt : u ∉ targets s).
  { intros H. apply Hu. by apply Hw. }
  assert (Hin1 : u ∈ ids (step s (SendText u a n))).
  { destruct (step_ids s (SendText u a n)) as (-> & _). cbn [sends]. rewrite E.
    apply elem_of_app. right. apply list_elem_of_here. }
  assert (Hnt1 : u ∉ targets (step s (SendText u a n))).
  { destruct (step_ids s (SendText u a n)) as (_ & Hs & Hv).
    unfold targets. rewrite Hs, Hv. cbn [new_reply new_voice]. rewrite E, app_nil_r.
    rewrite !elem_of_app. intros [[H|H]|H].
    - apply Hnt. unfold targets. apply elem_of_app. by left.
    - apply list_elem_of_singleton in H. done.
    - apply Hnt. unfold targets. apply elem_of_app. by right. }
  rewrite (untargeted_texts_run u tr _ Hf Hin1 Hnt1).
  cbn [step]. rewrite onSendText_messages by done.
  rewrite texts_of_app, (texts_of_absent u (messages s)) by done.
  unfold texts_of. rewrite filter_cons_True by done.
  by rewrite filter_cons_False by (cbn [m_id]; congruence).
Qed.

(** ** Recorders *)
















(** ** The component and its queue *)

Lemma step_audio s e : audio (step s e) = audio_run (audio s) (audio_ops s e).
Proof.
  destruct e; cbn [step audio_ops audio_run fold_left audio_step].
  - unfold onInputChange. by rewrite after_abort_audio, stopStreaming_audio.
  - unfold onSendText. destruct (string_eqb _ _); [done|].
    rewrite after_abort_audio. fields. by rewrite stopStreaming_audio.
  - unfold onFetchSettled. split_matches; done.
  - unfold onRead. destruct (sessions s !! sid) as [ss|] eqn:Hs; [|done].
    destruct (ss_phase ss); try done. destruct r; try done.
    unfold on_chunk. rewrite (on_lines_spec sid ss _ s Hs).
    by destruct (delta_texts _).
  - unfold onToggleRecord. destruct (recording s); [done|].
    rewrite after_abort_audio. fields. by rewrite stopStreaming_audio.
  - unfold onMicSettled. split_matches; done.
  - unfold onDataAvailable. split_matches; done.
  - unfold cancelRecording, stop_current. split_matches; done.
  - unfold confirmRecording, stop_current. split_matches; done.
  - unfold onstop. split_matches; done.
  - unfold onVoiceFetched. split_matches; done.
  - unfold onVoiceBlob. destruct r as [u|].
    + destruct (voices s !! v) as [t|]; [|done]. by destruct (v_progress t).
    + destruct (voices s !! v) as [t|]; [|done]. by destruct (v_progress t).
  - done.
  - unfold onSpeakFetched. split_matches; done.
  - unfold onSpeakBlob. destruct r as [u|].
    + destruct (speaks s !! k) as [t|]; [|done]. by destruct (sp_progress t).
    + destruct (speaks s !! k) as [t|]; [|done]. by destruct (sp_progress t).
  - done.
Qed.

Lemma audio_run_app a tr1 tr2 :
  audio_run a (tr1 ++ tr2) = audio_run (audio_run a tr1) tr2.
Proof. apply fold_left_app. Qed.

(** X25: The handlers change the playback state only through [stopAllAudio],
    [enqueueAndPlay] and [playAudioUrl]: the playback state after a run of
    the component is the one the queue reaches by these calls and the
    callbacks of the elements, in the order they were made. *)
Theorem component_drives_queue (s : state) (tr : list event) :
  audio (run s tr) = audio_run (audio s) (audio_log s tr).
Proof.
  revert s. induction tr as [|e tr IH]; intros s; [done|].
  cbn [run fold_left audio_log]. fold (run (step s e) tr).
  by rewrite IH, step_audio, audio_run_app.
Qed.

Lemma run_audio s tr : audio (run s tr) = audio_run (audio s) (audio_log s tr).
Proof.
  revert s. induction tr as [|e tr IH]; intros s; [done|].
  cbn [run fold_left audio_log]. fold (run (step s e) tr).
  by rewrite IH, step_audio, audio_run_app.
Qed.

Lemma one_shot_origin s tr u :
  Forall (fun e => from_page e = true) tr ->
  (u, true) ∈ enqueued (audio_log s tr) ->
  exists k, SpeakBlob k (Some u) ∈ tr.
Proof.
  revert s. induction tr as [|e tr IH]; intros s Hall Hin.
  - by apply elem_of_nil in Hin.
  - apply Forall_cons in Hall as [He Hall]. cbn [audio_log] in Hin.
    unfold enqueued in Hin. rewrite flat_map_app in Hin.
    apply elem_of_app in Hin as [Hin|Hin].
    + destruct e; cbn [audio_ops] in Hin;
        repeat match type of Hin with
               | context [match ?x with _ => _ end] => destruct x eqn:?
               end;
        try (cbn in Hin;
             first [by apply elem_of_nil in Hin
                   |by apply list_elem_of_singleton in Hin
                   |by cbn in He]).
      * cbn in Hin. apply list_elem_of_singleton in Hin. injection Hin as ->.
        exists k. apply list_elem_of_here.
      * destruct e as [u' r m| |u' m|a|a|a|a]; try done; cbn in Hin;
          first [by apply elem_of_nil in Hin
                |by apply list_elem_of_singleton in Hin].
    + destruct (IH (step s e) Hall Hin) as [k Hk]. exists k.
      by apply list_elem_of_further.
Qed.

Lemma elem_of_set_text i t ms m' :
  m' ∈ set_text i t ms -> exists m, m ∈ ms /\ m_audioUrl m' = m_audioUrl m.
Proof.
  unfold set_text. intros H. apply list_elem_of_fmap in H as (m & -> & Hm).
  exists m. split; [done|]. by destruct (string_eqb (m_id m) i).
Qed.

Lemma elem_of_set_audioUrl i u ms m' :
  m' ∈ set_audioUrl i u ms ->
  exists m, m ∈ ms /\ (m_audioUrl m' = m_audioUrl m \/ m_audioUrl m' = Some u).
Proof.
  unfold set_audioUrl. intros H. apply list_elem_of_fmap in H as (m & -> & Hm).
  exists m. split; [done|]. destruct (string_eqb (m_id m) i); [by right | by left].
Qed.

Lemma step_stored s e m' u :
  m' ∈ messages (step s e) -> m_audioUrl m' = Some u ->
  (exists m, m ∈ messages s /\ m_audioUrl m = Some u) \/
  (exists v, e = VoiceBlob v (Some u)).
Proof.
  intros Hin Hu.
  assert (Hsame : m' ∈ messages s ->
            (exists m, m ∈ messages s /\ m_audioUrl m = Some u) \/
            (exists v, e = VoiceBlob v (Some u))) by (intros; left; eauto).
  assert (Htext : forall i t, m' ∈ set_text i t (messages s) ->
            (exists m, m ∈ messages s /\ m_audioUrl m = Some u) \/
            (exists v, e = VoiceBlob v (Some u))).
  { intros i t H. apply elem_of_set_text in H as (m & Hm & E).
    left. exists m. split; [done | congruence]. }
  assert (Hnew : forall a1 a2 r1 r2 t1 t2 n1 n2,
            m' ∈ messages s ++ [Msg a1 r1 t1 None n1; Msg a2 r2 t2 None n2] ->
            (exists m, m ∈ messages s /\ m_audioUrl m = Some u) \/
            (exists v, e = VoiceBlob v (Some u))).
  { intros a1 a2 r1 r2 t1 t2 n1 n2 H. apply elem_of_app in H as [H|H]; [eauto|].
    apply elem_of_cons in H as [->|H]; [done|].
    apply list_elem_of_singleton in H as ->. done. }
  destruct e; cbn [step] in Hin.
  - apply Hsame. revert Hin. unfold onInputChange.
    match goal with |- context [after_abort ?v ?t] =>
      destruct (after_abort_frame v t) as (-> & _ & _) end.
    match goal with |- context [stopStreaming ?t] =>
      destruct (stopStreaming_frame t) as (-> & _ & _) end.
    done.
  - destruct (string_eqb (trim (input s)) "") eqn:E.
    + apply Hsame. revert Hin. unfold onSendText. by rewrite E.
    + rewrite onSendText_messages in Hin by done. by eapply Hnew.
  - apply Hsame. revert Hin. unfold onFetchSettled. split_matches; done.
  - revert Hin. unfold onRead.
    destruct (sessions s !! sid) as [ss|] eqn:Hs; [|by apply Hsame].
    destruct (ss_phase ss); try (by apply Hsame).
    destruct r; try (by apply Hsame).
    unfold on_chunk. rewrite (on_lines_spec sid ss _ s Hs).
    destruct (delta_texts _); [by apply Hsame|]. fields. apply Htext.
  - apply Hsame. revert Hin. unfold onToggleRecord. destruct (recording s); [done|].
    match goal with |- context [after_abort ?v ?t] =>
      destruct (after_abort_frame v t) as (-> & _ & _) end.
    fields.
    match goal with |- context [stopStreaming ?t] =>
      destruct (stopStreaming_frame t) as (-> & _ & _) end.
    done.
  - apply Hsame. revert Hin. unfold onMicSettled. split_matches; done.
  - apply Hsame. revert Hin. unfold onDataAvailable. split_matches; done.
  - apply Hsame. revert Hin. unfold cancelRecording, stop_current. split_matches; done.
  - apply Hsame. revert Hin. unfold confirmRecording, stop_current. split_matches; done.
  - revert Hin. unfold onstop, onSendVoice, stop_tracks.
    destruct (recorders s !! r) as [rc|]; [|by apply Hsame].
    destruct (r_stopPending rc); [|by apply Hsame].
    fields. destruct (recordActionRef s); fields; [|by apply Hsame].
    apply Hnew.
  - revert Hin. unfold onVoiceFetched, voice_return, stop_tracks.
    destruct (voices s !! v) as [t|]; [|by apply Hsame].
    destruct (v_progress t); try (by apply Hsame).
    destruct r as [[[] hdr]|]; fields; try (by apply Hsame). apply Htext.
  - revert Hin. unfold onVoiceBlob, voice_return, stop_tracks.
    destruct (voices s !! v) as [t|]; [|by apply Hsame].
    destruct (v_progress t); try (by apply Hsame).
    destruct r as [u'|]; fields; [|by apply Hsame].
    intros H. apply elem_of_set_audioUrl in H as (m & Hm & [E|E]).
    + left. exists m. split; [done | congruence].
    + right. exists v. congruence.
  - by apply Hsame.
  - apply Hsame. revert Hin. unfold onSpeakFetched. split_matches; done.
  - apply Hsame. revert Hin. unfold onSpeakBlob. split_matches; done.
  - by apply Hsame.
Qed.

Lemma run_stored tr s m' u :
  m' ∈ messages (run s tr) -> m_audioUrl m' = Some u ->
  (exists m, m ∈ messages s /\ m_audioUrl m = Some u) \/
  (exists v, VoiceBlob v (Some u) ∈ tr).
Proof.
  revert s. induction tr as [|e tr IH]; intros s Hin Hu; [left; eauto|].
  cbn [run fold_left] in Hin. fold (run (step s e) tr) in Hin.
  destruct (IH (step s e) Hin Hu) as [(m & Hm & Hmu)|(v & Hv)].
  - destruct (step_stored s e m u Hm Hmu) as [H|(v & ->)]; [by left|].
    right. exists v. apply list_elem_of_here.
  - right. exists v. by apply list_elem_of_further.
Qed.

(** X26: The URLs the component releases are URLs of spoken replies, and the
    audio URLs it stores in messages are URLs of voice replies: a URL is
    handed to [URL.revokeObjectURL] only if [speakText] received it, and a
    message holds a URL only if [onSendVoice] received it. *)
Theorem released_and_stored_urls (t0 : Z) (tr : list event) :
  Forall (fun e => from_page e = true) tr ->
  let s := run (init t0) tr in
  (forall u, u ∈ revoked (audio s) -> exists k, SpeakBlob k (Some u) ∈ tr) /\
  (forall m u, m ∈ messages s -> m_audioUrl m = Some u ->
               exists v, VoiceBlob v (Some u) ∈ tr).
Proof.
  intros Hall s. split.
  - intros u Hu. subst s. rewrite run_audio in Hu.
    apply (one_shot_origin (init t0)); [done|].
    by apply (audio_run_accounted (audio_log (init t0) tr)).
  - intros m u Hm Hu. destruct (run_stored tr (init t0) m u Hm Hu)
      as [(m0 & Hm0 & Hu0)|H]; [|done].
    cbn in Hm0. apply list_elem_of_singleton in Hm0 as ->. done.
Qed.

(** X27: An interruption does not cancel a request for speech that is on its
    way: when its audio arrives, it starts playing at once as a one-shot
    entry for its message. *)
Theorem pending_speech_survives_interrupt (s : state) (e : event) (k : nat)
    (t : speak_task) (u : string) :
  speaks s !! k = Some t -> sp_progress t = OnBlob ->
  interrupts s e = true ->
  let s' := run s [e; SpeakBlob k (Some u)] in
  currentItemRef (audio s') =
    Some (Item (next_oid (audio s)) u (Some true) (sp_msg t)) /\
  isPlayingRef (audio s') = true /\
  playingMsgId (audio s') = sp_msg t /\
  exists a, audioRef (audio s') = Some a /\
    audios (audio s') !! a =
      Some (Audio u Playing true true
              (Item (next_oid (audio s)) u (Some true) (sp_msg t))).
Proof.
  intros Hk Hp He s'. subst s'. cbn [run fold_left].
  assert (Hsp : speaks (step s e) = speaks s).
  { destruct e; try done; cbn [step interrupts] in *.
    - unfold onInputChange, after_abort, stopStreaming. split_matches; done.
    - unfold onSendText. destruct (string_eqb _ _); [done|].
      unfold after_abort, stopStreaming. split_matches; done.
    - unfold onToggleRecord. destruct (recording s); [done|].
      unfold after_abort, stopStreaming. split_matches; done. }
  pose proof (interrupt_audio s e He) as Ha.
  cbn [step]. unfold onSpeakBlob. rewrite Hsp, Hk, Hp. fields. rewrite Ha.
  unfold enqueueAndPlay, tryPlayNext. rewrite stopAllAudio_spec. simpl.
  repeat split. eexists. split; [done|].
  rewrite lookup_app_r by lia. by rewrite Nat.sub_diag.
Qed.

(** ** Replies with audio *)





(** ** Streams and recordings apart *)

Lemma stopStreaming_mic s : mic_part (stopStreaming s) = mic_part s.
Proof. unfold stopStreaming. by destruct (streamAbortRef s). Qed.

Lemma stopStreaming_recording s : recording (stopStreaming s) = recording s.
Proof. unfold stopStreaming. by destruct (streamAbortRef s). Qed.

Lemma after_abort_mic v s : mic_part (after_abort v s) = mic_part s.
Proof.
  unfold after_abort. destruct v as [k|]; [|done].
  destruct (sessions s !! k) as [ss|]; [|done].
  by destruct (ss_aborted ss && negb (is_closed (ss_phase ss))).
Qed.

Lemma on_chunk_mic sid c s : mic_part (on_chunk sid c s) = mic_part s.
Proof.
  unfold on_chunk. generalize (split_lines c). intros lines. revert s.
  induction lines as [|l lines IH]; intros s; [done|].
  cbn [fold_left]. rewrite IH. unfold on_line, apply_delta.
  destruct (classify l); try done. by destruct (sessions s !! sid).
Qed.

(** What an event does to the request for the microphone and to the
    recording bar. *)
Lemma mic_step s e :
  mic_part (step s e) =
  match e with
  | ToggleRecord =>
      if recording s then mic_part s else (S (micPending s), recording s)
  | MicSettled granted =>
      match micPending s with
      | O => mic_part s
      | S n => (n, granted || recording s)
      end
  | CancelRecording | ConfirmRecording => (micPending s, false)
  | _ => mic_part s
  end.
Proof.
  destruct e; cbn [step].
  - unfold onInputChange. by rewrite after_abort_mic, stopStreaming_mic.
  - unfold onSendText. destruct (string_eqb _ _); [done|].
    rewrite after_abort_mic.
    match goal with |- context [stopStreaming ?t] =>
      transitivity (mic_part (stopStreaming t)); [done|];
      by rewrite stopStreaming_mic end.
  - unfold onFetchSettled. split_matches; unfold stream_fail, close; done.
  - unfold onRead. split_matches; unfold stream_done, stream_fail, close;
      try done. apply on_chunk_mic.
  - unfold onToggleRecord. destruct (recording s) eqn:E; [done|].
    rewrite after_abort_mic.
    match goal with |- context [stopStreaming ?t] =>
      transitivity (S (micPending s), recording (stopStreaming t)); [done|];
      rewrite stopStreaming_recording end.
    fields. by rewrite E.
  - unfold onMicSettled. destruct (micPending s); [done|]. by destruct granted.
  - unfold onDataAvailable. by split_matches.
  - unfold cancelRecording, stop_current. by split_matches.
  - unfold confirmRecording, stop_current. by split_matches.
  - unfold onstop, onSendVoice, stop_tracks. by split_matches.
  - unfold onVoiceFetched, stop_tracks. by split_matches.
  - unfold onVoiceBlob. by split_matches.
  - done.
  - unfold onSpeakFetched. by split_matches.
  - unfold onSpeakBlob. by split_matches.
  - done.
Qed.

Lemma mic_busy_part s s' : mic_part s' = mic_part s -> mic_busy s' = mic_busy s.
Proof. unfold mic_part, mic_busy. by intros [= -> ->]. Qed.

(** An event that interrupts nothing finds the microphone busy if it
    leaves it busy. *)
Lemma mic_busy_before s e :
  interrupts s e = false -> mic_busy (step s e) = true -> mic_busy s = true.
Proof.
  intros Hi. pose proof (mic_step s e) as H. unfold mic_busy, mic_part in *.
  destruct e; cbn [interrupts step] in *; try done;
    try (injection H as -> ->; done).
  - apply negb_false_iff in Hi. intros _. by rewrite Hi, orb_true_r.
  - clear H. destruct (micPending s) as [|n] eqn:E; [|done].
    unfold onMicSettled. rewrite E. by rewrite E.
  - unfold cancelRecording in *. fields. injection H as ->.
    rewrite orb_false_r. by intros ->.
  - unfold confirmRecording in *. fields. injection H as ->.
    rewrite orb_false_r. by intros ->.
Qed.

Lemma all_closed_step s e :
  stream_inv s ->
  (forall k ss, sessions s !! k = Some ss -> is_closed (ss_phase ss) = true) ->
  new_reply s e = [] ->
  forall k ss, sessions (step s e) !! k = Some ss -> is_closed (ss_phase ss) = true.
Proof.
  intros Hinv Hall Hnew k ss' Hk.
  pose proof (proj1 (proj2 (step_ids s e))) as H.
  rewrite Hnew, app_nil_r in H. apply (f_equal length) in H.
  rewrite !length_fmap in H.
  assert (is_Some (sessions s !! k)) as [ss Hs].
  { apply lookup_lt_is_Some. apply lookup_lt_Some in Hk. lia. }
  destruct (closed_frozen_step s e k ss Hs (Hall k ss Hs)) as (ss'' & Hk'' & _ & _ & _ & Hp).
  rewrite Hk in Hk''. injection Hk'' as <-. rewrite Hp. by apply (Hall k ss).
Qed.

(** X30: As long as no question is sent while the microphone is asked for or
    a recording is shown, no call of [onSendText] is running while the
    microphone is asked for or a recording is shown: the click on the
    microphone has stopped what was streaming, and nothing has started
    since. *)
Theorem no_stream_while_recording (t0 : Z) (tr : list event) :
  apart_run (init t0) tr ->
  let s := run (init t0) tr in
  mic_busy s = true -> ~ streaming s.
Proof.
  intros Ha s Hb (k & ss & Hk & Hc).
  assert (forall s0, stream_inv s0 ->
            (mic_busy s0 = true -> forall k ss, sessions s0 !! k = Some ss ->
                                     is_closed (ss_phase ss) = true) ->
            apart_run s0 tr ->
            mic_busy (run s0 tr) = true ->
            forall k ss, sessions (run s0 tr) !! k = Some ss ->
                         is_closed (ss_phase ss) = true) as Hgen.
  { clear. induction tr as [|e tr IH]; intros s0 Hinv Hall [] Hb; [by apply Hall|].
    cbn [run fold_left] in *. apply IH; try done; [by apply stream_inv_step|].
    intros Hb' k ss Hk.
    destruct (interrupts s0 e) eqn:Hi.
    - destruct (decide (new_reply s0 e = [])) as [Hn|Hn].
      + destruct (decide (k < length (sessions s0))) as [Hlt|Hge].
        * apply lookup_lt_is_Some in Hlt as [ss0 Hk0].
          by destruct (interrupt_closed s0 e k ss0 ss Hinv Hi Hk0 Hk).
        * pose proof (proj1 (proj2 (step_ids s0 e))) as Hl.
          rewrite Hn, app_nil_r in Hl. apply (f_equal length) in Hl.
          rewrite !length_fmap in Hl. apply lookup_lt_Some in Hk. lia.
      + destruct e; try done. cbn [new_reply apart interrupts] in *.
        destruct (string_eqb (trim (input s0)) ""); [done|].
        cbn [orb] in *. 
        pose proof (mic_busy_part _ _ (mic_step s0 (SendText uid aid now))) as Hm.
        rewrite Hm in Hb'. by rewrite Hb' in H.
    - refine (all_closed_step s0 e Hinv _ _ k ss Hk).
      + apply Hall. by apply (mic_busy_before s0 e).
      + destruct e; try done. cbn [new_reply interrupts] in *.
        by destruct (string_eqb _ _). }
  assert (is_closed (ss_phase ss) = true); [|congruence].
  apply (Hgen (init t0) (stream_inv_init t0)) with k; try done.
Qed.

End Proofs.

(** * The theorems at work on concrete runs *)

(** C10, on an input of white space only: an ideographic space, a
    no-break space, a byte order mark, a line separator, a tab and a
    space. *)
Lemma send_blank_is_noop_witness :
  blank wide_blank = true /\
  @step demo (with_input wide_blank (init 0)) (SendText "u1" "a1" 1) =
    with_input wide_blank (init 0).
Proof.
  split; [reflexivity|].
  apply (@send_blank_is_noop demo). reflexivity.
Defined.

(** C8, as stated, fails on the first question asked: the body of the
    request holds the user id and the query, no conversation id and no
    context window, and none of its fields is a list, although a message
    precedes the question. *)
Lemma request_carries_no_context :
  let s := @run demo (init 0) [InputChange "hi"; SendText "u1" "a1" 1] in
  exists ss,
    sessions s !! 0 = Some ss /\
    messages (init 0) <> [] /\
    req_body (ss_request ss) =
      JObj [("user_id", JStr "demo"); ("query", JStr "hi")] /\
    prop "conversationId" (req_body (ss_request ss)) = Some None /\
    prop "contextWindow" (req_body (ss_request ss)) = Some None /\
    forall k l, prop k (req_body (ss_request ss)) <> Some (Some (JArr l)).
Proof.
  eexists. split; [vm_compute; reflexivity|].
  split; [discriminate|]. split; [reflexivity|].
  split; [reflexivity|]. split; [reflexivity|].
  intros k l. cbn [ss_request req_body prop assoc].
  destruct (string_eqb k "user_id"); [discriminate|].
  destruct (string_eqb k "query"); discriminate.
Qed.

(** C8 (amended), on the input [" hi "]. *)
Lemma send_request_shape_witness :
  blank " hi " = false /\
  ss_request <$> sessions (@step demo (with_input " hi " (init 0))
                             (SendText "u1" "a1" 1)) !! 0 =
    Some (Request "http://127.0.0.1:8000/chat/stream" "POST"
            [("Content-Type", "application/json")]
            (JObj [("user_id", JStr "demo"); ("query", JStr "hi")])).
Proof.
  split; [reflexivity|].
  destruct (@send_request_shape demo (with_input " hi " (init 0)) "u1" "a1" 1 eq_refl)
    as (_ & H & _).
  exact H.
Defined.

(** C4 (at the failing input): a response whose first chunk holds the
    deltas ["Hel"] and ["lo"] and the end event: the text is ["Hello"],
    but the end event completes nothing.  After it the call is still
    reading, [loading] is set and the abort handle is held; a delta that
    arrives after the end event is appended to the message; the call
    completes when the body ends. *)
Lemma end_event_does_not_complete :
  let s := @run demo (init 0) (asking ++ [ReadSettled 0 (Chunk hello_chunk)]) in
  let later := @step demo s (ReadSettled 0 (Chunk (delta_line "!"))) in
  let closed := @step demo s (ReadSettled 0 Done) in
  (ss_text <$> sessions s !! 0 = Some "Hello" /\
   ss_phase <$> sessions s !! 0 = Some Reading /\
   loading s = true /\ streamAbortRef s = Some 0) /\
  texts_of "a1" (messages later) = ["Hello!"] /\
  (ss_phase <$> sessions closed !! 0 = Some (Closed true) /\
   loading closed = false /\ streamAbortRef closed = None).
Proof. vm_compute. repeat split; reflexivity. Qed.

(** The read loop on the stream ["Hel"], ["lo"], end, followed by a chunk
    of broken lines with one more delta, and then by the end of the
    response. *)
Lemma stream_accumulates_witness :
  let s := @run demo (init 0) asking in
  let s2 := @run demo s (chunks 0 [hello_chunk; noisy_chunk] ++ [ReadSettled 0 Done]) in
  (ss_phase <$> sessions s !! 0 = Some Reading) /\
  delta_texts (platform := demo) (flat_map split_lines [hello_chunk; noisy_chunk]) = ["Hel"; "lo"; "!"] /\
  ss_text <$> sessions s2 !! 0 = Some "Hello!" /\
  ss_phase <$> sessions s2 !! 0 = Some (Closed true) /\
  texts_of "a1" (messages s2) = ["Hello!"] /\
  loading s2 = false /\ streamAbortRef s2 = None /\ toasts s2 = [].
Proof.
  intros s s2.
  assert (exists ss, sessions s !! 0 = Some ss /\ ss_phase ss = Reading /\
                     ss_text ss = "" /\ ss_msg ss = "a1") as (ss & Hs & Hp & Ht & Hm).
  { eexists. split; [vm_compute; reflexivity|]. repeat split. }
  split; [by rewrite Hs; cbn; rewrite Hp|].
  assert (delta_texts (platform := demo) (flat_map split_lines [hello_chunk; noisy_chunk])
          = ["Hel"; "lo"; "!"]) as Hd by (vm_compute; reflexivity).
  split; [exact Hd|].
  destruct (@stream_accumulates demo s 0 ss [hello_chunk; noisy_chunk] Hs Hp)
    as (_ & (H2 & Hm2 & Hl2 & Hr2 & Ht2) & _).
  subst s2. rewrite run_app. cbn [run fold_left].
  rewrite H2, Hm2, Hl2, Hr2, Ht2.
  destruct (@stream_accumulates demo s 0 ss [hello_chunk; noisy_chunk] Hs Hp)
    as ((_ & Hm1 & _) & _). rewrite Hm1, Hd, Ht, Hm.
  cbn [fmap option_fmap option_map ss_text ss_phase concat_text fold_right].
  repeat split; vm_compute; reflexivity.
Defined.

(** What the loop appends for the [text] of a delta that is not a string:
    a number, [true] and an array are written out, an object is written
    as ["[object Object]"]; a line whose [text] is falsy, or is or holds
    an object with a property [toString], is skipped. *)
Lemma delta_text_conversions :
  @classify demo (delta_of "42") = Delta "42" /\
  @classify demo (delta_of "true") = Delta "true" /\
  @classify demo (delta_of "[1, null, [2, 3]]") = Delta "1,,2,3" /\
  @classify demo (delta_of ("{" +:+ quoted "a" +:+ ": 1}")) = Delta "[object Object]" /\
  @classify demo (delta_of "0") = Ignored /\
  @classify demo (delta_of (quoted "")) = Ignored /\
  @classify demo (delta_of ("{" +:+ quoted "toString" +:+ ": 1}")) = Ignored /\
  @classify demo (delta_of ("[{" +:+ quoted "toString" +:+ ": 1}]")) = Ignored.
Proof. vm_compute. repeat split; reflexivity. Qed.

(** C5, on a reply of which ["Hel"] has arrived when the user starts
    typing; ["lo"] and the end of the response arrive afterwards. *)
Lemma abort_is_final_witness :
  let s := @run demo (init 0) (asking ++ [ReadSettled 0 (Chunk (delta_line "Hel"))]) in
  let late := [ReadSettled 0 (Chunk (delta_line "lo")); ReadSettled 0 Done] in
  let s' := @run demo s (InputChange "x" :: late) in
  (wf s /\ streamAbortRef s = Some 0 /\
   @fresh_run demo s (InputChange "x" :: late)) /\
  texts_of "a1" (messages s) = ["Hel"] /\
  texts_of "a1" (messages s') = ["Hel"] /\
  ss_phase <$> sessions s' !! 0 = Some (Closed false).
Proof.
  intros s late s'.
  assert (wf s) as Hw.
  { apply (@wf_run demo); [apply wf_init|].
    cbn. repeat split; try done;
      apply (bool_decide_unpack _); vm_compute; exact I. }
  assert (exists ss, sessions s !! 0 = Some ss /\ is_closed (ss_phase ss) = false /\
                     ss_msg ss = "a1") as (ss & Hs & Hc & Hm).
  { eexists. split; [vm_compute; reflexivity|]. split; reflexivity. }
  assert (@fresh_run demo s (InputChange "x" :: late)) as Hf by (cbn; tauto).
  split; [split; [exact Hw | split; [vm_compute; reflexivity | exact Hf]]|].
  split; [vm_compute; reflexivity|].
  destruct (@abort_is_final demo s 0 ss (InputChange "x") late Hw Hs Hc eq_refl eq_refl Hf)
    as ((ss' & Hs' & _ & Hp') & Htx).
  rewrite Hm in Htx. fold s' in Hs', Htx. split.
  - rewrite Htx. vm_compute. reflexivity.
  - rewrite Hs'. cbn. by rewrite Hp'.
Defined.

(** C6, as stated, fails on a confirmed recording: when the stop callback
    has run and the voice request is on its way, the tracks of the
    microphone are still live. *)
Lemma tracks_live_after_confirmed_stop :
  let s := @run demo (init 0) confirmed_recording in
  v_progress <$> voices s !! 0 = Some OnFetch /\
  r_tracksLive <$> recorders s !! 0 = Some true.
Proof. vm_compute. split; reflexivity. Qed.

(** C6 (amended), on a recording of three chunks, one of them empty, with
    an edit of the input in between. *)
Lemma recording_session_witness :
  let s := @step demo (init 0) ToggleRecord in
  let seg1 := [DataAvailable 0 byte1; InputChange "x"; DataAvailable 0 no_bytes;
               DataAvailable 0 byte2] in
  let seg2 := [DataAvailable 0 byte3] in
  let stopped := [RecorderStopped 0 "u1" "a1" 1] in
  (0 < micPending s /\ unowned 0 s /\
   Forall (fun e => quiet 0 e = true) seg1 /\
   Forall (fun e => quiet 0 e = true) seg2) /\
  voices (@run demo s (MicSettled true :: seg1 ++ CancelRecording :: seg2 ++ stopped)) = [] /\
  voices (@run demo s (MicSettled true :: seg1 ++ ConfirmRecording :: seg2 ++ stopped)) !! 0 =
    Some (Voice (Blob [Byte.x01; Byte.x02; Byte.x03] webm_opus) "u1" "a1" OnFetch 0).
Proof.
  intros s seg1 seg2 stopped.
  assert (0 < micPending s) as H1 by (vm_compute; lia).
  assert (unowned 0 s) as H2 by (intros v t Hv; vm_compute in Hv; discriminate).
  assert (Forall (fun e => quiet 0 e = true) seg1) as H3
    by (repeat constructor).
  assert (Forall (fun e => quiet 0 e = true) seg2) as H4
    by (repeat constructor).
  split; [done|].
  destruct (@recording_session demo s seg1 seg2 "u1" "a1" 1 H1 H2 H3 H4)
    as ((_ & Hlen & _) & (_ & Hv & _)).
  split.
  - apply nil_length_inv. exact Hlen.
  - exact Hv.
Defined.

(** C7 (at the failing input): a question is sent while the microphone
    request of [onToggleRecord] is pending.  Once the microphone is
    granted, a recording and a stream are both running: nothing stops the
    stream, which goes on filling its message. *)
Lemma stream_and_recording_together :
  let s := @run demo (init 0) send_while_asking_for_mic in
  (recording s = true /\ r_inactive <$> recorders s !! 0 = Some false) /\
  (ss_phase <$> sessions s !! 0 = Some Reading /\
   ss_aborted <$> sessions s !! 0 = Some false /\ streamAbortRef s = Some 0) /\
  texts_of "a1" (messages (@step demo s (ReadSettled 0 (Chunk (delta_line "Hel"))))) =
    ["Hel"].
Proof. vm_compute. repeat split; reflexivity. Qed.

(** An interrupting action, on a reply of which ["Hel"] has arrived when
    the user clicks the microphone; the microphone is granted, and ["lo"] arrives. *)
Lemma interrupt_clears_witness :
  let tr0 := asking ++ [ReadSettled 0 (Chunk (delta_line "Hel"))] in
  let tr := [MicSettled true; ReadSettled 0 (Chunk (delta_line "lo"))] in
  let s' := @run demo (init 0) (tr0 ++ ToggleRecord :: tr) in
  @fresh_run demo (init 0) (tr0 ++ ToggleRecord :: tr) /\
  recording s' = true /\
  ss_phase <$> sessions s' !! 0 = Some (Closed false) /\
  texts_of "a1" (messages s') = ["Hel"].
Proof.
  intros tr0 tr s'.
  assert (@fresh_run demo (init 0) (tr0 ++ ToggleRecord :: tr)) as Hf.
  { cbn. repeat split; try done;
      apply (bool_decide_unpack _); vm_compute; exact I. }
  split; [exact Hf|]. split; [vm_compute; reflexivity|].
  destruct (@interrupt_clears demo 0 tr0 ToggleRecord tr Hf eq_refl) as (_ & H & _).
  assert (exists ss, sessions (@run demo (init 0) tr0) !! 0 = Some ss /\
                     ss_msg ss = "a1") as (ss & Hs & Hm).
  { eexists. split; [vm_compute; reflexivity | reflexivity]. }
  destruct (H 0 ss Hs) as (ss' & Hs' & Hc' & _ & Htx).
  rewrite <- run_app in Hs', Htx. fold s' in Hs', Htx.
  split.
  - vm_compute. reflexivity.
  - rewrite Hm in Htx. rewrite Htx. vm_compute. reflexivity.
Defined.

(** * More theorems at work on concrete runs *)

Ltac small_index :=
  repeat match goal with
         | H : (_ :: _) !! ?i = Some _ |- _ => destruct i; simpl in H
         | H : [] !! _ = Some _ |- _ => by rewrite lookup_nil in H
         end.

Lemma replies_waiting_one_shot_ok : one_shot_ok (enqueued replies_waiting).
Proof.
  assert (enqueued replies_waiting =
          [("blob:a", true); ("blob:v", false); ("blob:b", true); ("blob:c", true)])
    as HE by reflexivity.
  split.
  - intros u Hu. rewrite HE in Hu.
    repeat (apply elem_of_cons in Hu as [Hu|Hu]; [by injection Hu as ->|]).
    by apply elem_of_nil in Hu.
  - intros i j u b Hi Hj. rewrite HE in Hi, Hj. small_index; congruence.
Defined.

Lemma replies_in_turn_one_shot_ok : one_shot_ok (enqueued replies_in_turn).
Proof.
  apply (one_shot_ok_prefix _ [("blob:c", true)]).
  exact replies_waiting_one_shot_ok.
Defined.

Lemma replies_waiting_timely : timely_run audio_init replies_waiting.
Proof. vm_compute. tauto. Defined.

Lemma replies_in_turn_timely : timely_run audio_init replies_in_turn.
Proof. vm_compute. tauto. Defined.

(** At most one element plays at the end of [replies_waiting]. *)
Lemma timely_no_overlap_witness :
  timely_run audio_init replies_waiting /\
  length (playing (audio_run audio_init replies_waiting)) <= 1.
Proof.
  split; [exact replies_waiting_timely|].
  apply timely_no_overlap. exact replies_waiting_timely.
Defined.

(** In [replies_waiting], the URL of the first spoken reply has been
    released once and is gone from the queue. *)
Lemma one_shot_released_once_witness :
  (timely_run audio_init replies_waiting /\
   one_shot_ok (enqueued replies_waiting) /\
   ("blob:a", true) ∈ enqueued replies_waiting) /\
  releases "blob:a" (audio_run audio_init replies_waiting) = 1 /\
  waiting "blob:a" (audio_run audio_init replies_waiting) = 0.
Proof.
  assert (("blob:a", true) ∈ enqueued replies_waiting) as Hin
    by apply list_elem_of_here.
  split; [split; [exact replies_waiting_timely |
                  split; [exact replies_waiting_one_shot_ok | exact Hin]]|].
  pose proof (one_shot_released_once replies_waiting "blob:a"
                replies_waiting_timely replies_waiting_one_shot_ok Hin) as H.
  assert (waiting "blob:a" (audio_run audio_init replies_waiting) = 0) as Hw
    by (vm_compute; reflexivity).
  rewrite Hw in H. split; [lia | exact Hw].
Defined.

(** In [replies_waiting], the reply that is playing and the one that waits
    have not been released. *)
Lemma no_release_before_use_witness :
  (timely_run audio_init replies_waiting /\
   one_shot_ok (enqueued replies_waiting) /\
   Item 3 "blob:c" (Some true) (Some "m3")
     ∈ pending (audio_run audio_init replies_waiting)) /\
  releases "blob:c" (audio_run audio_init replies_waiting) = 0.
Proof.
  assert (Item 3 "blob:c" (Some true) (Some "m3")
            ∈ pending (audio_run audio_init replies_waiting)) as Hin.
  { vm_compute. apply list_elem_of_further, list_elem_of_here. }
  split; [split; [exact replies_waiting_timely |
                  split; [exact replies_waiting_one_shot_ok | exact Hin]]|].
  exact (no_release_before_use replies_waiting _
           replies_waiting_timely replies_waiting_one_shot_ok Hin).
Defined.

(** In the run of C1 where the URL is released twice, it is still a
    one-shot URL that is released. *)
Lemma only_one_shots_released_witness :
  "blob:a" ∈ revoked (audio_run audio_init load_failure) /\
  ("blob:a", true) ∈ enqueued load_failure.
Proof.
  assert ("blob:a" ∈ revoked (audio_run audio_init load_failure)) as Hin.
  { vm_compute. apply list_elem_of_here. }
  split; [exact Hin|].
  exact (only_one_shots_released load_failure "blob:a" Hin).
Defined.

(** [replies_waiting] has no stop: its four entries appear in order. *)
Lemma plays_in_order_witness :
  Forall (fun e => stops e = false) replies_waiting /\
  lineup (audio_run audio_init replies_waiting) =
    [("blob:a", true); ("blob:v", false); ("blob:b", true); ("blob:c", true)].
Proof.
  assert (Forall (fun e => stops e = false) replies_waiting) as Hall
    by (repeat constructor).
  split; [exact Hall|].
  destruct (plays_in_order replies_waiting) as [_ H]. exact (H Hall).
Defined.

(** A stop at the end of [replies_waiting]: the three spoken replies have
    each been released once. *)
Lemma stop_settles_everything_witness :
  (timely_run audio_init replies_waiting /\
   one_shot_ok (enqueued replies_waiting)) /\
  playing (stopAllAudio (audio_run audio_init replies_waiting)) = [] /\
  releases "blob:a" (stopAllAudio (audio_run audio_init replies_waiting)) = 1 /\
  releases "blob:b" (stopAllAudio (audio_run audio_init replies_waiting)) = 1 /\
  releases "blob:c" (stopAllAudio (audio_run audio_init replies_waiting)) = 1.
Proof.
  split; [split; [exact replies_waiting_timely | exact replies_waiting_one_shot_ok]|].
  destruct (stop_settles_everything replies_waiting
              replies_waiting_timely replies_waiting_one_shot_ok) as [Hp Hr].
  split; [exact Hp|].
  repeat split; apply Hr; vm_compute;
    repeat (first [apply list_elem_of_here | apply list_elem_of_further]).
Defined.

(** Unmounting at the end of [replies_waiting]: the waiting reply is
    released, the one that is playing is not. *)
Lemma cleanup_on_unmount_witness :
  (timely_run audio_init replies_waiting /\
   one_shot_ok (enqueued replies_waiting)) /\
  playing (cleanup (audio_run audio_init replies_waiting)) = [] /\
  releases "blob:c" (cleanup (audio_run audio_init replies_waiting)) = 1 /\
  releases "blob:b" (cleanup (audio_run audio_init replies_waiting)) = 0.
Proof.
  split; [split; [exact replies_waiting_timely | exact replies_waiting_one_shot_ok]|].
  destruct (cleanup_on_unmount replies_waiting
              replies_waiting_timely replies_waiting_one_shot_ok) as (Hp & _ & Hr).
  split; [exact Hp|]. split.
  - rewrite Hr; [reflexivity|]. vm_compute.
    repeat (first [apply list_elem_of_here | apply list_elem_of_further]).
  - rewrite Hr; [reflexivity|]. vm_compute.
    repeat (first [apply list_elem_of_here | apply list_elem_of_further]).
Defined.

(** ** The chat view on concrete runs *)

Ltac fresh_here :=
  cbn; repeat split; try done; apply (bool_decide_unpack _); vm_compute; exact I.


(** The pause button under a voice reply that is playing. *)
Lemma pause_button_stops_witness :
  let s := @step demo (init 0) (AudioEvent (PlayAudioUrl "blob:v" (Some "a1"))) in
  control_of (playingMsgId (audio s)) voice_reply = PauseButton /\
  click s voice_reply = Some (AudioEvent StopAllAudio) /\
  control_of (playingMsgId (audio (@step demo s (AudioEvent StopAllAudio))))
             voice_reply <> PauseButton.
Proof.
  intros s. split; [reflexivity|].
  destruct (@pause_button_stops demo s voice_reply eq_refl) as [H1 H2].
  split; [exact H1 | exact (H2 voice_reply)].
Defined.

(** One pause button at most while the voice reply of [voice_round_trip]
    plays. *)
Lemma one_pause_button_witness :
  @fresh_run demo (init 0) voice_round_trip /\
  length (filter (fun m => control_of
                     (playingMsgId (audio (@run demo (init 0) voice_round_trip))) m
                   = PauseButton)
                 (messages (@run demo (init 0) voice_round_trip))) <= 1.
Proof.
  assert (@fresh_run demo (init 0) voice_round_trip) as Hf by fresh_here.
  split; [exact Hf|]. exact (@one_pause_button demo 0 voice_round_trip Hf).
Defined.

(** The reply of [asking] is the one stream. *)
Lemma one_stream_at_a_time_witness :
  let s := @run demo (init 0) asking in
  ss_phase <$> sessions s !! 0 = Some Reading /\
  streamAbortRef s = Some 0 /\ blank (input s) = true.
Proof.
  intros s.
  assert (exists ss, sessions s !! 0 = Some ss /\ is_closed (ss_phase ss) = false /\
                     ss_phase ss = Reading) as (ss & Hs & Hc & Hp).
  { eexists. split; [vm_compute; reflexivity|]. split; reflexivity. }
  split; [by rewrite Hs; cbn; rewrite Hp|].
  destruct (@one_stream_at_a_time demo 0 asking 0 ss Hs Hc) as (H1 & H2 & _).
  split; [exact H1 | exact H2].
Defined.

(** Typing while the reply of [asking] streams. *)
Lemma abort_shows_chat_failed_witness :
  let s := @run demo (init 0) asking in
  ss_phase <$> sessions s !! 0 = Some Reading /\
  toasts (@step demo s (InputChange "x")) = ["Chat failed"] /\
  loading (@step demo s (InputChange "x")) = false.
Proof.
  intros s.
  assert (exists ss, sessions s !! 0 = Some ss /\ is_closed (ss_phase ss) = false /\
                     ss_phase ss = Reading) as (ss & Hs & Hc & Hp).
  { eexists. split; [vm_compute; reflexivity|]. split; reflexivity. }
  split; [by rewrite Hs; cbn; rewrite Hp|].
  destruct (@abort_shows_chat_failed demo 0 asking (InputChange "x") 0 ss Hs Hc eq_refl)
    as (H1 & H2 & _).
  split; [exact H1 | exact H2].
Defined.

(** In [asking] the spinner is on and the reply is streaming. *)
Lemma spinner_iff_streaming_witness :
  Forall (fun e => text_only e = true) asking /\
  (loading (@run demo (init 0) asking) = true <->
   streaming (@run demo (init 0) asking)).
Proof.
  assert (Forall (fun e => text_only e = true) asking) as Hall
    by (repeat constructor).
  split; [exact Hall|]. exact (@spinner_iff_streaming demo 0 asking Hall).
Defined.

(** The ids of [voice_round_trip]. *)
Lemma message_keys_unique_witness :
  @fresh_run demo (init 0) voice_round_trip /\
  NoDup (ids (@run demo (init 0) voice_round_trip)).
Proof.
  assert (@fresh_run demo (init 0) voice_round_trip) as Hf by fresh_here.
  split; [exact Hf|]. exact (@message_keys_unique demo 0 voice_round_trip Hf).
Defined.

(** The question [" hi "], and the reply that streams after it. *)
Lemma typed_text_is_kept_witness :
  let tr0 := [InputChange " hi "] in
  let tr := [FetchSettled 0 (Some (true, true));
             ReadSettled 0 (Chunk (delta_line "Hel"))] in
  @fresh_run demo (init 0) (tr0 ++ SendText "u1" "a1" 1 :: tr) /\
  texts_of "u1" (messages (@run demo (init 0) (tr0 ++ SendText "u1" "a1" 1 :: tr)))
    = ["hi"].
Proof.
  intros tr0 tr.
  assert (@fresh_run demo (init 0) (tr0 ++ SendText "u1" "a1" 1 :: tr)) as Hf.
  { split; [exact I|]. split; [split; [|split]|].
    - discriminate.
    - apply (bool_decide_unpack _); vm_compute; exact I.
    - apply (bool_decide_unpack _); vm_compute; exact I.
    - vm_compute; tauto. }
  split; [exact Hf|].
  assert (blank (input (@run demo (init 0) tr0)) = false) as Hb
    by (vm_compute; reflexivity).
  pose proof (@typed_text_is_kept demo 0 tr0 "u1" "a1" 1 tr Hf Hb) as H.
  cbv zeta in H. rewrite <- run_app in H.
  etrans; [exact H|]. vm_compute; reflexivity.
Defined.



(** In [voice_round_trip] nothing is released, and the URL stored in the
    reply is the one the voice request received. *)
Lemma released_and_stored_urls_witness :
  Forall (fun e => from_page e = true) voice_round_trip /\
  (exists m, m ∈ messages (@run demo (init 0) voice_round_trip) /\
             m_audioUrl m = Some "blob:v") /\
  exists v, VoiceBlob v (Some "blob:v") ∈ voice_round_trip.
Proof.
  assert (Forall (fun e => from_page e = true) voice_round_trip) as Hall
    by (repeat constructor).
  split; [exact Hall|].
  assert (Msg "a1" Assistant "" (Some "blob:v") 1
            ∈ messages (@run demo (init 0) voice_round_trip)) as Hin.
  { vm_compute. repeat (first [apply list_elem_of_here | apply list_elem_of_further]). }
  split; [eexists; split; [exact Hin | reflexivity]|].
  destruct (@released_and_stored_urls demo 0 voice_round_trip Hall) as [_ H].
  exact (H _ "blob:v" Hin eq_refl).
Defined.

(** Typing while a request for speech is on its way. *)
Lemma pending_speech_survives_interrupt_witness :
  let s := @run demo (init 0) speech_on_its_way in
  let s' := @run demo s [InputChange "x"; SpeakBlob 0 (Some "blob:s")] in
  speaks s !! 0 = Some (Speak "hello" (Some "welcome") OnBlob) /\
  currentItemRef (audio s') =
    Some (Item 0 "blob:s" (Some true) (Some "welcome")) /\
  playingMsgId (audio s') = Some "welcome".
Proof.
  intros s s'.
  assert (speaks s !! 0 = Some (Speak "hello" (Some "welcome") OnBlob)) as Hk
    by reflexivity.
  split; [exact Hk|].
  destruct (@pending_speech_survives_interrupt demo s (InputChange "x") 0 _
              "blob:s" Hk eq_refl eq_refl) as (H1 & _ & H3 & _).
  split; [exact H1 | exact H3].
Defined.



(** A reply is streaming when the user clicks the microphone, which is
    then granted. *)
Lemma no_stream_while_recording_witness :
  let tr := asking ++ [ToggleRecord; MicSettled true] in
  @apart_run demo (init 0) tr /\
  mic_busy (@run demo (init 0) tr) = true /\
  ~ streaming (@run demo (init 0) tr).
Proof.
  intros tr.
  assert (@apart_run demo (init 0) tr) as Ha by (vm_compute; tauto).
  assert (mic_busy (@run demo (init 0) tr) = true) as Hb by (vm_compute; reflexivity).
  split; [exact Ha|]. split; [exact Hb|].
  exact (@no_stream_while_recording demo 0 tr Ha Hb).
Defined.
